(** * Shallow embedding of sync_parchment_data.py (Drive sync and clean tool)
    and of the Photos-album variant sync_parchment_data_FIXED.py.

    Conventions used throughout:
    - Python [str] values are [String.string] holding their UTF-8 bytes, so the
      byte-wise lexicographic order of [String.compare] is Python's code-point
      order on [str].
    - Python [bytes] are [list Byte.byte].
    - A JSON object / Python dict is an association list in insertion order;
      assigning to an existing key replaces its value in place, assigning to a
      new key appends it (the behaviour of CPython dicts).
    - A Python exception is the [Exc] outcome of [res]; the kind of exception
      is not recorded because every handler in the source is [except Exception].
    - The libraries the script calls (OpenCV, pyzbar, PIL, the Drive client,
      the zipfile codec) are parameters of Sections: the script is verified for
      every behaviour of them. *)

From Stdlib Require Import String List Bool ZArith Lia Ascii.
From Stdlib Require Import Init.Byte.
From Stdlib Require Import Permutation Sorted.
From Stdlib Require OrderedTypeEx.
From Stdlib Require PrimFloat.
Import ListNotations.
Open Scope string_scope.

Definition bytes := list Byte.byte.

(** ** Python values, dicts and truthiness *)

(** A JSON scalar as stored in the mapping entries: a string or [null]. *)
Inductive pyval := PNone | PStr (s : string).

Definition pyval_eqb (a b : pyval) : bool :=
  match a, b with
  | PNone, PNone => true
  | PStr x, PStr y => String.eqb x y
  | _, _ => false
  end.

(** [bool(x)] for the result of [d.get(k)]: missing keys, [None] and [""]
    are falsy. *)
Definition truthy (o : option pyval) : bool :=
  match o with
  | Some (PStr s) => negb (String.eqb s "")
  | _ => false
  end.

Definition truthy_str (o : option string) : bool :=
  match o with Some s => negb (String.eqb s "") | None => false end.

Section Dict.
  Context {V : Type}.

  (** [d.get(k)] *)
Fixpoint dict_get (k : string) (d : list (string * V)) : option V :=
    match d with
    | [] => None
    | (k', v) :: d' => if String.eqb k k' then Some v else dict_get k d'
    end.

  (** [d[k] = v] *)
Fixpoint dict_set (k : string) (v : V) (d : list (string * V)) : list (string * V) :=
    match d with
    | [] => [(k, v)]
    | (k', v') :: d' => if String.eqb k k' then (k', v) :: d' else (k', v') :: dict_set k v d'
    end.

Definition dict_mem (k : string) (d : list (string * V)) : bool :=
    match dict_get k d with Some _ => true | None => false end.
End Dict.

(** [d.get(k, default)]: the default is used only when the key is absent. *)
Definition get_or (k : string) (dflt : pyval) (e : list (string * pyval)) : pyval :=
  match dict_get k e with Some v => v | None => dflt end.

(** A mapping entry (one JSON object of photo_mapping.json). *)
Definition entry := list (string * pyval).
(** The Mapping Store: identifier -> entry. *)
Definition store := list (string * entry).

(** ** String helpers: [str.lower], [str.endswith], [in], [os.path.basename] *)

Definition ascii_lower (c : ascii) : ascii :=
  let n := nat_of_ascii c in
  if (65 <=? n)%nat && (n <=? 90)%nat then ascii_of_nat (n + 32)%nat else c.

(** [str.lower] on the ASCII letters (the extensions compared against are
    ASCII, and no non-ASCII character lowers to an ASCII one used there). *)
Fixpoint str_lower (s : string) : string :=
  match s with
  | EmptyString => EmptyString
  | String c s' => String (ascii_lower c) (str_lower s')
  end.

Fixpoint str_rev (s : string) : string :=
  match s with
  | EmptyString => EmptyString
  | String c s' => str_rev s' ++ String c EmptyString
  end.

Definition endswith (s suf : string) : bool :=
  String.prefix (str_rev suf) (str_rev s).

(** [sub in s] for strings. *)
Fixpoint contains (sub s : string) : bool :=
  match s with
  | EmptyString => String.prefix sub s
  | String _ s' => String.prefix sub s || contains sub s'
  end.

(** [os.path.basename]: the part after the last ["/"]. *)
Fixpoint basename_aux (cur s : string) : string :=
  match s with
  | EmptyString => cur
  | String c s' =>
      if Ascii.eqb c "/"%char then basename_aux EmptyString s'
      else basename_aux (cur ++ String c EmptyString) s'
  end.
Definition basename (s : string) : string := basename_aux EmptyString s.

(** ** Exceptions *)

Inductive res (A : Type) := Ok (a : A) | Exc.
Arguments Ok {A} a.
Arguments Exc {A}.

(** ** The QR Matcher *)

(** A pyzbar [Rect(left, top, width, height)]. *)
Record rect := mk_rect { r_left : Z; r_top : Z; r_width : Z; r_height : Z }.

(** A pyzbar [Decoded] symbol: its raw payload and its rectangle. *)
Record symbol := mk_symbol { sym_data : bytes; sym_rect : rect }.

Section Matcher.
  (** Decoded OpenCV images. *)
  Variable img : Type.
  (** [cv2.imdecode(np.frombuffer(b, np.uint8), cv2.IMREAD_COLOR)]:
      [Ok None] when the bytes are not an image; [Exc] when OpenCV raises
      (an empty buffer, for instance). *)
  Variable imdecode : bytes -> res (option img).
  (** [pyzbar.decode(img)], symbols in the decoder's order. *)
  Variable zbar_decode : img -> res (list symbol).
  (** [data.decode('utf-8')]; [None] is a [UnicodeDecodeError]. *)
  Variable utf8_decode : bytes -> option string.
  (** [img.shape[:2]] as [(height, width)]. *)
  Variable img_shape : img -> Z * Z.
  (** [img[y1:y2, x1:x2]] *)
  Variable img_slice : img -> Z -> Z -> Z -> Z -> img.
  (** [cv2.cvtColor(img, cv2.COLOR_BGR2GRAY)], which raises on an empty image. *)
  Variable to_gray : img -> res img.

  (** [detect_qr] of sync_parchment_data.py: full-frame scan. *)
Definition detect_qr (image_data : bytes) : option string * option rect :=
    match imdecode image_data with
    | Exc => (None, None)
    | Ok None => (None, None)
    | Ok (Some im) =>
        match zbar_decode im with
        | Exc => (None, None)
        | Ok [] => (None, None)
        | Ok (q :: _) =>
            match utf8_decode (sym_data q) with
            | Some s => (Some s, Some (sym_rect q))
            | None => (None, None)
            end
        end
    end.

  (** [int(x * 0.45)] for a non-negative image dimension: the float product
      never falls below the exact one, so this is [floor (45 x / 100)]. *)
Definition frac45 (x : Z) : Z := (45 * x) / 100.

  (** [detect_qr] of sync_parchment_data_FIXED.py: scan of the top-left
      45% x 45% crop, returning the payload only.  No exception handler. *)
Definition detect_qr_crop (image_bytes : bytes) : res (option string) :=
    match imdecode image_bytes with
    | Exc => Exc
    | Ok None => Ok None
    | Ok (Some im) =>
        let '(height, width) := img_shape im in
        let crop := img_slice im 0 (frac45 height) 0 (frac45 width) in
        match to_gray crop with
        | Exc => Exc
        | Ok gray =>
            match zbar_decode gray with
            | Exc => Exc
            | Ok [] => Ok None
            | Ok (q :: _) =>
                match utf8_decode (sym_data q) with
                | Some s => Ok (Some s)
                | None => Exc
                end
            end
        end
    end.
End Matcher.

(** The Python value a matcher call ends with: a [(data, rect)] tuple, a bare
    string, a bare [None], or a propagated exception. *)
Inductive pyret :=
| RPair (o : option string) (r : option rect)
| RStr (s : string)
| RNone
| RRaise.

Definition ret_of_pair (p : option string * option rect) : pyret :=
  RPair (fst p) (snd p).


(** ** Run state: the remote Drive, the local disk, the in-memory mapping *)

(** A ZIP member: [ZipInfo.filename] and its content. *)
Record zentry := mk_zentry { z_name : string; z_data : bytes }.

(** Observable effects of a run, in the order they happen. *)
Inductive event :=
| EvList (folder : string)          (* files().list page request *)
| EvDownload (file_id : string)     (* files().get_media download *)
| EvUpload (file_id : string)       (* files().update of a file's content *)
| EvWriteLocal (path : string)      (* open(path, 'wb').write(...) *)
| EvReadLocal (path : string)       (* open(path, 'rb').read() *)
| EvImwrite (path : string)         (* cv2.imwrite(path, ...) *)
| EvDetect                          (* a detect_qr call *)
| EvExif                            (* an extract_exif call *)
| EvMatch (qid : string)            (* mapping[qid] = {...} *)
| EvSave                            (* json.dump(mapping, MAPPING_FILE) *)
| EvDriveMeta (file_id : string)    (* files().get(fields=owners) *)
| EvDriveQuery (name : string)      (* files().list(q=name = ...) *)
| EvThumbUpload (path : string)     (* files().create of a thumbnail *)
| EvFetchUrl (url : string)         (* requests.get(url) *)
| EvFailLog (line : string).        (* append to failed_scans.txt *)

(** The spreadsheet: rows of cells. *)
Definition sheet := list (list pyval).

Record world := mk_world {
  w_remote : list (string * bytes);  (* Drive file contents by file id *)
  w_local : list (string * bytes);   (* local image files by path *)
  w_mem : store;                     (* the in-memory [mapping] dict *)
  w_saved : option store;            (* MAPPING_FILE, when it exists *)
  w_sheet : sheet;                   (* Sheet1 of the tracking spreadsheet *)
  w_clock : nat;                     (* number of datetime.now() calls so far *)
  w_trace : list event }.

Definition set_remote (r : list (string * bytes)) (w : world) : world :=
  mk_world r (w_local w) (w_mem w) (w_saved w) (w_sheet w) (w_clock w) (w_trace w).
Definition set_local (l : list (string * bytes)) (w : world) : world :=
  mk_world (w_remote w) l (w_mem w) (w_saved w) (w_sheet w) (w_clock w) (w_trace w).
Definition set_mem (m : store) (w : world) : world :=
  mk_world (w_remote w) (w_local w) m (w_saved w) (w_sheet w) (w_clock w) (w_trace w).
Definition set_saved (s : option store) (w : world) : world :=
  mk_world (w_remote w) (w_local w) (w_mem w) s (w_sheet w) (w_clock w) (w_trace w).
Definition set_sheet (s : sheet) (w : world) : world :=
  mk_world (w_remote w) (w_local w) (w_mem w) (w_saved w) s (w_clock w) (w_trace w).
Definition set_clock (c : nat) (w : world) : world :=
  mk_world (w_remote w) (w_local w) (w_mem w) (w_saved w) (w_sheet w) c (w_trace w).
Definition add_event (e : event) (w : world) : world :=
  mk_world (w_remote w) (w_local w) (w_mem w) (w_saved w) (w_sheet w) (w_clock w)
    (w_trace w ++ [e]).

(** ** The state and exception monad *)

Definition M (A : Type) := world -> res A * world.

Definition ret {A} (a : A) : M A := fun w => (Ok a, w).
Definition bind {A B} (c : M A) (k : A -> M B) : M B :=
  fun w => match c w with
           | (Ok a, w') => k a w'
           | (Exc, w') => (Exc, w')
           end.
Definition raise {A} : M A := fun w => (Exc, w).
(** [try: c  except Exception: h]; effects of [c] before the exception stay. *)
Definition try_ {A} (c : M A) (h : M A) : M A :=
  fun w => match c w with
           | (Ok a, w') => (Ok a, w')
           | (Exc, w') => h w'
           end.
Definition modify (f : world -> world) : M unit := fun w => (Ok tt, f w).
Definition gets {A} (f : world -> A) : M A := fun w => (Ok (f w), w).
Definition emit (e : event) : M unit := modify (add_event e).
Definition of_res {A} (r : res A) : M A :=
  match r with Ok a => ret a | Exc => raise end.

Notation "x <- c1 ;; c2" := (bind c1 (fun x => c2))
  (at level 61, c1 at next level, right associativity).
Notation "' pat <- c1 ;; c2" := (bind c1 (fun x => match x with pat => c2 end))
  (at level 61, pat pattern, c1 at next level, right associativity).
Notation "c1 ;; c2" := (bind c1 (fun _ : unit => c2))
  (at level 61, right associativity).

(** [datetime.now()]: the index of the call; its renderings are parameters. *)
Definition now : M nat :=
  c <- gets w_clock ;; modify (set_clock (S c)) ;; ret c.

(** [service.files().get_media(fileId)] downloaded to the end. *)
Definition download (file_id : string) : M bytes :=
  emit (EvDownload file_id) ;;
  r <- gets w_remote ;;
  match dict_get file_id r with Some b => ret b | None => raise end.

Definition write_local (path : string) (b : bytes) : M unit :=
  emit (EvWriteLocal path) ;; modify (fun w => set_local (dict_set path b (w_local w)) w).

(** [mapping[qid] = e] on the shared mapping object. *)
Definition mem_assign (qid : string) (e : entry) : M unit :=
  emit (EvMatch qid) ;; modify (fun w => set_mem (dict_set qid e (w_mem w)) w).

(** [json.dump(mapping, open(MAPPING_FILE, 'w'))]. *)
Definition save_mapping : M unit :=
  emit EvSave ;; modify (fun w => set_saved (Some (w_mem w)) w).

(** [os.path.join(a, b)] *)
Definition path_join (a b : string) : string :=
  if String.prefix "/" b then b else a ++ "/" ++ b.

(** [int(w * 0.2)] for a non-negative integer [w]: [floor (w / 5)]. *)
Definition pad20 (x : Z) : Z := x / 5.

(** Python slicing bounds [max(0, a)] and [min(n, b)]. *)
Definition clamp_lo (a : Z) : Z := Z.max 0 a.
Definition clamp_hi (n b : Z) : Z := Z.min n b.

(** ** The Drive sync: thumbnails, ZIP cleaning, folder scan *)

(** A file of the Drive listing: [id], [name], [mimeType], [createdTime] and
    the [displayName] of each owner. *)
Record asset := mk_asset {
  a_id : string; a_name : string; a_mime : string;
  a_created : pyval; a_owners : list (option string) }.

(** [owners[0].get('displayName', 'Unknown') if owners else 'Unknown'] *)
Definition creator_of (owners : list (option string)) : string :=
  match owners with
  | [] => "Unknown"
  | o :: _ => match o with Some s => s | None => "Unknown" end
  end.

(** [if qr_id:] on the identifier returned by [detect_qr]. *)
Definition qr_hit (o : option string) : option string :=
  match o with
  | Some q => if String.eqb q "" then None else Some q
  | None => None
  end.

Definition image_exts : list string := [".jpg"; ".jpeg"; ".png"; ".tiff"; ".webp"].

(** [img_name.lower().endswith(image_exts)] *)
Definition is_image_name (n : string) : bool :=
  existsb (endswith (str_lower n)) image_exts.

(** [ZipInfo.is_dir()] *)
Definition is_dir_name (n : string) : bool := endswith n "/".

(** [z_old.read(name)] and [z_old.open(name)]: the member stored under [name]
    in [ZipFile.NameToInfo], which is the last member with that name. *)
Definition zip_read (arch : list zentry) (name : string) : option bytes :=
  fold_left (fun acc z => if String.eqb (z_name z) name then Some (z_data z) else acc)
    arch None.

Definition of_opt {A} (o : option A) : M A :=
  match o with Some a => ret a | None => raise end.

(** [any(m.get('filename') == os.path.basename(img_name) for m in mapping.values())] *)
Definition already_captured (m : store) (img_name : string) : bool :=
  existsb (fun qe => match dict_get "filename" (snd qe) with
                     | Some v => pyval_eqb v (PStr (basename img_name))
                     | None => false
                     end) m.

(** [any(m.get('drive_id') == file_id for m in mapping.values())] *)
Definition recorded_drive_id (m : store) (file_id : string) : bool :=
  existsb (fun qe => match dict_get "drive_id" (snd qe) with
                     | Some v => pyval_eqb v (PStr file_id)
                     | None => false
                     end) m.

Section Sync.
  Variable img : Type.
  Variable imdecode : bytes -> res (option img).
  Variable zbar_decode : img -> res (list symbol).
  Variable utf8_decode : bytes -> option string.
  Variable img_shape : img -> Z * Z.
  Variable img_slice : img -> Z -> Z -> Z -> Z -> img.
  (** [cv2.resize(img, (width, height), interpolation=cv2.INTER_AREA)] *)
  Variable resize : img -> Z -> Z -> res img.
  (** [int(h * (300.0 / w))]: float arithmetic, left abstract. *)
  Variable thumb_height : Z -> Z -> Z.
  (** [cv2.imwrite(path, img)]: [Ok false] when nothing could be written. *)
  Variable imwrite : string -> img -> res bool.
  (** [extract_exif]: [(camera, location)], it never raises. *)
  Variable extract_exif : bytes -> string * string.
  (** [zipfile.ZipFile(fh)].infolist() with the members' contents;
      [None] is a [BadZipFile]. *)
  Variable parse_zip : bytes -> option (list zentry).
  (** The bytes of a [zipfile.ZipFile(.., 'w')] holding these members. *)
  Variable build_zip : list zentry -> bytes.
  (** [service.files().update(fileId, media_body).execute()]: [Exc] when the
      request raises, in which case the Drive file is left as it was. *)
  Variable drive_update : string -> bytes -> res unit.
  (** [datetime.now().isoformat()] of the n-th clock reading. *)
  Variable iso_of : nat -> string.
  (** IMAGES_DIR and THUMBS_DIR. *)
  Variable images_dir thumbs_dir : string.
  (** The responses of the paginated [files().list] of a folder, in order. *)
  Variable folder_pages : string -> list (res (list asset)).

  (** [service.files().update(fileId, media_body)]. *)
Definition upload (file_id : string) (b : bytes) : M unit :=
    emit (EvUpload file_id) ;;
    of_res (drive_update file_id b) ;;
    modify (fun w => set_remote (dict_set file_id b (w_remote w)) w).

Definition detect (b : bytes) : M (option string * option rect) :=
    emit EvDetect ;; ret (detect_qr img imdecode zbar_decode utf8_decode b).

Definition exif (b : bytes) : M (string * string) :=
    emit EvExif ;; ret (extract_exif b).

  (** [cv2.imwrite]; the event records a file actually written. *)
Definition imwrite_m (path : string) (im : img) : M unit :=
    ok <- of_res (imwrite path im) ;;
    if ok then emit (EvImwrite path) else ret tt.

  (** [generate_thumbnails(qr_id, image_data, rect)].  [None] is the bare
      [return] taken when the bytes are not an image; [Some (t, q)] is the
      returned pair. *)
Definition generate_thumbnails (qr_id : string) (image_data : bytes) (r : option rect)
    : M (option (pyval * pyval)) :=
    try_
      (im_o <- of_res (imdecode image_data) ;;
       match im_o with
       | None => ret None
       | Some im =>
           let '(h, w) := img_shape im in
           thumb <- of_res (resize im 300 (thumb_height h w)) ;;
           let thumb_path := path_join thumbs_dir (qr_id ++ "_thumb.jpg") in
           imwrite_m thumb_path thumb ;;
           match r with
           | Some rc =>
               let l := r_left rc in let t := r_top rc in
               let rw := r_width rc in let rh := r_height rc in
               let pad_w := pad20 rw in
               let pad_h := pad20 rh in
               let '(img_h, img_w) := img_shape im in
               let y1 := clamp_lo (t - pad_h) in
               let y2 := clamp_hi img_h (t + rh + pad_h) in
               let x1 := clamp_lo (l - pad_w) in
               let x2 := clamp_hi img_w (l + rw + pad_w) in
               let qr_crop := img_slice im y1 y2 x1 x2 in
               let qr_path := path_join thumbs_dir (qr_id ++ "_qr.jpg") in
               imwrite_m qr_path qr_crop ;;
               ret (Some (PStr thumb_path, PStr qr_path))
           | None => ret (Some (PNone, PNone))
           end
       end)
      (ret (Some (PNone, PNone))).

  (** The [for z_item in z_old.infolist()] loop of [process_zip]; its state is
      the members written to [z_new], [new_matches] and [duplicates_removed]. *)
Fixpoint zip_loop (arch : list zentry) (file_name creator : string)
      (items : list zentry) (z_new : list zentry) (new_matches : nat) (removed : bool)
      : M (list zentry * nat * bool) :=
    match items with
    | [] => ret (z_new, new_matches, removed)
    | z :: rest =>
        let img_name := z_name z in
        if is_dir_name img_name then
          zip_loop arch file_name creator rest (z_new ++ [mk_zentry img_name []]) new_matches removed
        else if is_image_name img_name then
          m <- gets w_mem ;;
          if negb (already_captured m img_name) then
            img_data <- of_opt (zip_read arch img_name) ;;
            '(qr_id, r) <- detect img_data ;;
            match qr_hit qr_id with
            | Some q =>
                let local_path := path_join images_dir (q ++ ".jpg") in
                write_local local_path img_data ;;
                t <- generate_thumbnails q img_data r ;;
                match t with
                | None => raise (* unpacking the bare None: TypeError *)
                | Some (t_path, q_path) =>
                    '(cam, loc) <- exif img_data ;;
                    ts <- now ;;
                    mem_assign q
                      [("filename", PStr (basename img_name));
                       ("source_zip", PStr file_name);
                       ("timestamp", PStr (iso_of ts));
                       ("local_path", PStr local_path);
                       ("thumb_path", t_path);
                       ("qr_path", q_path);
                       ("creator", PStr creator);
                       ("camera", PStr cam);
                       ("location", PStr loc)] ;;
                    zip_loop arch file_name creator rest z_new (S new_matches) true
                end
            | None =>
                zip_loop arch file_name creator rest
                  (z_new ++ [mk_zentry img_name img_data]) new_matches removed
            end
          else
            zip_loop arch file_name creator rest z_new new_matches true
        else
          data <- of_opt (zip_read arch img_name) ;;
          zip_loop arch file_name creator rest (z_new ++ [mk_zentry img_name data])
            new_matches removed
    end.

  (** The body of the [try] block of [process_zip]. *)
Definition process_zip_body (file_id file_name creator : string) : M nat :=
    data <- download file_id ;;
    arch <- of_opt (parse_zip data) ;;
    '(z_new, n, removed) <- zip_loop arch file_name creator arch [] 0 false ;;
    (if removed then upload file_id (build_zip z_new) else ret tt) ;;
    ret n.

  (** [process_zip(service, file_id, file_name, mapping, creator)] *)
Definition process_zip (file_id file_name creator : string) : M nat :=
    try_ (process_zip_body file_id file_name creator) (ret 0).

  (** One image file of the folder loop of [process_folder]. *)
Definition process_image (it : asset) (count : nat) : M nat :=
    let creator := creator_of (a_owners it) in
    m <- gets w_mem ;;
    if recorded_drive_id m (a_id it) then ret count
    else
      try_
        (img_data <- download (a_id it) ;;
         '(qr_id, r) <- detect img_data ;;
         match qr_hit qr_id with
         | None => ret count
         | Some q =>
             let local_path := path_join images_dir (q ++ ".jpg") in
             write_local local_path img_data ;;
             t <- generate_thumbnails q img_data r ;;
             match t with
             | None => raise (* unpacking the bare None: TypeError *)
             | Some (t_path, q_path) =>
                 '(cam, loc) <- exif img_data ;;
                 mem_assign q
                   [("filename", PStr (a_name it));
                    ("drive_id", PStr (a_id it));
                    ("timestamp", a_created it);
                    ("local_path", PStr local_path);
                    ("thumb_path", t_path);
                    ("qr_path", q_path);
                    ("creator", PStr creator);
                    ("camera", PStr cam);
                    ("location", PStr loc)] ;;
                 ret (S count)
             end
         end)
        (ret count).

  (** One listed file: ZIP archives go to [process_zip], before any skip check. *)
Definition process_item (it : asset) (count : nat) : M nat :=
    if contains "zip" (a_mime it) then
      n <- process_zip (a_id it) (a_name it) (creator_of (a_owners it)) ;;
      ret (count + n)
    else process_image it count.

Fixpoint items_loop (items : list asset) (count : nat) : M nat :=
    match items with
    | [] => ret count
    | it :: rest => c <- process_item it count ;; items_loop rest c
    end.

Fixpoint pages_loop (folder_id : string) (ps : list (res (list asset))) (count : nat)
      : M nat :=
    match ps with
    | [] => ret count
    | p :: ps' =>
        emit (EvList folder_id) ;;
        match p with
        | Exc => raise
        | Ok [] => ret count
        | Ok items => c <- items_loop items count ;; pages_loop folder_id ps' c
        end
    end.

  (** [process_folder(service, folder_id, mapping)] *)
Definition process_folder (folder_id : string) : M nat :=
    pages_loop folder_id (folder_pages folder_id) 0.

  (** Step 2 of [main]: [for folder_id in TARGET_FOLDERS: total += process_folder(...)]. *)
Fixpoint sync_folders (folders : list string) (total : nat) : M nat :=
    match folders with
    | [] => ret total
    | f :: fs => n <- process_folder f ;; sync_folders fs (total + n)
    end.

  (** *** Step 3 of [main]: the healing pass *)

  (** [files().get(fileId, fields="owners(displayName)")]: the owners' names. *)
  Variable drive_get_owners : string -> res (list (option string)).
  (** [files().list(q="name = '...' and trashed = false")]: for each file found,
      its [owners] field when present. *)
  Variable drive_find_by_name : string -> res (list (option (list (option string)))).

  (** [item.get(k) == 'Unknown'] *)
Definition is_unknown (o : option pyval) : bool :=
    match o with Some (PStr s) => String.eqb s "Unknown" | _ => false end.

Definition str_of (o : option pyval) : string :=
    match o with Some (PStr s) => s | _ => "" end.

  (** [os.path.exists(p)]; [os.stat(None)] raises a TypeError that
      [os.path.exists] does not catch. *)
Definition path_exists (p : pyval) : M bool :=
    match p with
    | PNone => raise
    | PStr s => l <- gets w_local ;; ret (dict_mem s l)
    end.

Definition read_local (p : pyval) : M bytes :=
    match p with
    | PNone => raise
    | PStr s => emit (EvReadLocal s) ;; l <- gets w_local ;; of_opt (dict_get s l)
    end.

  (** [mapping[qid]], the live entry object. *)
Definition mem_entry (qid : string) : M entry :=
    m <- gets w_mem ;; of_opt (dict_get qid m).

  (** [item[k] = v] on the entry object shared with [mapping]. *)
Definition item_set (qid k : string) (v : pyval) : M unit :=
    modify (fun w => set_mem (match dict_get qid (w_mem w) with
                              | Some e => dict_set qid (dict_set k v e) (w_mem w)
                              | None => w_mem w
                              end) w).

  (** Steps 3a and 3b for one entry. *)
Definition heal_data (qid : string) : M unit :=
    e <- mem_entry qid ;;
    let local_img := get_or "local_path" (PStr "") e in
    ex <- path_exists local_img ;;
    if ex then
      if negb (truthy (dict_get "thumb_path" e)) || negb (truthy (dict_get "camera" e)) then
        try_
          (img_data <- read_local local_img ;;
           e1 <- mem_entry qid ;;
           (if negb (truthy (dict_get "thumb_path" e1)) then
              '(_, r) <- detect img_data ;;
              t <- generate_thumbnails qid img_data r ;;
              match t with
              | None => raise (* unpacking the bare None: TypeError *)
              | Some (t_path, q_path) =>
                  item_set qid "thumb_path" t_path ;; item_set qid "qr_path" q_path
              end
            else ret tt) ;;
           e2 <- mem_entry qid ;;
           (if negb (truthy (dict_get "camera" e2)) || is_unknown (dict_get "camera" e2) then
              '(cam, loc) <- exif img_data ;;
              item_set qid "camera" (PStr cam) ;; item_set qid "location" (PStr loc)
            else ret tt))
          (ret tt)
      else ret tt
    else ret tt.

  (** [files[0].get('owners', [{}])[0].get('displayName', 'Unknown') if files
      else 'Unknown']; an empty [owners] list raises an IndexError. *)
Definition zip_owner_of (files : list (option (list (option string)))) : res string :=
    match files with
    | [] => Ok "Unknown"
    | f :: _ =>
        match match f with Some os => os | None => [None] end with
        | [] => Exc
        | o :: _ => Ok (match o with Some s => s | None => "Unknown" end)
        end
    end.

  (** Step 3c for one entry, threading the [zip_owners] cache.  The cache is
      assigned after the last call that can raise, so an exception leaves it
      as it was. *)
Definition heal_creator (qid : string) (zip_owners : list (string * string))
      : M (list (string * string)) :=
    e <- mem_entry qid ;;
    if negb (truthy (dict_get "creator" e)) || is_unknown (dict_get "creator" e) then
      try_
        ('(creator, cache) <-
           (if truthy (dict_get "drive_id" e) then
              let fid := str_of (dict_get "drive_id" e) in
              emit (EvDriveMeta fid) ;;
              owners <- of_res (drive_get_owners fid) ;;
              ret (creator_of owners, zip_owners)
            else if truthy (dict_get "source_zip" e) then
              let z_name := str_of (dict_get "source_zip" e) in
              match dict_get z_name zip_owners with
              | Some c => ret (c, zip_owners)
              | None =>
                  emit (EvDriveQuery z_name) ;;
                  files <- of_res (drive_find_by_name z_name) ;;
                  c <- of_res (zip_owner_of files) ;;
                  ret (c, dict_set z_name c zip_owners)
              end
            else ret ("Unknown", zip_owners)) ;;
         (if negb (String.eqb creator "Unknown") then item_set qid "creator" (PStr creator)
          else ret tt) ;;
         ret cache)
        (ret zip_owners)
    else ret zip_owners.

Fixpoint heal_loop (qids : list string) (zip_owners : list (string * string)) : M unit :=
    match qids with
    | [] => ret tt
    | q :: qs => heal_data q ;; c <- heal_creator q zip_owners ;; heal_loop qs c
    end.

  (** Step 3 of [main]: [for qid, item in mapping.items(): ...] (the [healed]
      counter only feeds a log line). *)
Definition heal_pass : M unit :=
    m <- gets w_mem ;; heal_loop (map fst m) [].

  (** *** Step 4 of [main]: thumbnail upload backfill *)

  (** [files().create] of the thumbnail named [name] in [folder] (then shared):
      the new file id. *)
  Variable drive_create_thumb : string -> string -> string -> res string.

  (** [upload_thumbnail(service, local_path, qr_id, thumb_type)] *)
Definition upload_thumbnail (folder : option string) (local_path qid thumb_type : string)
      : M pyval :=
    if truthy_str folder then
      try_
        (emit (EvThumbUpload local_path) ;;
         fid <- of_res (drive_create_thumb (match folder with Some f => f | None => "" end)
                          local_path (qid ++ "_" ++ thumb_type ++ ".jpg")) ;;
         ret (PStr fid))
        (ret PNone)
    else ret PNone.

Definition backfill_entry (folder : option string) (qid : string) : M unit :=
    e <- mem_entry qid ;;
    (if truthy (dict_get "thumb_path" e) && negb (truthy (dict_get "drive_thumb_id" e)) then
       v <- upload_thumbnail folder (str_of (dict_get "thumb_path" e)) qid "thumb" ;;
       item_set qid "drive_thumb_id" v
     else ret tt) ;;
    e' <- mem_entry qid ;;
    (if truthy (dict_get "qr_path" e') && negb (truthy (dict_get "drive_qr_id" e')) then
       v <- upload_thumbnail folder (str_of (dict_get "qr_path" e')) qid "qr" ;;
       item_set qid "drive_qr_id" v
     else ret tt).

Fixpoint backfill_loop (folder : option string) (qids : list string) : M unit :=
    match qids with
    | [] => ret tt
    | q :: qs => backfill_entry folder q ;; backfill_loop folder qs
    end.

Definition backfill_pass (folder : option string) : M unit :=
    m <- gets w_mem ;; backfill_loop folder (map fst m).

  (** *** Step 5: the spreadsheet mirror [log_to_gsheet] *)

  (** [datetime.now().strftime("%Y-%m-%d %H:%M")] of the n-th clock reading. *)
  Variable minute_of : nat -> string.

Definition headers : list string :=
    ["Parchment ID"; "Original Filename"; "Captured Date"; "Sync Date"; "Creator";
     "Camera"; "Location"; "Image Preview"; "QR Preview"].

  (** [for h in headers: if h not in current_headers: current_headers.append(h)] *)
Definition extend_headers (cur : list pyval) : list pyval :=
    fold_left (fun acc h => if existsb (pyval_eqb (PStr h)) acc then acc else (acc ++ [PStr h])%list)
      headers cur.

  (** [rows = [headers]] for an empty sheet, else the header row extended. *)
Definition init_rows (rows : list (list pyval)) : list (list pyval) :=
    match rows with
    | [] => [map PStr headers]
    | h :: rest => extend_headers h :: rest
    end.

Fixpoint last_index_aux (p : pyval -> bool) (l : list pyval) (i : nat) (acc : option nat)
      : option nat :=
    match l with
    | [] => acc
    | x :: l' => last_index_aux p l' (S i) (if p x then Some i else acc)
    end.

  (** [col_map.get(name)] for [col_map = {name: i for i, name in enumerate(rows[0])}]. *)
Definition col_index (hdr : list pyval) (name : string) : option nat :=
    last_index_aux (pyval_eqb (PStr name)) hdr 0 None.

Fixpoint existing_aux (rows : list (list pyval)) (id_col : nat) (qid : string) (i : nat)
      (acc : option nat) : option nat :=
    match rows with
    | [] => acc
    | r :: rs =>
        existing_aux rs id_col qid (S i)
          (match nth_error r id_col with
           | Some v => if pyval_eqb v (PStr qid) then Some i else acc
           | None => acc
           end)
    end.

  (** [existing_ids.get(qid)] for
      [existing_ids = {row[id_col]: i for i, row in enumerate(rows) if len(row) > id_col}]. *)
Definition existing_index (rows : list (list pyval)) (id_col : nat) (qid : string)
      : option nat :=
    existing_aux rows id_col qid 0 None.

Definition dq : string := String "034"%char EmptyString.

  (** [f'=IMAGE("https://drive.google.com/uc?id={ref}")' if ref else ""] *)
Definition image_formula (ref : option pyval) : pyval :=
    if truthy ref then
      PStr ("=IMAGE(" ++ dq ++ "https://drive.google.com/uc?id=" ++ str_of ref ++ dq ++ ")")
    else PStr "".

  (** The [row_data] dict, in its insertion order. *)
Definition row_data (qid : string) (item : entry) (sync : string) : list (string * pyval) :=
    [("Parchment ID", PStr qid);
     ("Original Filename", get_or "filename" (PStr "Unknown") item);
     ("Captured Date", get_or "timestamp" (PStr "Unknown") item);
     ("Sync Date", PStr sync);
     ("Creator", get_or "creator" (PStr "Unknown") item);
     ("Camera", get_or "camera" (PStr "Unknown") item);
     ("Location", get_or "location" (PStr "Unknown") item);
     ("Image Preview", image_formula (dict_get "drive_thumb_id" item));
     ("QR Preview", image_formula (dict_get "drive_qr_id" item))].

  (** [while len(row) <= j: row.append("")] then [row[j] = v]. *)
Definition set_cell (row : list pyval) (j : nat) (v : pyval) : list pyval :=
    let padded := (row ++ repeat (PStr "") (S j - length row))%list in
    (firstn j padded ++ [v] ++ skipn (S j) padded)%list.

  (** [for col_name, val in row_data.items(): if col_name in col_map: ...] *)
Definition update_row (hdr : list pyval) (row : list pyval) (data : list (string * pyval))
      : list pyval :=
    fold_left (fun r cv => match col_index hdr (fst cv) with
                           | Some j => set_cell r j (snd cv)
                           | None => r
                           end) data row.

  (** [new_row = [""] * len(rows[0])] filled the same way. *)
Definition new_row (hdr : list pyval) (data : list (string * pyval)) : list pyval :=
    update_row hdr (repeat (PStr "") (length hdr)) data.

  (** [rows[i] = f(rows[i])] *)
Fixpoint list_update {A} (i : nat) (f : A -> A) (l : list A) : list A :=
    match l, i with
    | [], _ => []
    | x :: l', O => f x :: l'
    | x :: l', S i' => x :: list_update i' f l'
    end.

  (** Python's [sorted(l, key=key)] on [str] keys: a stable insertion sort. *)
Fixpoint insert_by {A} (key : A -> string) (x : A) (l : list A) : list A :=
    match l with
    | [] => [x]
    | y :: l' => if String.ltb (key x) (key y) then x :: l else y :: insert_by key x l'
    end.
Definition sort_by {A} (key : A -> string) (l : list A) : list A :=
    fold_left (fun acc x => insert_by key x acc) l [].

  (** [for qid in sorted(mapping.keys()): ...]; the i-th entry reads the clock
      [c + i]. *)
Fixpoint apply_entries (hdr : list pyval) (existing : string -> option nat)
      (keys : list string) (mapping : store) (c : nat) (rows : list (list pyval))
      : list (list pyval) :=
    match keys with
    | [] => rows
    | q :: ks =>
        let item := match dict_get q mapping with Some e => e | None => [] end in
        let data := row_data q item (minute_of c) in
        let rows' := match existing q with
                     | Some i => list_update i (fun r => update_row hdr r data) rows
                     | None => (rows ++ [new_row hdr data])%list
                     end in
        apply_entries hdr existing ks mapping (S c) rows'
    end.

Definition id_key (id_col : nat) (r : list pyval) : string :=
    match nth id_col r PNone with PStr s => s | PNone => "" end.

  (** [sorted(rows[1:], key=lambda x: x[id_col])]: an IndexError when a row
      has no cell [id_col]; comparing a [None] key raises as soon as two rows
      are compared. *)
Definition sort_rows (id_col : nat) (data : list (list pyval)) : res (list (list pyval)) :=
    if existsb (fun r => Nat.leb (length r) id_col) data then Exc
    else if Nat.leb 2 (length data) &&
            existsb (fun r => match nth id_col r PNone with PNone => true | _ => false end) data
    then Exc
    else Ok (sort_by (id_key id_col) data).

  (** The values [log_to_gsheet] writes from A1, from the rows it read, the
      mapping, and the clock at the first [datetime.now()] call. *)
Definition mirror_core (rows0 : list (list pyval)) (mapping : store) (c : nat)
      : res (list (list pyval)) :=
    let rows1 := init_rows rows0 in
    let hdr := hd [] rows1 in
    let id_col := match col_index hdr "Parchment ID" with Some j => j | None => 0 end in
    let keys := sort_by (fun s => s) (map fst mapping) in
    let rows2 := apply_entries hdr (existing_index rows1 id_col) keys mapping c rows1 in
    match sort_rows id_col (tl rows2) with
    | Ok data => Ok (hd [] rows2 :: data)
    | Exc => Exc
    end.

  (** [log_to_gsheet(service, sheet_id, mapping)].  The sheet holds what was
      last written to it; the Sheets client is not modelled further. *)
Definition log_to_gsheet (sheet_id : string) : M unit :=
    if String.eqb sheet_id "" || contains "PASTE" sheet_id then ret tt
    else
      try_
        (rows0 <- gets w_sheet ;;
         (match rows0 with [] => modify (set_sheet [map PStr headers]) | _ => ret tt end) ;;
         m <- gets w_mem ;;
         c <- gets w_clock ;;
         modify (set_clock (c + length m)) ;;
         final <- of_res (mirror_core rows0 m c) ;;
         modify (set_sheet final))
        (ret tt).

  (** *** [main] *)

  (** Looking up the 'Codicum_Thumbnails' folder: the ids found. *)
  Variable find_thumbs_folder : res (list string).
  (** Creating it: the new id (the sharing call that follows the assignment of
      [THUMBS_FOLDER_ID] cannot undo it). *)
  Variable create_thumbs_folder : res string.

Definition setup_thumbs_folder (configured : option string) : M (option string) :=
    if truthy_str configured then ret configured
    else
      try_
        (files <- of_res find_thumbs_folder ;;
         match files with
         | f :: _ => ret (Some f)
         | [] => fid <- of_res create_thumbs_folder ;; ret (Some fid)
         end)
        (ret configured).

  (** [main()] after authentication: load, sync, heal, upload backfill, save,
      mirror to the sheet (the gap analysis only logs). *)
Definition main_run (target_folders : list string) (thumbs_folder_id : option string)
      (gsheet_id : string) : M unit :=
    modify (fun w => set_mem (match w_saved w with Some m => m | None => [] end) w) ;;
    tf <- setup_thumbs_folder thumbs_folder_id ;;
    _ <- sync_folders target_folders 0 ;;
    heal_pass ;;
    backfill_pass tf ;;
    save_mapping ;;
    log_to_gsheet gsheet_id.
End Sync.

(** ** The Photos-album variant: [sync_album] of sync_parchment_data_FIXED.py *)

(** A media item of the album search: [filename], [baseUrl], [id] and
    [mediaMetadata.creationTime]. *)
Record pitem := mk_pitem {
  p_filename : string; p_base_url : string; p_id : string; p_created : pyval }.

(** [any(meta.get('google_id') == google_id for meta in mapping.values())] *)
Definition recorded_google_id (m : store) (google_id : string) : bool :=
  existsb (fun qe => match dict_get "google_id" (snd qe) with
                     | Some v => pyval_eqb v (PStr google_id)
                     | None => false
                     end) m.

Section Album.
  Variable img : Type.
  Variable imdecode : bytes -> res (option img).
  Variable zbar_decode : img -> res (list symbol).
  Variable utf8_decode : bytes -> option string.
  Variable img_shape : img -> Z * Z.
  Variable img_slice : img -> Z -> Z -> Z -> Z -> img.
  Variable to_gray : img -> res img.
  (** [requests.get(url)]: [Exc] when the request raises, [None] for a
      status other than 200, else the content. *)
  Variable http_get : string -> res (option bytes).
  (** The responses of [mediaItems().search] for an album, page by page. *)
  Variable album_pages : string -> list (res (list pitem)).
  (** IMAGES_DIR *)
  Variable images_dir : string.

  (** [download_image(url, save_path)]: [Some (Some content)] without a
      save path, [Some None] ([True]) after saving, [None] on failure. *)
Definition download_image (url : string) (save_path : option string)
      : M (option (option bytes)) :=
    try_
      (emit (EvFetchUrl url) ;;
       r <- of_res (http_get url) ;;
       match r with
       | None => ret None
       | Some content =>
           match save_path with
           | Some p => write_local p content ;; ret (Some None)
           | None => ret (Some (Some content))
           end
       end)
      (ret None).

  (** [if not img_bytes]: an empty download counts as a failure. *)
Definition got_bytes (o : option (option bytes)) : option bytes :=
    match o with
    | Some (Some (_ :: _) as b) => b
    | _ => None
    end.

  (** One media item of [sync_album] (the batch report, which is not the
      mapping, is left out). *)
Definition album_item (archive_name : string) (it : pitem) : M unit :=
    m <- gets w_mem ;;
    if recorded_google_id m (p_id it) then ret tt
    else
      d <- download_image (p_base_url it ++ "=w1000") None ;;
      match got_bytes d with
      | None => ret tt
      | Some img_bytes =>
          qr <- of_res (detect_qr_crop img imdecode zbar_decode utf8_decode img_shape
                          img_slice to_gray img_bytes) ;;
          match qr_hit qr with
          | Some q =>
              let local_path_rel := "assets/images/" ++ q ++ ".jpg" in
              let local_path_abs := path_join images_dir (q ++ ".jpg") in
              ok <- download_image (p_base_url it ++ "=d") (Some local_path_abs) ;;
              match ok with
              | Some _ =>
                  mem_assign q
                    [("filename", PStr (p_filename it));
                     ("google_url", PStr (p_base_url it));
                     ("google_id", PStr (p_id it));
                     ("timestamp", p_created it);
                     ("archive", PStr archive_name);
                     ("local_path", PStr local_path_rel)] ;;
                  save_mapping
              | None => ret tt
              end
          | None =>
              emit (EvFailLog (p_filename it ++ " | " ++ archive_name ++ " | " ++ p_base_url it))
          end
      end.

Fixpoint album_items (archive_name : string) (items : list pitem) : M unit :=
    match items with
    | [] => ret tt
    | it :: rest => album_item archive_name it ;; album_items archive_name rest
    end.

Fixpoint album_pages_loop (archive_name : string) (ps : list (res (list pitem))) : M unit :=
    match ps with
    | [] => ret tt
    | p :: ps' =>
        match p with
        | Exc => ret tt (* the search error is logged and the loop breaks *)
        | Ok [] => ret tt
        | Ok items => album_items archive_name items ;; album_pages_loop archive_name ps'
        end
    end.

  (** [sync_album(service, album_id, archive_name, mapping, batch_report)] *)
Definition sync_album (album_id archive_name : string) : M unit :=
    album_pages_loop archive_name (album_pages album_id).
End Album.

(** ** The sheet a mirror run writes for a store

    For a store whose identifiers are written in sorted order [keys], the
    data rows [log_to_gsheet] builds: one row per identifier, the i-th one
    stamped with the clock [c + i]. *)

Section SheetRows.
  Variable minute_of : nat -> string.

Definition hdr0 : list pyval := map PStr headers.

  (** [mapping.get(qid, {})] as [apply_entries] reads it. *)
Definition item_of (m : store) (q : string) : entry :=
    match dict_get q m with Some e => e | None => [] end.

Fixpoint rows_of (m : store) (c : nat) (keys : list string) : list (list pyval) :=
    match keys with
    | [] => []
    | q :: ks => new_row hdr0 (row_data q (item_of m q) (minute_of c)) :: rows_of m (S c) ks
    end.
End SheetRows.

(** The entry field the j-th header column is filled from ([None] for the
    identifier column and the Sync Date column). *)
Definition column_field (j : nat) : option string :=
  nth j [None; Some "filename"; Some "timestamp"; None; Some "creator"; Some "camera";
         Some "location"; Some "drive_thumb_id"; Some "drive_qr_id"] None.





(** ** [run_gap_analysis] of sync_parchment_data.py *)

(** A Python [str] is held as its UTF-8 bytes ([str.encode('utf-8')] is
    one-to-one); [re] and [int] see its code points, the bytes decoded back.
    A byte that starts no well-formed sequence is read as U+FFFD; the
    identifiers, which come from [bytes.decode('utf-8')] or [json.load],
    hold none. *)
Definition utf8_cont (c : ascii) : bool :=
  let n := nat_of_ascii c in ((128 <=? n) && (n <=? 191))%nat.

Definition utf8_bits (c : ascii) : Z := (Z.of_nat (nat_of_ascii c) - 128)%Z.

Fixpoint utf8_codepoints (s : string) : list Z :=
  match s with
  | EmptyString => []
  | String c0 s1 =>
      let b0 := Z.of_nat (nat_of_ascii c0) in
      if (b0 <? 128)%Z then b0 :: utf8_codepoints s1
      else if ((192 <=? b0) && (b0 <? 224))%Z then
        match s1 with
        | String c1 s2 =>
            let cp := ((b0 - 192) * 64 + utf8_bits c1)%Z in
            if utf8_cont c1 && (128 <=? cp)%Z then cp :: utf8_codepoints s2
            else 65533%Z :: utf8_codepoints s1
        | EmptyString => [65533%Z]
        end
      else if ((224 <=? b0) && (b0 <? 240))%Z then
        match s1 with
        | String c1 (String c2 s3) =>
            let cp := (((b0 - 224) * 64 + utf8_bits c1) * 64 + utf8_bits c2)%Z in
            if utf8_cont c1 && utf8_cont c2 && (2048 <=? cp)%Z
               && negb ((55296 <=? cp) && (cp <=? 57343))%Z
            then cp :: utf8_codepoints s3
            else 65533%Z :: utf8_codepoints s1
        | _ => 65533%Z :: utf8_codepoints s1
        end
      else if ((240 <=? b0) && (b0 <? 248))%Z then
        match s1 with
        | String c1 (String c2 (String c3 s4)) =>
            let cp := ((((b0 - 240) * 64 + utf8_bits c1) * 64 + utf8_bits c2) * 64
                       + utf8_bits c3)%Z in
            if utf8_cont c1 && utf8_cont c2 && utf8_cont c3
               && (65536 <=? cp)%Z && (cp <=? 1114111)%Z
            then cp :: utf8_codepoints s4
            else 65533%Z :: utf8_codepoints s1
        | _ => 65533%Z :: utf8_codepoints s1
        end
      else 65533%Z :: utf8_codepoints s1
  end.

(** The UTF-8 bytes of code points below 128, the only ones
    [[A-Za-z-]] takes: one byte each. *)
Fixpoint ascii_string (l : list Z) : string :=
  match l with
  | [] => EmptyString
  | c :: r => String (ascii_of_nat (Z.to_nat c)) (ascii_string r)
  end.

(** [[A-Za-z-]] on one code point: a class without [re.IGNORECASE] takes
    the ASCII letters and the dash only. *)
Definition is_pat_char (c : Z) : bool :=
  ((65 <=? c) && (c <=? 90))%Z || ((97 <=? c) && (c <=? 122))%Z || (c =? 45)%Z.

(** The code points of category Nd (Unicode 14.0, the database of Python
    3.11) come in blocks of ten consecutive digits 0 to 9; these are the
    zeros of the blocks.  [\d] of a [str] pattern takes exactly the Nd code
    points, and [int] reads the k-th one of a block as the digit k. *)
Definition nd_zeros : list Z :=
  [48; 1632; 1776; 1984; 2406; 2534; 2662; 2790; 2918; 3046; 3174; 3302; 3430;
   3558; 3664; 3792; 3872; 4160; 4240; 6112; 6160; 6470; 6608; 6784; 6800;
   6992; 7088; 7232; 7248; 42528; 43216; 43264; 43472; 43504; 43600; 44016;
   65296; 66720; 68912; 69734; 69872; 69942; 70096; 70384; 70736; 70864;
   71248; 71360; 71472; 71904; 72016; 72784; 73040; 73120; 92768; 92864;
   93008; 120782; 120792; 120802; 120812; 120822; 123200; 123632; 125264;
   130032]%Z.

Definition digit_zero (c : Z) : option Z :=
  find (fun z => (z <=? c) && (c <=? z + 9))%Z nd_zeros.

(** [\d] on one code point. *)
Definition is_digit (c : Z) : bool :=
  match digit_zero c with Some _ => true | None => false end.

(** The value [int] gives a decimal digit. *)
Definition digit_value (c : Z) : Z :=
  match digit_zero c with Some z => (c - z)%Z | None => 0%Z end.

(** The length of the longest prefix of [s] whose code points satisfy [p]. *)
Fixpoint run_len (p : Z -> bool) (s : list Z) : nat :=
  match s with
  | [] => O
  | c :: s' => if p c then S (run_len p s') else O
  end.

(** [\d+] after the first [k] code points: the greedy repetition takes every
    digit, and nothing follows it in the pattern. *)
Definition try_len (k : nat) (s : list Z) : option (list Z * list Z) :=
  let rest := skipn k s in
  let nd := run_len is_digit rest in
  match nd with
  | O => None
  | S _ => Some (firstn k s, firstn nd rest)
  end.

(** The greedy [[A-Za-z-]+] gives back one code point at a time, from the
    longest run down to one code point. *)
Fixpoint backtrack (k : nat) (s : list Z) : option (list Z * list Z) :=
  match k with
  | O => None
  | S k' => match try_len k s with Some r => Some r | None => backtrack k' s end
  end.

(** [([A-Za-z-]+)(\d+)] matched at the start of [s]: the two groups. *)
Definition match_at (s : list Z) : option (list Z * list Z) :=
  backtrack (run_len is_pat_char s) s.

(** The leftmost position of [s] where the pattern matches. *)
Fixpoint search_codepoints (s : list Z) : option (list Z * list Z) :=
  match match_at s with
  | Some r => Some r
  | None => match s with [] => None | _ :: s' => search_codepoints s' end
  end.

(** [re.search(r'([A-Za-z-]+)(\d+)', qid)]: the groups of the match. *)
Definition re_search (qid : string) : option (list Z * list Z) :=
  search_codepoints (utf8_codepoints qid).

(** [sys.get_int_max_str_digits()] by default: [int] of a decimal string of
    more digits raises a ValueError (Python 3.11). *)
Definition int_max_str_digits : nat := 4300.

(** The value of a string of decimal digits. *)
Definition digits_value (d : list Z) : Z :=
  fold_left (fun acc c => acc * 10 + digit_value c)%Z d 0%Z.

(** [int(num)] for the digits of the group [(\d+)]. *)
Definition py_int (d : list Z) : res Z :=
  if (int_max_str_digits <? length d)%nat then Exc else Ok (digits_value d).

(** [match.groups()] followed by [int(num)]: the prefix, and the number or
    the ValueError. *)
Definition id_search (qid : string) : option (string * res Z) :=
  match re_search qid with
  | Some (pref, num) => Some (ascii_string pref, py_int num)
  | None => None
  end.

(** What [run_gap_analysis] logs: the line before its [try], then one line
    per prefix, or the line of the [except] branch. *)
Inductive gap_log :=
| GapStart                                       (* logging.info(Running Gap Analysis...) *)
| GapsDetected (pref : string) (shown : list Z)  (* logging.warning(... {missing[:10]}) *)
| NoGaps (pref : string)                         (* logging.info(No gaps detected ...) *)
| GapSkipped.                                    (* the except branch *)

Definition log_prefix (l : gap_log) : option string :=
  match l with GapsDetected p _ => Some p | NoGaps p => Some p | _ => None end.

(** [range(lo, hi + 1)] *)
Definition zrange (lo hi : Z) : list Z :=
  map (fun k => lo + Z.of_nat k)%Z (seq 0 (Z.to_nat (hi - lo + 1))).

(** [min(nums)] and [max(nums)]; an empty list raises a ValueError. *)
Definition min_list (l : list Z) : res Z :=
  match l with [] => Exc | x :: r => Ok (fold_left Z.min r x) end.
Definition max_list (l : list Z) : res Z :=
  match l with [] => Exc | x :: r => Ok (fold_left Z.max r x) end.

(** [if pref not in prefixes: prefixes[pref] = []] then
    [prefixes[pref].append(int(num))]. *)
Definition add_num (pref : string) (n : Z) (prefixes : list (string * list Z))
    : list (string * list Z) :=
  let p1 := if dict_mem pref prefixes then prefixes else dict_set pref [] prefixes in
  dict_set pref ((match dict_get pref p1 with Some l => l | None => [] end) ++ [n])%list p1.

(** One prefix: [missing = sorted(list(set(range(min, max + 1)) - set(nums)))];
    the ascending range with the present numbers filtered out is that
    sorted list. *)
Definition gap_line (pref : string) (nums : list Z) : res gap_log :=
  match min_list nums, max_list nums with
  | Ok lo, Ok hi =>
      let missing := filter (fun k => negb (existsb (Z.eqb k) nums)) (zrange lo hi) in
      Ok (match missing with
          | [] => NoGaps pref
          | _ :: _ => GapsDetected pref (firstn 10 missing)
          end)
  | _, _ => Exc
  end.

(** [for pref, nums in prefixes.items(): ...]; an exception ends the loop
    in the [except] branch. *)
Fixpoint gap_lines (groups : list (string * list Z)) : list gap_log :=
  match groups with
  | [] => []
  | (pref, nums) :: gs =>
      match gap_line pref nums with
      | Ok l => l :: gap_lines gs
      | Exc => [GapSkipped]
      end
  end.

Section Gap.
  (** The parse of one identifier: [re.search], then [int(num)], which may raise. *)
  Variable search : string -> option (string * res Z).

  (** [for qid in ids: match = re.search(...); if match: ...]; a ValueError
      of [int] leaves the loop. *)
Definition group_ids (ids : list string) : res (list (string * list Z)) :=
    fold_left (fun acc qid =>
                 match acc with
                 | Exc => Exc
                 | Ok prefixes =>
                     match search qid with
                     | Some (pref, Ok n) => Ok (add_num pref n prefixes)
                     | Some (_, Exc) => Exc
                     | None => Ok prefixes
                     end
                 end) ids (Ok []).

  (** [run_gap_analysis(mapping)]: the lines it logs. *)
Definition run_gap_analysis (mapping : store) : list gap_log :=
    GapStart ::
    match group_ids (sort_by (fun s => s) (map fst mapping)) with
    | Ok prefixes => gap_lines prefixes
    | Exc => [GapSkipped]
    end.
End Gap.

(** The parse of an identifier whose [int(num)] returns, and the test that
    its [int(num)] raises. *)
Definition search_ok (search : string -> option (string * res Z)) (qid : string)
    : option (string * Z) :=
  match search qid with Some (pref, Ok n) => Some (pref, n) | _ => None end.

Definition int_raises (search : string -> option (string * res Z)) (qid : string) : bool :=
  match search qid with Some (_, Exc) => true | _ => false end.

(** The Drive searches for the archive named [z] among the events [t]. *)
Definition drive_queries (z : string) (t : list event) : nat :=
  length (filter (fun ev => match ev with EvDriveQuery z' => String.eqb z' z | _ => false end) t).

(** What the backfill does to the id field [k] of an entry, given the field
    [path] it uploads: it keeps a truthy id and an entry without the file, and
    otherwise sets the key, to [None] when there is no thumbnails folder. *)
Definition backfilled (folder : option string) (path k : string) (e0 e : entry) : Prop :=
  if truthy (dict_get path e0) && negb (truthy (dict_get k e0)) then
    exists v, dict_get k e = Some v /\ (truthy_str folder = false -> v = PNone)
  else dict_get k e = dict_get k e0.

Definition backfill_rel (folder : option string) (e0 e : entry) : Prop :=
  (forall k, k <> "drive_thumb_id" -> k <> "drive_qr_id" -> dict_get k e = dict_get k e0) /\
  backfilled folder "thumb_path" "drive_thumb_id" e0 e /\
  backfilled folder "qr_path" "drive_qr_id" e0 e.


(** ** JSON values of sync_parchment_data_FIXED.py

    The Photos API responses and the batch report are [json.load]ed
    values: [None], booleans, integers, floats, strings, lists and dicts
    (a dict as the association list of its items, in order). *)
#[warnings="-register-all"]
Inductive json :=
| JNull
| JBool (b : bool)
| JInt (z : Z)
| JFloat (f : PrimFloat.float)
| JStr (s : string)
| JList (l : list json)
| JObj (o : list (string * json)).

(** [bool(v)] *)
Definition jtruthy (v : json) : bool :=
  match v with
  | JNull => false
  | JBool b => b
  | JInt z => negb (Z.eqb z 0)
  | JFloat f => negb (PrimFloat.is_zero f)  (* [-0.0] is falsy too *)
  | JStr s => negb (String.eqb s "")
  | JList l => match l with [] => false | _ => true end
  | JObj o => match o with [] => false | _ => true end
  end.

Definition is_obj (v : json) : bool := match v with JObj _ => true | _ => false end.

(** [v.get(k, dflt)]: an AttributeError unless [v] is a dict. *)
Definition jget (k : string) (dflt : json) (v : json) : res json :=
  match v with
  | JObj o => Ok (match dict_get k o with Some x => x | None => dflt end)
  | _ => Exc
  end.

Definition rbind {A B} (r : res A) (k : A -> res B) : res B :=
  match r with Ok a => k a | Exc => Exc end.

(** [for x in v]: a list gives its elements, a dict its keys, a string its
    characters; iterating anything else raises a TypeError. *)
Definition jiter (v : json) : res (list json) :=
  match v with
  | JList l => Ok l
  | JObj o => Ok (map (fun kv => JStr (fst kv)) o)
  | JStr s => Ok (map (fun c => JStr (String c EmptyString)) (list_ascii_of_string s))
  | _ => Exc
  end.

(** *** [update_batch_report(item, batch_data)] *)

Section Batch.
  (** [parser.parse(s).strftime("%Y-%m-%d %H:%M")]: [Exc] when [parse]
      raises (for one, on a value that is not a string). *)
  Variable minute_key : json -> res string.

  (** The dict appended to the batch, built in the order of its literal. *)
Definition batch_record (item ct : json) : res json :=
    rbind (jget "filename" JNull item) (fun fn =>
    rbind (jget "id" JNull item) (fun id =>
    rbind (jget "mediaMetadata" (JObj []) item) (fun md1 =>
    rbind (jget "photo" (JObj []) md1) (fun ph1 =>
    rbind (jget "cameraModel" (JStr "Unknown") ph1) (fun cam =>
    rbind (jget "mediaMetadata" (JObj []) item) (fun md2 =>
    rbind (jget "photo" (JObj []) md2) (fun ph2 =>
    rbind (jget "apertureFNumber" (JStr "Unknown") ph2) (fun ap =>
    Ok (JObj [("filename", fn); ("id", id); ("creationTime", ct);
              ("camera", cam); ("aperture", ap)]))))))))).

  (** The body of the [try]: the key of the minute is created with [[]]
      before the record is built and appended (a value that is not a list
      has no [append]); an exception leaves the dict as it is at that point. *)
Definition batch_try (item ct : json) (batch : list (string * json)) : list (string * json) :=
    match minute_key ct with
    | Exc => batch
    | Ok key =>
        let batch1 := if dict_mem key batch then batch else dict_set key (JList []) batch in
        match dict_get key batch1 with
        | Some (JList l) =>
            match batch_record item ct with
            | Ok r => dict_set key (JList (l ++ [r])%list) batch1
            | Exc => batch1
            end
        | _ => batch1
        end
    end.

  (** [update_batch_report(item, batch_data)]: the updated [batch_data], or
      [Exc] for the exception raised before the [try]. *)
Definition update_batch_report (item : json) (batch : list (string * json))
      : res (list (string * json)) :=
    rbind (jget "mediaMetadata" (JObj []) item) (fun md =>
    rbind (jget "creationTime" JNull md) (fun ct =>
    if negb (jtruthy ct) then Ok batch else Ok (batch_try item ct batch))).
End Batch.

(** *** [find_target_albums(service)] *)

Definition TARGET_TITLES : list string := ["CODICUM MPO"; "CODICUM FA"].

(** [title in TARGET_TITLES] *)
Definition target_title (t : json) : option string :=
  match t with
  | JStr s => if existsb (String.eqb s) TARGET_TITLES then Some s else None
  | _ => None
  end.

(** [for alb in albums: title = alb.get('title'); ...; if title in
    TARGET_TITLES: found[title] = alb.get('id')]: [Exc] with the dict as it
    was when [alb.get] raised on an album that is not a dict. *)
Fixpoint scan_albums (albums : list json) (found : list (string * json))
    : res unit * list (string * json) :=
  match albums with
  | [] => (Ok tt, found)
  | alb :: rest =>
      match alb with
      | JObj o =>
          let title := match dict_get "title" o with Some t => t | None => JNull end in
          let found' := match target_title title with
                        | Some s => dict_set s (match dict_get "id" o with Some v => v | None => JNull end) found
                        | None => found
                        end in
          scan_albums rest found'
      | _ => (Exc, found)
      end
  end.

(** One of the two [try] blocks: [results] is the response of the listing
    ([Exc] when [execute()] raises) and [key] the field of the album list. *)
Definition scan_listing (results : res json) (key : string) (found : list (string * json))
    : list (string * json) :=
  match results with
  | Exc => found
  | Ok resp =>
      match rbind (jget key (JList []) resp) jiter with
      | Exc => found
      | Ok albums => snd (scan_albums albums found)
      end
  end.

(** [find_target_albums(service)], from the responses of
    [albums().list(pageSize=50)] and [sharedAlbums().list(pageSize=50)]. *)
Definition find_target_albums (owned shared : res json) : list (string * json) :=
  scan_listing shared "sharedAlbums" (scan_listing owned "albums" []).


(** ** A concrete instance of the libraries

    A small, fully computable stand-in for OpenCV, pyzbar, zipfile and the
    Drive client, used to run the script on concrete inputs: an image is the
    byte ["I"] followed by the payload of the one QR code it shows (no code
    when the payload is empty); a ZIP archive is the byte ["Z"] followed by
    its members, each stored as a name length, the name, a data length and
    the data. *)

Module Demo.
Definition img := bytes.
Definition bs (s : string) : bytes := list_byte_of_string s.

Definition imdecode (b : bytes) : res (option img) :=
    match b with
    | [] => Exc (* cv2.imdecode raises on an empty buffer *)
    | x :: rest => if Byte.eqb x x49 then Ok (Some rest) else Ok None
    end.
Definition zbar_decode (im : img) : res (list symbol) :=
    match im with
    | [] => Ok []
    | _ => Ok [mk_symbol im (mk_rect 10 10 50 50)]
    end.
Definition utf8_decode (b : bytes) : option string := Some (string_of_list_byte b).
Definition img_shape (_ : img) : Z * Z := (1000%Z, 800%Z).
Definition img_slice (im : img) (_ _ _ _ : Z) : img := im.
Definition to_gray (im : img) : res img := Ok im.
Definition resize (im : img) (_ _ : Z) : res img := Ok im.
Definition thumb_height (h w : Z) : Z := (h * 300 / w)%Z.
Definition imwrite (_ : string) (_ : img) : res bool := Ok true.
Definition extract_exif (_ : bytes) : string * string := ("Canon EOS", "Unknown").

Definition byte_of (n : nat) : Byte.byte :=
    match Byte.of_nat n with Some b => b | None => x00 end.
Definition ser_entry (z : zentry) : bytes :=
    byte_of (length (bs (z_name z))) :: bs (z_name z) ++ byte_of (length (z_data z)) :: z_data z.
Definition build_zip (l : list zentry) : bytes := x5a :: concat (map ser_entry l).
Fixpoint parse_entries (fuel : nat) (b : bytes) : option (list zentry) :=
    match fuel with
    | O => None
    | S f =>
        match b with
        | [] => Some []
        | n :: r =>
            let k := Byte.to_nat n in
            match skipn k r with
            | [] => None
            | d :: r' =>
                let m := Byte.to_nat d in
                match parse_entries f (skipn m r') with
                | Some es => Some (mk_zentry (string_of_list_byte (firstn k r)) (firstn m r') :: es)
                | None => None
                end
            end
        end
    end.
Definition parse_zip (b : bytes) : option (list zentry) :=
    match b with
    | x5a :: r => parse_entries (S (length r)) r
    | _ => None
    end.

Definition drive_update (_ : string) (_ : bytes) : res unit := Ok tt.
Definition iso_of (n : nat) : string := "t" ++ string_of_list_byte [byte_of (48 + n)].
Definition images_dir : string := "img".
Definition thumbs_dir : string := "th".
Definition drive_get_owners (_ : string) : res (list (option string)) := Ok [Some "Ann"].
Definition drive_find_by_name (_ : string) : res (list (option (list (option string)))) :=
    Ok [Some [Some "Bob"]].
Definition drive_create_thumb (_ _ name : string) : res string := Ok ("id_" ++ name).
Definition minute_of (n : nat) : string := "m" ++ string_of_list_byte [byte_of (48 + n)].
Definition find_thumbs_folder : res (list string) := Ok ["TF"].
Definition create_thumbs_folder : res string := Ok "TF".

Definition run_main (pages : string -> list (res (list asset))) (folders : list string)
      (gsheet : string) : M unit :=
    main_run img imdecode zbar_decode utf8_decode img_shape img_slice resize thumb_height
      imwrite extract_exif parse_zip build_zip drive_update iso_of images_dir thumbs_dir
      pages drive_get_owners drive_find_by_name drive_create_thumb minute_of
      find_thumbs_folder create_thumbs_folder folders None gsheet.


Definition run_zip (fid fname creator : string) : M nat :=
    process_zip img imdecode zbar_decode utf8_decode img_shape img_slice resize thumb_height
      imwrite extract_exif parse_zip build_zip drive_update iso_of images_dir thumbs_dir
      fid fname creator.


Definition run_heal_data (q : string) : M unit :=
    heal_data img imdecode zbar_decode utf8_decode img_shape img_slice resize thumb_height
      imwrite extract_exif thumbs_dir q.

Definition run_heal_pass : M unit :=
    heal_pass img imdecode zbar_decode utf8_decode img_shape img_slice resize thumb_height
      imwrite extract_exif thumbs_dir drive_get_owners drive_find_by_name.

  (** The Photos side: every album holds one page with one media item, and
      every download serves the image of the code ["Q1"]. *)
Definition http_get (_ : string) : res (option bytes) := Ok (Some (bs "IQ1")).
Definition album_pages (_ : string) : list (res (list pitem)) :=
    [Ok [mk_pitem "a.jpg" "u1" "g1" (PStr "2024")]].

Definition run_album (album_id archive_name : string) : M unit :=
    sync_album img imdecode zbar_decode utf8_decode img_shape img_slice to_gray http_get
      album_pages images_dir album_id archive_name.



  (** A world holding these Drive files and this mapping file, before any run. *)
Definition start (remote : list (string * bytes)) (saved : option store) : world :=
    mk_world remote [] [] saved [] 0 [].

End Demo.

(** ** Concrete runs *)

Module Scenarios.
  Import Demo.

Definition image (id name : string) : asset := mk_asset id name "image/jpeg" (PStr "2024") [Some "Ann"].


  (** A folder holding two images, of the codes ["Q1"] and ["Q2"]. *)
Definition two_folder (_ : string) : list (res (list asset)) := [Ok [image "i1" "1.jpg"; image "i2" "2.jpg"]].
Definition two_drive : list (string * bytes) := [("i1", bs "IQ1"); ("i2", bs "IQ2")].
Definition two_run : res unit * world := run_main two_folder ["F"] "" (start two_drive None).


  (** An archive with two members named [a.txt] and an image already
      recorded under its file name. *)
Definition dup_names_zip : list zentry :=
    [mk_zentry "a.txt" (bs "x"); mk_zentry "a.txt" (bs "y"); mk_zentry "p.jpg" (bs "IP")].
Definition dup_names_world : world :=
    mk_world [("zid", build_zip dup_names_zip)] [] [("P", [("filename", PStr "p.jpg")])]
      None [] 0 [].
Definition dup_names_run : res nat * world := run_zip "zid" "batch.zip" "Ann" dup_names_world.

  (** A mapping with an entry recorded from a ZIP archive, with only its
      local image, and a fully populated entry. *)
Definition heal_world : world :=
    mk_world [] [("img/Q1.jpg", bs "IQ1")]
      [("Q1", [("local_path", PStr "img/Q1.jpg"); ("source_zip", PStr "b.zip")]);
       ("Q2", [("local_path", PStr "img/Q2.jpg"); ("thumb_path", PStr "th/Q2_thumb.jpg");
               ("qr_path", PStr "th/Q2_qr.jpg"); ("camera", PStr "Nikon");
               ("location", PStr "1, 2"); ("creator", PStr "Eve")])]
      None [] 0 [].
Definition heal_first : world := snd (run_heal_pass heal_world).
Definition heal_second : world := snd (run_heal_pass heal_first).





End Scenarios.

Module ExtraScenarios.
  Import Demo.

  (** A folder whose listing fails on its second page. *)
Definition fail_pages (_ : string) : list (res (list asset)) := [Ok [Scenarios.image "i1" "1.jpg"]; Exc].
Definition folder_run : res nat * world :=
    process_folder img imdecode zbar_decode utf8_decode img_shape img_slice resize thumb_height
      imwrite extract_exif parse_zip build_zip drive_update iso_of images_dir thumbs_dir
      fail_pages "F" (start Scenarios.two_drive None).
Definition main_world : world :=
    mk_world Scenarios.two_drive [] [] (Some [("Q0", [("filename", PStr "0.jpg")])]) [[PStr "x"]] 0 [].
Definition main_fail : res unit * world := run_main fail_pages ["F"] "sheet" main_world.

  (** An entry whose [local_path] is [null]. *)
Definition null_world : world := mk_world [] [] [("Q1", [("local_path", PNone)])] None [] 0 [].
Definition null_run : res unit * world := run_heal_pass null_world.

  (** Two entries recorded from the same archive, with no creator. *)
Definition zip_world : world :=
    mk_world [] [] [("Q1", [("source_zip", PStr "b.zip")]); ("Q2", [("source_zip", PStr "b.zip")])]
      None [] 0 [].
Definition zip_run : res unit * world := run_heal_pass zip_world.

  (** Entries with thumbnails and without Drive ids. *)
Definition backfill_world : world :=
    mk_world [] []
      [("Q1", [("thumb_path", PStr "th/Q1_thumb.jpg"); ("qr_path", PStr "th/Q1_qr.jpg")]);
       ("Q2", [("thumb_path", PStr "th/Q2_thumb.jpg"); ("drive_thumb_id", PStr "T2")])]
      None [] 0 [].
Definition backfill_run : res unit * world :=
    backfill_pass drive_create_thumb None backfill_world.

  (** A sheet with a blank row under its header. *)
Definition blank_row_world : world :=
    mk_world [] [] [("Q1", [])] None [map PStr headers; []] 0 [].
Definition blank_row_run : res unit * world := log_to_gsheet minute_of "sheet" blank_row_world.

  (** The minute of an ISO timestamp: its first sixteen characters. *)
Definition minute_key (v : json) : res string :=
    match v with JStr s => Ok (substring 0 16 s) | _ => Exc end.
Definition photo_item : json :=
    JObj [("filename", JStr "a.jpg"); ("id", JStr "g1");
          ("mediaMetadata", JObj [("creationTime", JStr "2024-01-01T10:00:00Z")])].
Definition photo_report : list (string * json) :=
    [("2024-01-01T09:59", JList [JObj [("filename", JStr "z.jpg")]])].

  (** An owned and a shared album of the same title. *)
Definition owned_resp : json :=
    JObj [("albums", JList [JObj [("title", JStr "CODICUM FA"); ("id", JStr "o1")]])].
Definition shared_resp : json :=
    JObj [("sharedAlbums", JList [JObj [("title", JStr "CODICUM FA"); ("id", JStr "s1")]; JInt 7])].
  (** Identifiers of the prefix ["A-"] with the number 3 missing, and with
      no number missing. *)
Definition gap_store : store := [("A-1", []); ("A-2", []); ("A-4", [])].
Definition nogap_store : store := [("A-1", []); ("A-2", []); ("B-7", [])].
End ExtraScenarios.

(** * Reasoning about runs *)

Open Scope list_scope.

(** ** Relations between the world before and after a computation *)

Class WRel (R : world -> world -> Prop) := {
  wrel_refl : forall w, R w w;
  wrel_trans : forall w1 w2 w3, R w1 w2 -> R w2 w3 -> R w1 w3 }.

(** [c] relates every world to the world it ends in, whatever the outcome. *)
Definition stays (R : world -> world -> Prop) {A} (c : M A) : Prop :=
  forall w r w', c w = (r, w') -> R w w'.

Section StaysLemmas.
  Context (R : world -> world -> Prop) `{WRel R}.

Lemma stays_ret {A} (a : A) : stays R (ret a).
  Proof. intros w r w' E. inversion E; subst. apply wrel_refl. Qed.

Lemma stays_raise {A} : stays R (@raise A).
  Proof. intros w r w' E. inversion E; subst. apply wrel_refl. Qed.

Lemma stays_gets {A} (f : world -> A) : stays R (gets f).
  Proof. intros w r w' E. inversion E; subst. apply wrel_refl. Qed.

Lemma stays_modify (f : world -> world) : (forall w, R w (f w)) -> stays R (modify f).
  Proof. intros Hf w r w' E. inversion E; subst. apply Hf. Qed.

Lemma stays_bind {A B} (c : M A) (k : A -> M B) :
    stays R c -> (forall a, stays R (k a)) -> stays R (bind c k).
  Proof.
    intros Hc Hk w r w' E. unfold bind in E.
    destruct (c w) as [[a|] w1] eqn:E1.
    - eapply wrel_trans; [eapply Hc; exact E1 | eapply Hk; exact E].
    - inversion E; subst. eapply Hc; exact E1.
  Qed.

Lemma stays_try {A} (c h : M A) : stays R c -> stays R h -> stays R (try_ c h).
  Proof.
    intros Hc Hh w r w' E. unfold try_ in E.
    destruct (c w) as [[a|] w1] eqn:E1.
    - inversion E; subst. eapply Hc; exact E1.
    - eapply wrel_trans; [eapply Hc; exact E1 | eapply Hh; exact E].
  Qed.

Lemma stays_of_res {A} (x : res A) : stays R (of_res x).
  Proof. destruct x; [apply stays_ret | apply stays_raise]. Qed.

Lemma stays_of_opt {A} (x : option A) : stays R (of_opt x).
  Proof. destruct x; [apply stays_ret | apply stays_raise]. Qed.
End StaysLemmas.

Create HintDb stays_db.
#[export] Hint Resolve stays_ret stays_raise stays_gets stays_of_res stays_of_opt : stays_db.

(** Walks a monadic program: binds, handlers, and the case splits of the
    source's [if]s and [match]es. *)
Ltac stays_step :=
  match goal with
  | |- WRel _ => typeclasses eauto
  | |- stays _ (bind _ _) => eapply stays_bind; [ | | intro ]
  | |- stays _ (try_ _ _) => eapply stays_try
  | |- stays _ (ret _) => apply stays_ret
  | |- stays _ raise => apply stays_raise
  | |- stays _ (gets _) => apply stays_gets
  | |- stays _ (of_res _) => apply stays_of_res
  | |- stays _ (of_opt _) => apply stays_of_opt
  | |- stays _ (modify _) => apply stays_modify; intro
  | |- stays _ (if ?b then _ else _) => destruct b eqn:?
  | |- stays _ (match ?x with _ => _ end) => destruct x eqn:?
  end.

Ltac stays_walk := repeat (stays_step || (progress eauto with stays_db)).

(** *** Relations used below *)

(** The Drive contents are untouched. *)
Definition same_remote (w w' : world) : Prop := w_remote w' = w_remote w.

#[export] Instance same_remote_wrel : WRel same_remote.
Proof. split; unfold same_remote; congruence. Qed.

(** Only events satisfying [Q] are added to the trace. *)
Definition trace_grows (Q : event -> Prop) (w w' : world) : Prop :=
  exists t, w_trace w' = w_trace w ++ t /\ Forall Q t.

#[export] Instance trace_grows_wrel Q : WRel (trace_grows Q).
Proof.
  split.
  - intros w. exists []. rewrite app_nil_r. auto.
  - intros w1 w2 w3 [t1 [E1 F1]] [t2 [E2 F2]]. exists (t1 ++ t2)%list.
    rewrite E2, E1, app_assoc. split; auto. apply Forall_app; auto.
Qed.

(** Unfolds the monad's plumbing in a hypothesis [c w = (r, w')] and splits
    on every intermediate result. *)
Ltac crunch H :=
  repeat (cbv beta iota delta [bind ret raise gets modify emit of_opt of_res try_ now
                                download upload write_local mem_assign save_mapping] in H;
          match type of H with
          | context [match ?x with _ => _ end] => destruct x eqn:?
          end).

(** The same over every hypothesis, for the equations the case splits add. *)
Ltac crunch_all :=
  repeat (cbv beta iota delta [bind ret raise gets modify emit of_opt of_res try_ now
                                download upload write_local mem_assign save_mapping] in *;
          match goal with
          | H : context [match ?x with _ => _ end] |- _ => destruct x eqn:?
          end).

(** Turns the equations between outcomes left by [crunch_all] into
    substitutions. *)
Ltac inj_all :=
  repeat match goal with
         | H : (_, _) = (_, _) |- _ => injection H; clear H; intros; subst
         | H : Ok _ = Ok _ |- _ => injection H; clear H; intros; subst
         | H : Ok _ = Exc |- _ => discriminate H
         | H : Exc = Ok _ |- _ => discriminate H
         end.

Lemma qr_hit_nonempty o q : qr_hit o = Some q -> q <> "".
Proof.
  destruct o as [s|]; simpl; [|discriminate].
  destruct (String.eqb s "") eqn:E; [discriminate|].
  intros [= <-] ->. discriminate.
Qed.

Lemma tg_event (Q : event -> Prop) e w : Q e -> trace_grows Q w (add_event e w).
Proof. intros HQ. exists [e]. split; [reflexivity | constructor; auto]. Qed.

Lemma tg_same (Q : event -> Prop) w w' : w_trace w' = w_trace w -> trace_grows Q w w'.
Proof. intros E. exists []. rewrite E, app_nil_r. split; auto. Qed.

(** Every event is appended to the trace. *)
Definition trace_ext : world -> world -> Prop := trace_grows (fun _ => True).

Lemma bind_assoc {A B C} (m : M A) (k1 : A -> M B) (k2 : B -> M C) w :
  bind (bind m k1) k2 w = bind m (fun a => bind (k1 a) k2) w.
Proof. unfold bind. destruct (m w) as [[a|] w1]; reflexivity. Qed.

Lemma emit_bind {A} e (k : unit -> M A) w : bind (emit e) k w = k tt (add_event e w).
Proof. reflexivity. Qed.

(** No save of the mapping file: the file is as it was and no [EvSave] is
    emitted. *)
Definition no_save (w w' : world) : Prop :=
  trace_grows (fun e => e <> EvSave) w w' /\ w_saved w' = w_saved w.

#[export] Instance no_save_wrel : WRel no_save.
Proof.
  split.
  - intros w. split; [apply wrel_refl | reflexivity].
  - intros w1 w2 w3 [A1 B1] [A2 B2]. split; [eapply wrel_trans; eauto | congruence].
Qed.

(** Event sequences in which each [EvMatch] is immediately followed by an
    [EvSave]. *)
Inductive saved_blocks : list event -> Prop :=
| sb_nil : saved_blocks []
| sb_other e t : (forall q, e <> EvMatch q) -> saved_blocks t -> saved_blocks (e :: t)
| sb_match q t : saved_blocks t -> saved_blocks (EvMatch q :: EvSave :: t).

Lemma saved_blocks_app t1 t2 : saved_blocks t1 -> saved_blocks t2 -> saved_blocks (t1 ++ t2).
Proof.
  intros H1 H2. induction H1; simpl.
  - exact H2.
  - apply sb_other; auto.
  - apply sb_match; auto.
Qed.

Lemma saved_blocks_nth t : saved_blocks t ->
  forall i q, nth_error t i = Some (EvMatch q) -> nth_error t (S i) = Some EvSave.
Proof.
  induction 1 as [|e t Ne Ht IH|q t Ht IH]; intros i q' E.
  - destruct i; discriminate.
  - destruct i as [|i]; simpl in *.
    + inversion E; subst. exfalso. exact (Ne q' eq_refl).
    + exact (IH _ _ E).
  - destruct i as [|[|i]]; simpl in *.
    + reflexivity.
    + discriminate.
    + exact (IH _ _ E).
Qed.

Definition album_saves (w w' : world) : Prop :=
  exists t, w_trace w' = w_trace w ++ t /\ saved_blocks t.

#[export] Instance album_saves_wrel : WRel album_saves.
Proof.
  split.
  - intros w. exists []. rewrite app_nil_r. split; [reflexivity | constructor].
  - intros w1 w2 w3 [t1 [E1 B1]] [t2 [E2 B2]]. exists (t1 ++ t2).
    rewrite E2, E1, app_assoc. split; [reflexivity | apply saved_blocks_app; auto].
Qed.

Lemma album_saves_assign_save q e : stays album_saves (mem_assign q e ;; save_mapping).
Proof.
  intros w r w' E. inversion E; subst. exists [EvMatch q; EvSave]. simpl.
  rewrite <- app_assoc. split; [reflexivity | apply sb_match; constructor].
Qed.

Lemma album_saves_event e w : (forall q, e <> EvMatch q) -> album_saves w (add_event e w).
Proof.
  intros Ne. exists [e]. split; [reflexivity | apply sb_other; [exact Ne | constructor]].
Qed.

Lemma album_saves_same w w' : w_trace w' = w_trace w -> album_saves w w'.
Proof. intros E. exists []. rewrite E, app_nil_r. split; [reflexivity | constructor]. Qed.

(** *** Keys of the mapping *)

(** Identifiers are unique and non-empty. *)
Definition keys_ok (m : store) : Prop :=
  NoDup (map fst m) /\ Forall (fun k => k <> "") (map fst m).

Definition keys_kept (w w' : world) : Prop := keys_ok (w_mem w) -> keys_ok (w_mem w').

#[export] Instance keys_kept_wrel : WRel keys_kept.
Proof. split; unfold keys_kept; auto. Qed.

Section DictLemmas.
  Context {V : Type}.

Lemma dict_get_set (k k' : string) (v : V) d :
    dict_get k (dict_set k' v d) = if String.eqb k k' then Some v else dict_get k d.
  Proof.
    induction d as [|[k1 v1] d IH]; simpl.
    - destruct (String.eqb k k'); reflexivity.
    - destruct (String.eqb k' k1) eqn:E1; simpl.
      + apply String.eqb_eq in E1; subst.
        destruct (String.eqb k k1); reflexivity.
      + rewrite IH. destruct (String.eqb k k1) eqn:E2, (String.eqb k k') eqn:E3; auto.
        apply String.eqb_eq in E2, E3; subst. rewrite String.eqb_refl in E1. discriminate.
  Qed.

Lemma dict_set_keys_present (k : string) (v : V) d e :
    dict_get k d = Some e -> map fst (dict_set k v d) = map fst d.
  Proof.
    induction d as [|[k1 v1] d IH]; simpl; [discriminate|].
    rewrite (String.eqb_sym k k1). destruct (String.eqb k1 k) eqn:E; simpl; auto.
    intros H. f_equal. auto.
  Qed.

Lemma dict_set_keys_absent (k : string) (v : V) d :
    dict_get k d = None -> map fst (dict_set k v d) = map fst d ++ [k].
  Proof.
    induction d as [|[k1 v1] d IH]; simpl; [reflexivity|].
    rewrite (String.eqb_sym k k1). destruct (String.eqb k1 k) eqn:E; simpl; [discriminate|].
    intros H. f_equal. auto.
  Qed.

Lemma dict_get_none_notin (k : string) (d : list (string * V)) :
    dict_get k d = None -> ~ In k (map fst d).
  Proof.
    induction d as [|[k1 v1] d IH]; simpl; [auto|].
    destruct (String.eqb k k1) eqn:E; [discriminate|].
    intros H [->|Hin]; [rewrite String.eqb_refl in E; discriminate | exact (IH H Hin)].
  Qed.

  (** [d[k] = v] on a key already there leaves the dict as it was when [v] is
      the value it already holds. *)
Lemma dict_set_same (k : string) (v : V) d : dict_get k d = Some v -> dict_set k v d = d.
  Proof.
    induction d as [|[k1 v1] d IH]; simpl; [discriminate|].
    rewrite (String.eqb_sym k k1). destruct (String.eqb k1 k) eqn:E.
    - intros [= ->]. apply String.eqb_eq in E. subst. reflexivity.
    - intros H. f_equal. auto.
  Qed.

Lemma dict_set_set (k : string) (v v' : V) d : dict_set k v (dict_set k v' d) = dict_set k v d.
  Proof.
    induction d as [|[k1 v1] d IH]; simpl.
    - rewrite String.eqb_refl. reflexivity.
    - destruct (String.eqb k k1) eqn:E; simpl; rewrite E; [reflexivity|]. f_equal. auto.
  Qed.
End DictLemmas.



(** The in-memory mapping and the mapping file both have unique, non-empty
    identifiers. *)
Definition saved_ok (w : world) : Prop := forall m, w_saved w = Some m -> keys_ok m.
Definition keys_good (w : world) : Prop := keys_ok (w_mem w) /\ saved_ok w.
Definition keys_good_kept (w w' : world) : Prop := keys_good w -> keys_good w'.

#[export] Instance keys_good_kept_wrel : WRel keys_good_kept.
Proof. split; unfold keys_good_kept; auto. Qed.


Lemma app_length_lt {A} (l : list A) (x : A) : length l < length (l ++ [x]).
Proof. rewrite length_app. simpl. lia. Qed.

Section SyncProofs.
  Context (img : Type)
    (imdecode : bytes -> res (option img))
    (zbar_decode : img -> res (list symbol))
    (utf8_decode : bytes -> option string)
    (img_shape : img -> Z * Z)
    (img_slice : img -> Z -> Z -> Z -> Z -> img)
    (resize : img -> Z -> Z -> res img)
    (thumb_height : Z -> Z -> Z)
    (imwrite : string -> img -> res bool)
    (extract_exif : bytes -> string * string)
    (parse_zip : bytes -> option (list zentry))
    (build_zip : list zentry -> bytes)
    (drive_update : string -> bytes -> res unit)
    (iso_of : nat -> string)
    (images_dir thumbs_dir : string)
    (folder_pages : string -> list (res (list asset)))
    (drive_get_owners : string -> res (list (option string)))
    (drive_find_by_name : string -> res (list (option (list (option string)))))
    (drive_create_thumb : string -> string -> string -> res string)
    (minute_of : nat -> string)
    (find_thumbs_folder : res (list string))
    (create_thumbs_folder : res string).

  Local Abbreviation main :=
    (main_run img imdecode zbar_decode utf8_decode img_shape img_slice resize thumb_height
       imwrite extract_exif parse_zip build_zip drive_update iso_of images_dir thumbs_dir
       folder_pages drive_get_owners drive_find_by_name drive_create_thumb minute_of
       find_thumbs_folder create_thumbs_folder).

  Local Abbreviation gen :=
    (generate_thumbnails img imdecode img_shape img_slice resize thumb_height imwrite thumbs_dir).
  Local Abbreviation zl :=
    (zip_loop img imdecode zbar_decode utf8_decode img_shape img_slice resize thumb_height
       imwrite extract_exif iso_of images_dir thumbs_dir).
  Local Abbreviation pzb :=
    (process_zip_body img imdecode zbar_decode utf8_decode img_shape img_slice resize
       thumb_height imwrite extract_exif parse_zip build_zip drive_update iso_of images_dir thumbs_dir).
  Local Abbreviation pim :=
    (process_image img imdecode zbar_decode utf8_decode img_shape img_slice resize
       thumb_height imwrite extract_exif images_dir thumbs_dir).
  Local Abbreviation pi :=
    (process_item img imdecode zbar_decode utf8_decode img_shape img_slice resize
       thumb_height imwrite extract_exif parse_zip build_zip drive_update iso_of images_dir
       thumbs_dir).
  Local Abbreviation sf :=
    (sync_folders img imdecode zbar_decode utf8_decode img_shape img_slice resize
       thumb_height imwrite extract_exif parse_zip build_zip drive_update iso_of images_dir
       thumbs_dir folder_pages).
  Local Abbreviation hd :=
    (heal_data img imdecode zbar_decode utf8_decode img_shape img_slice resize
       thumb_height imwrite extract_exif thumbs_dir).
  Local Abbreviation hc := (heal_creator drive_get_owners drive_find_by_name).
  Local Abbreviation hl :=
    (heal_loop img imdecode zbar_decode utf8_decode img_shape img_slice resize
       thumb_height imwrite extract_exif thumbs_dir drive_get_owners drive_find_by_name).
  Local Abbreviation hp :=
    (heal_pass img imdecode zbar_decode utf8_decode img_shape img_slice resize
       thumb_height imwrite extract_exif thumbs_dir drive_get_owners drive_find_by_name).
  Local Abbreviation bp := (backfill_pass drive_create_thumb).
  Local Abbreviation setup := (setup_thumbs_folder find_thumbs_folder create_thumbs_folder).
  Local Abbreviation pz :=
    (process_zip img imdecode zbar_decode utf8_decode img_shape img_slice resize
       thumb_height imwrite extract_exif parse_zip build_zip drive_update iso_of images_dir thumbs_dir).

  (** *** Frame: only an upload touches the Drive contents *)

Lemma gen_same_remote q b r : stays same_remote (gen q b r).
  Proof.
    unfold generate_thumbnails, imwrite_m, emit. stays_walk; exact eq_refl.
  Qed.

Lemma zip_loop_same_remote arch fname creator items z n rm :
    stays same_remote (zl arch fname creator items z n rm).
  Proof.
    revert z n rm. induction items as [|it rest IH]; intros z n rm; simpl.
    - stays_walk.
    - unfold detect, exif, write_local, mem_assign, now, emit.
      stays_walk; try exact eq_refl; try apply gen_same_remote; try apply IH.
  Qed.

  (** *** What the loop returns *)

Ltac len_fin H :=
    let H1 := fresh in let H2 := fresh in let Hr := fresh in
    destruct H as [H1 H2]; split; [lia | intros Hr];
    first [right; lia | destruct (H2 Hr); [left; assumption | right; lia]].

Lemma zip_loop_length arch fname creator items :
    forall z n rm w z' n' rm' w',
      zl arch fname creator items z n rm w = (Ok (z', n', rm'), w') ->
      length z' <= length z + length items /\
      (rm' = true -> rm = true \/ length z' < length z + length items).
  Proof.
    induction items as [|it rest IH]; intros z n rm w z' n' rm' w' H.
    - simpl in H. inversion H; subst. simpl. split; [lia | auto].
    - simpl in H.
      destruct (is_dir_name (z_name it)).
      + apply IH in H. rewrite length_app in H. simpl in *. len_fin H.
      + destruct (is_image_name (z_name it)).
        * cbv beta iota delta [bind gets] in H.
          destruct (negb (already_captured (w_mem w) (z_name it))).
          -- unfold detect, exif, write_local, mem_assign, now, emit in H.
             crunch H; try discriminate;
               match goal with
               | H' : zl _ _ _ rest _ _ _ _ = _ |- _ =>
                   apply IH in H'; try rewrite length_app in H'; simpl in *; len_fin H'
               end.
          -- apply IH in H. simpl in *. len_fin H.
        * crunch H; try discriminate.
          apply IH in H. rewrite length_app in H. simpl in *. len_fin H.
  Qed.

Lemma zip_loop_removed_shorter arch fname creator w z' n' w' :
    zl arch fname creator arch [] 0 false w = (Ok (z', n', true), w') ->
    length z' < length arch.
  Proof.
    intros H. apply zip_loop_length in H. simpl in H.
    destruct H as [_ H]. destruct (H eq_refl) as [C|C]; [discriminate | exact C].
  Qed.

  (** *** The rewrite of the remote ZIP *)

  (** C9 (process_zip): [process_zip] always returns normally with a count.
      The Drive contents change only when the loop over the original
      members ran to its end with [duplicates_removed] set, and then only the
      archive's own file id, replaced by the rewritten archive, which has
      fewer members.  When the body raises anywhere (download, unzip, a
      member, the update call) the call returns 0 and the Drive contents are
      those before the call. *)
Theorem process_zip_atomic fid fname creator w r w' :
    pz fid fname creator w = (r, w') ->
    (exists n, r = Ok n) /\
    (w_remote w' = w_remote w \/
     exists data arch z_new n w1,
       dict_get fid (w_remote w) = Some data /\
       parse_zip data = Some arch /\
       zl arch fname creator arch [] 0 false (add_event (EvDownload fid) w)
         = (Ok (z_new, n, true), w1) /\
       length z_new < length arch /\
       w_remote w' = dict_set fid (build_zip z_new) (w_remote w)) /\
    (forall w1, pzb fid fname creator w = (Exc, w1) ->
       r = Ok 0 /\ w' = w1 /\ w_remote w1 = w_remote w).
  Proof.
    intros H. unfold process_zip, try_ in H.
    destruct (pzb fid fname creator w) as [[n|] w1] eqn:E.
    - inversion H; subst. split; [eauto|]. split; [| intros; congruence].
      unfold process_zip_body in E. crunch_all; inj_all; try discriminate.
      + (* the loop removed something and the update went through *)
        right.
        pose proof (zip_loop_same_remote _ _ _ _ _ _ _ _ _ _ Heqp1) as Hr.
        unfold same_remote in Hr. simpl in *.
        do 5 eexists. repeat split; try eassumption.
        * eapply zip_loop_removed_shorter; eassumption.
        * rewrite Hr. reflexivity.
      + left. eapply zip_loop_same_remote in Heqp1. exact Heqp1.
    - inversion H; subst. split; [eauto|].
      assert (Hs : w_remote w' = w_remote w).
      { unfold process_zip_body in E. crunch_all; inj_all; try discriminate;
          try reflexivity;
          eapply zip_loop_same_remote in Heqp1; exact Heqp1. }
      split; [left; exact Hs|].
      intros w2 E2. assert (w2 = w') by congruence. subst. auto.
  Qed.

  (** *** Frame lemmas for every stage of [main]

      Every relation between worlds that each single effect of the script
      respects (any event other than a save of the mapping file, writing a
      file, the clock, a new entry under a non-empty identifier, a field of an
      existing entry) is respected by each stage of [main] before the save. *)

  Section Frame.
    Context (R : world -> world -> Prop) `{WRel R}.
    Hypothesis R_event : forall e w, e <> EvSave -> R w (add_event e w).
    Hypothesis R_remote : forall r w, R w (set_remote r w).
    Hypothesis R_local : forall l w, R w (set_local l w).
    Hypothesis R_clock : forall c w, R w (set_clock c w).
    Hypothesis R_assign : forall q e w, q <> "" -> R w (set_mem (dict_set q e (w_mem w)) w).
    Hypothesis R_item : forall q k v w,
      R w (set_mem (match dict_get q (w_mem w) with
                    | Some e => dict_set q (dict_set k v e) (w_mem w)
                    | None => w_mem w
                    end) w).

Ltac frame_close :=
      first [ apply R_event; discriminate
            | apply R_remote | apply R_local | apply R_clock | apply R_item
            | apply R_assign; eapply qr_hit_nonempty; eassumption ].

Ltac frame_walk := stays_walk; try frame_close.

Lemma gen_R q b r : stays R (gen q b r).
    Proof. unfold generate_thumbnails, imwrite_m, emit. frame_walk. Qed.

Lemma zip_loop_R arch fname creator items z n rm :
      stays R (zl arch fname creator items z n rm).
    Proof.
      revert z n rm. induction items as [|it rest IH]; intros z n rm; simpl.
      - frame_walk.
      - unfold detect, exif, write_local, mem_assign, now, emit.
        frame_walk; try apply gen_R; try apply IH.
    Qed.

Lemma process_zip_R fid fname creator : stays R (pz fid fname creator).
    Proof.
      unfold process_zip, process_zip_body, download, upload, emit.
      frame_walk; apply zip_loop_R.
    Qed.

Lemma process_image_R it c : stays R (pim it c).
    Proof.
      unfold process_image, download, detect, exif, write_local, mem_assign, emit.
      frame_walk; apply gen_R.
    Qed.

Lemma process_item_R it c : stays R (pi it c).
    Proof.
      unfold process_item. frame_walk; [apply process_zip_R | apply process_image_R].
    Qed.

Lemma items_loop_R items c :
      stays R (items_loop img imdecode zbar_decode utf8_decode img_shape img_slice resize
                 thumb_height imwrite extract_exif parse_zip build_zip drive_update iso_of
                 images_dir thumbs_dir items c).
    Proof.
      revert c. induction items as [|it rest IH]; intros c; simpl; frame_walk.
      apply process_item_R.
    Qed.

Lemma pages_loop_R f ps c :
      stays R (pages_loop img imdecode zbar_decode utf8_decode img_shape img_slice resize
                 thumb_height imwrite extract_exif parse_zip build_zip drive_update iso_of
                 images_dir thumbs_dir f ps c).
    Proof.
      revert c. induction ps as [|p ps IH]; intros c; simpl; unfold emit; frame_walk;
        apply items_loop_R.
    Qed.

Lemma sync_folders_R fs total : stays R (sf fs total).
    Proof.
      revert total. induction fs as [|f fs IH]; intros total; simpl; frame_walk.
      apply pages_loop_R.
    Qed.

Lemma heal_data_R q : stays R (hd q).
    Proof.
      unfold heal_data, mem_entry, path_exists, read_local, item_set, detect, exif, emit.
      frame_walk; apply gen_R.
    Qed.

Lemma heal_creator_R q c : stays R (hc q c).
    Proof. unfold heal_creator, mem_entry, item_set, emit. frame_walk. Qed.

Lemma heal_loop_R qs c : stays R (hl qs c).
    Proof.
      revert c. induction qs as [|q qs IH]; intros c; simpl; frame_walk;
        [apply heal_data_R | apply heal_creator_R].
    Qed.

Lemma heal_pass_R : stays R hp.
    Proof. unfold heal_pass. frame_walk. apply heal_loop_R. Qed.

Lemma backfill_pass_R tf : stays R (bp tf).
    Proof.
      unfold backfill_pass. stays_walk. generalize (map fst a). intros qs.
      induction qs as [|q qs IH]; simpl;
        unfold backfill_entry, upload_thumbnail, mem_entry, item_set, emit; frame_walk.
    Qed.

Lemma setup_R tf : stays R (setup tf).
    Proof. unfold setup_thumbs_folder. frame_walk. Qed.
  End Frame.

  (** *** The trace only grows *)

Ltac ext_close :=
    first [ apply tg_event; exact I | apply tg_same; reflexivity ].

Lemma trace_ext_stays_sync fs total : stays trace_ext (sf fs total).
  Proof. apply sync_folders_R; typeclasses eauto || intros; ext_close. Qed.



Lemma pim_first_download it c w x w' :
    recorded_drive_id (w_mem w) (a_id it) = false ->
    pim it c w = (x, w') ->
    exists t, w_trace w' = w_trace w ++ EvDownload (a_id it) :: t.
  Proof.
    intros Hr. unfold process_image. unfold bind at 1. unfold gets at 1. rewrite Hr.
    unfold try_.
    match goal with |- context [match ?c w with _ => _ end] =>
      assert (Hs : forall x1 w1, c w = (x1, w1) -> trace_ext (add_event (EvDownload (a_id it)) w) w1)
    end.
    { intros x1 w1. unfold download. rewrite bind_assoc, emit_bind.
      match goal with |- ?c _ = _ -> _ => assert (Hs : stays trace_ext c) end.
      { unfold detect, exif, write_local, mem_assign, emit. stays_walk; try ext_close.
        apply gen_R; typeclasses eauto || intros; ext_close. }
      apply Hs. }
    match goal with |- context [match ?c w with _ => _ end] => destruct (c w) as [[y|] w1] eqn:E end;
      intros H; specialize (Hs _ _ eq_refl); inversion H; subst;
      destruct Hs as [t [Et _]]; exists t; rewrite Et; simpl; rewrite <- app_assoc; reflexivity.
  Qed.

  (** *** When the mapping file is written *)

Ltac ns_close :=
    first [ split; [apply tg_event; assumption | reflexivity]
          | split; [apply tg_same; reflexivity | reflexivity] ].

Lemma log_to_gsheet_trace gs w x w' :
    log_to_gsheet minute_of gs w = (x, w') -> w_trace w' = w_trace w.
  Proof.
    intros H. unfold log_to_gsheet in H.
    destruct (String.eqb gs "" || contains "PASTE" gs); [inversion H; reflexivity|].
    crunch_all; inj_all; reflexivity.
  Qed.

  (** The Drive script ([main], [process_folder]) writes the mapping file once
      per run, after every folder was scanned and the healing and upload
      passes ended: the events of a run are [t1] followed by [t2], where [t1]
      (every download and every match of the run) holds no save and leaves
      the file as it was, and [t2] is the one save, present whenever the run
      ends normally and absent when it raised before the save. *)
Theorem main_run_saves_once tfs tf gs w r w' :
    main tfs tf gs w = (r, w') ->
    exists t1 t2,
      w_trace w' = w_trace w ++ t1 ++ t2 /\
      ~ In EvSave t1 /\
      (t2 = [] \/ t2 = [EvSave]) /\
      (r = Ok tt -> t2 = [EvSave]) /\
      (t2 = [] -> w_saved w' = w_saved w).
  Proof.
    intros H.
    assert (Early : forall wk, no_save w wk -> r = Exc -> w' = wk ->
      exists t1 t2,
        w_trace w' = w_trace w ++ t1 ++ t2 /\ ~ In EvSave t1 /\
        (t2 = [] \/ t2 = [EvSave]) /\ (r = Ok tt -> t2 = [EvSave]) /\
        (t2 = [] -> w_saved w' = w_saved w)).
    { intros wk [[t [Et Ft]] Es] -> ->. exists t, []. rewrite app_nil_r.
      repeat split; auto; try discriminate.
      intros Hin. rewrite Forall_forall in Ft. exact (Ft _ Hin eq_refl). }
    assert (Step : forall A (c : M A) w0 x w1, stays no_save c -> no_save w w0 ->
              c w0 = (x, w1) -> no_save w w1).
    { intros A c w0 x w1 Hc H0 E. eapply wrel_trans; [exact H0 | exact (Hc _ _ _ E)]. }
    assert (Rs : forall tf1, stays no_save (setup tf1)).
    { intros. apply setup_R; try typeclasses eauto; intros; ns_close. }
    assert (Rf : forall t0, stays no_save (sf tfs t0)).
    { intros. apply sync_folders_R; try typeclasses eauto; intros; ns_close. }
    assert (Rh : stays no_save hp).
    { apply heal_pass_R; try typeclasses eauto; intros; ns_close. }
    assert (Rb : forall tf1, stays no_save (bp tf1)).
    { intros. apply backfill_pass_R; try typeclasses eauto; intros; ns_close. }
    unfold main_run in H. cbv beta delta [bind] in H.
    set (w1 := set_mem (match w_saved w with Some m => m | None => [] end) w) in H.
    assert (N1 : no_save w w1) by (split; [apply tg_same | ]; reflexivity).
    change (modify _ w) with (@Ok unit tt, w1) in H. cbv beta iota in H.
    destruct (setup tf w1) as [[tf1|] w2] eqn:E2; cbv beta iota in H;
      pose proof (Step _ _ _ _ _ (Rs tf) N1 E2) as N2;
      [| injection H as Hr Hw; apply (Early _ N2); congruence].
    destruct (sf tfs 0 w2) as [[n|] w3] eqn:E3; cbv beta iota in H;
      pose proof (Step _ _ _ _ _ (Rf 0) N2 E3) as N3;
      [| injection H as Hr Hw; apply (Early _ N3); congruence].
    destruct (hp w3) as [[u|] w4] eqn:E4; cbv beta iota in H;
      pose proof (Step _ _ _ _ _ Rh N3 E4) as N4;
      [| injection H as Hr Hw; apply (Early _ N4); congruence].
    destruct (bp tf1 w4) as [[u'|] w5] eqn:E5; cbv beta iota in H;
      pose proof (Step _ _ _ _ _ (Rb tf1) N4 E5) as N5;
      [| injection H as Hr Hw; apply (Early _ N5); congruence].
    set (w6 := set_saved (Some (w_mem (add_event EvSave w5))) (add_event EvSave w5)) in H.
    change (save_mapping w5) with (@Ok unit tt, w6) in H. cbv beta iota in H.
    destruct N5 as [[t [Et Ft]] Es].
    exists t, [EvSave].
    rewrite (log_to_gsheet_trace _ _ _ _ H). simpl. rewrite Et, <- app_assoc.
    repeat split; auto; try discriminate.
    intros Hin. rewrite Forall_forall in Ft. exact (Ft _ Hin eq_refl).
  Qed.

  (** *** Identifiers *)



  (** *** What [generate_thumbnails] returns *)

  (** C6 (generate_thumbnails): for decodable bytes and no rectangle, the
      width-300 preview is written, yet the call returns [(None, None)]: the
      [return thumb_path, qr_path] sits inside [if rect:], so without a
      rectangle control falls through to the final [return None, None]. *)
Theorem gen_no_rect_drops_thumb q b im th w :
    imdecode b = Ok (Some im) ->
    resize im 300 (thumb_height (fst (img_shape im)) (snd (img_shape im))) = Ok th ->
    imwrite (path_join thumbs_dir (q ++ "_thumb.jpg")) th = Ok true ->
    gen q b None w =
      (Ok (Some (PNone, PNone)),
       add_event (EvImwrite (path_join thumbs_dir (q ++ "_thumb.jpg"))) w).
  Proof.
    intros Hd Hr Hw. unfold generate_thumbnails, imwrite_m.
    cbv beta iota delta [bind ret of_res try_ emit modify]. rewrite Hd.
    destruct (img_shape im) as [h wd] eqn:Es. simpl in Hr. rewrite Hr, Hw. reflexivity.
  Qed.
End SyncProofs.

Section MatcherProofs.
  Context (img : Type)
    (imdecode : bytes -> res (option img))
    (zbar_decode : img -> res (list symbol))
    (utf8_decode : bytes -> option string)
    (img_shape : img -> Z * Z)
    (img_slice : img -> Z -> Z -> Z -> Z -> img)
    (to_gray : img -> res img).

  Local Abbreviation full := (detect_qr img imdecode zbar_decode utf8_decode).
  Local Abbreviation crop :=
    (detect_qr_crop img imdecode zbar_decode utf8_decode img_shape img_slice to_gray).

End MatcherProofs.

Section AlbumProofs.
  Context (img : Type)
    (imdecode : bytes -> res (option img))
    (zbar_decode : img -> res (list symbol))
    (utf8_decode : bytes -> option string)
    (img_shape : img -> Z * Z)
    (img_slice : img -> Z -> Z -> Z -> Z -> img)
    (to_gray : img -> res img)
    (http_get : string -> res (option bytes))
    (album_pages : string -> list (res (list pitem)))
    (images_dir : string).

  Local Abbreviation ai :=
    (album_item img imdecode zbar_decode utf8_decode img_shape img_slice to_gray http_get
       images_dir).
  Local Abbreviation sa :=
    (sync_album img imdecode zbar_decode utf8_decode img_shape img_slice to_gray http_get
       album_pages images_dir).

Lemma album_item_saves arch it : stays album_saves (ai arch it).
  Proof.
    unfold album_item, download_image, write_local, emit.
    repeat (first [ apply album_saves_assign_save | stays_step
                  | progress eauto with stays_db ]);
      first [ apply album_saves_event; intros q; discriminate
            | apply album_saves_same; reflexivity ].
  Qed.

Lemma album_items_saves arch items :
    stays album_saves
      (album_items img imdecode zbar_decode utf8_decode img_shape img_slice to_gray http_get
         images_dir arch items).
  Proof.
    induction items as [|it rest IH]; simpl; stays_walk. apply album_item_saves.
  Qed.

Lemma sync_album_saves album_id arch : stays album_saves (sa album_id arch).
  Proof.
    unfold sync_album. generalize (album_pages album_id) as ps.
    induction ps as [|p ps IH]; simpl; [stays_walk|].
    destruct p as [[|it rest]|]; stays_walk. apply album_items_saves.
  Qed.

End AlbumProofs.

(** ** Healing (step 3 of [main]) *)

Section HealProofs.
  Context (img : Type)
    (imdecode : bytes -> res (option img))
    (zbar_decode : img -> res (list symbol))
    (utf8_decode : bytes -> option string)
    (img_shape : img -> Z * Z)
    (img_slice : img -> Z -> Z -> Z -> Z -> img)
    (resize : img -> Z -> Z -> res img)
    (thumb_height : Z -> Z -> Z)
    (imwrite : string -> img -> res bool)
    (extract_exif : bytes -> string * string)
    (thumbs_dir : string)
    (drive_get_owners : string -> res (list (option string)))
    (drive_find_by_name : string -> res (list (option (list (option string))))).

  Local Abbreviation gen :=
    (generate_thumbnails img imdecode img_shape img_slice resize thumb_height imwrite thumbs_dir).
  Local Abbreviation dqr := (detect_qr img imdecode zbar_decode utf8_decode).
  Local Abbreviation hd :=
    (heal_data img imdecode zbar_decode utf8_decode img_shape img_slice resize
       thumb_height imwrite extract_exif thumbs_dir).
  Local Abbreviation hc := (heal_creator drive_get_owners drive_find_by_name).
  Local Abbreviation hl :=
    (heal_loop img imdecode zbar_decode utf8_decode img_shape img_slice resize
       thumb_height imwrite extract_exif thumbs_dir drive_get_owners drive_find_by_name).
  Local Abbreviation hp :=
    (heal_pass img imdecode zbar_decode utf8_decode img_shape img_slice resize
       thumb_height imwrite extract_exif thumbs_dir drive_get_owners drive_find_by_name).

  (** *** The value of [generate_thumbnails] *)

Definition w_empty : world := mk_world [] [] [] None [] 0 [].

  (** What [generate_thumbnails] returns: it reads nothing of the world. *)
Definition gen_val (q : string) (b : bytes) (r : option rect) : option (pyval * pyval) :=
    match fst (gen q b r w_empty) with Ok v => v | Exc => None end.

Lemma gen_run q b r w :
    exists w', gen q b r w = (Ok (gen_val q b r), w') /\
               w_mem w' = w_mem w /\ w_local w' = w_local w.
  Proof.
    unfold gen_val, generate_thumbnails, imwrite_m.
    cbv beta iota delta [bind ret raise modify emit of_res try_].
    destruct (imdecode b) as [[im|]|]; simpl; eauto.
    destruct (img_shape im) as [h wd].
    destruct (resize im 300 (thumb_height h wd)) as [th|]; simpl; eauto.
    destruct (imwrite (path_join thumbs_dir (q ++ "_thumb.jpg")) th) as [[|]|]; simpl; eauto;
      (destruct r as [rc|]; simpl; eauto;
       match goal with |- context [imwrite ?p ?x] => destruct (imwrite p x) as [[|]|] end;
       simpl; eauto).
  Qed.

  (** *** One entry's healing, as a function of the entry *)

  (** The thumbnail branch of 3b: [None] when [generate_thumbnails] returns
      the bare [None] (the unpacking raises). *)
Definition thumb_step (q : string) (b : bytes) (e : entry) : option entry :=
    if negb (truthy (dict_get "thumb_path" e)) then
      match gen_val q b (snd (dqr b)) with
      | None => None
      | Some (t, qp) => Some (dict_set "qr_path" qp (dict_set "thumb_path" t e))
      end
    else Some e.

  (** The camera branch of 3b. *)
Definition cam_step (b : bytes) (e : entry) : entry :=
    if negb (truthy (dict_get "camera" e)) || is_unknown (dict_get "camera" e) then
      dict_set "location" (PStr (snd (extract_exif b)))
        (dict_set "camera" (PStr (fst (extract_exif b))) e)
    else e.

  (** Steps 3a and 3b on the entry [e] of [q] with local files [l]: [None]
      when [os.path.exists(None)] raises. *)
Definition hd_pure (l : list (string * bytes)) (q : string) (e : entry) : option entry :=
    match get_or "local_path" (PStr "") e with
    | PNone => None
    | PStr s =>
        if dict_mem s l then
          if negb (truthy (dict_get "thumb_path" e)) || negb (truthy (dict_get "camera" e)) then
            match dict_get s l with
            | None => Some e
            | Some b =>
                match thumb_step q b e with
                | None => Some e
                | Some e1 => Some (cam_step b e1)
                end
            end
          else Some e
        else Some e
    end.

  (** The creator that step 3c looks up, the Drive answering as it does. *)
Definition creator_val (e : entry) : res string :=
    if truthy (dict_get "drive_id" e) then
      match drive_get_owners (str_of (dict_get "drive_id" e)) with
      | Ok owners => Ok (creator_of owners)
      | Exc => Exc
      end
    else if truthy (dict_get "source_zip" e) then
      match drive_find_by_name (str_of (dict_get "source_zip" e)) with
      | Ok files => zip_owner_of files
      | Exc => Exc
      end
    else Ok "Unknown".

  (** Step 3c on the entry [e]. *)
Definition hc_pure (e : entry) : entry :=
    if negb (truthy (dict_get "creator" e)) || is_unknown (dict_get "creator" e) then
      match creator_val e with
      | Ok c => if negb (String.eqb c "Unknown") then dict_set "creator" (PStr c) e else e
      | Exc => e
      end
    else e.

  (** The [zip_owners] cache holds what the Drive answers. *)
Definition cache_ok (c : list (string * string)) : Prop :=
    forall z v, dict_get z c = Some v ->
      exists files, drive_find_by_name z = Ok files /\ zip_owner_of files = Ok v.

  (** The healing loop over the keys [qs], on the store [m]. *)
Fixpoint heal_list (l : list (string * bytes)) (qs : list string) (m : store)
      : res unit * store :=
    match qs with
    | [] => (Ok tt, m)
    | q :: qs' =>
        match dict_get q m with
        | None => (Exc, m)
        | Some e =>
            match hd_pure l q e with
            | None => (Exc, m)
            | Some e1 => heal_list l qs' (dict_set q (hc_pure e1) m)
            end
        end
    end.

  (** An entry with every healed field present and known. *)
Definition heal_fields : list string :=
    ["local_path"; "thumb_path"; "qr_path"; "camera"; "location"; "creator"].
Definition populated (e : entry) : bool :=
    forallb (fun k => truthy (dict_get k e) && negb (is_unknown (dict_get k e))) heal_fields.

  (** *** Pure lemmas *)

Lemma dict_get_set_other {V} (k k' : string) (v : V) d :
    k <> k' -> dict_get k (dict_set k' v d) = dict_get k d.
  Proof.
    intros Hk. rewrite dict_get_set. destruct (String.eqb k k') eqn:E; auto.
    apply String.eqb_eq in E. contradiction.
  Qed.

Lemma thumb_reads q b e e1 k :
    thumb_step q b e = Some e1 -> k <> "thumb_path" -> k <> "qr_path" ->
    dict_get k e1 = dict_get k e.
  Proof.
    unfold thumb_step. intros H H1 H2.
    destruct (negb _); [|congruence].
    destruct (gen_val _ _ _) as [[t qp]|]; [|discriminate].
    injection H as <-. rewrite !dict_get_set_other; auto.
  Qed.

Lemma cam_reads b e k :
    k <> "camera" -> k <> "location" -> dict_get k (cam_step b e) = dict_get k e.
  Proof.
    unfold cam_step. intros H1 H2. destruct (_ || _); auto.
    rewrite !dict_get_set_other; auto.
  Qed.

Lemma thumb_fixed_set q b e k v :
    thumb_step q b e = Some e -> k <> "thumb_path" -> k <> "qr_path" ->
    thumb_step q b (dict_set k v e) = Some (dict_set k v e).
  Proof.
    unfold thumb_step. intros H H1 H2.
    rewrite (dict_get_set_other "thumb_path" k) by congruence.
    destruct (negb _); [|reflexivity].
    destruct (gen_val _ _ _) as [[t qp]|]; [|discriminate].
    injection H as He.
    assert (Ht : dict_get "thumb_path" e = Some t).
    { rewrite <- He. rewrite dict_get_set_other by discriminate. rewrite dict_get_set.
      reflexivity. }
    assert (Hq : dict_get "qr_path" e = Some qp).
    { rewrite <- He. rewrite dict_get_set. reflexivity. }
    rewrite (dict_set_same "thumb_path" t).
    - rewrite (dict_set_same "qr_path" qp); [reflexivity|].
      rewrite dict_get_set_other by congruence. exact Hq.
    - rewrite dict_get_set_other by congruence. exact Ht.
  Qed.

Lemma cam_fixed_set b e k v :
    cam_step b e = e -> k <> "camera" -> k <> "location" ->
    cam_step b (dict_set k v e) = dict_set k v e.
  Proof.
    unfold cam_step. intros H H1 H2.
    rewrite (dict_get_set_other "camera" k) by congruence.
    destruct (_ || _); [|reflexivity].
    assert (Hc : dict_get "camera" e = Some (PStr (fst (extract_exif b)))).
    { rewrite <- H. rewrite dict_get_set_other by discriminate. rewrite dict_get_set.
      reflexivity. }
    assert (Hl : dict_get "location" e = Some (PStr (snd (extract_exif b)))).
    { rewrite <- H. rewrite dict_get_set. reflexivity. }
    rewrite (dict_set_same "camera").
    - rewrite (dict_set_same "location"); [reflexivity|].
      rewrite dict_get_set_other by congruence. exact Hl.
    - rewrite dict_get_set_other by congruence. exact Hc.
  Qed.

Lemma thumb_idem q b e e1 : thumb_step q b e = Some e1 -> thumb_step q b e1 = Some e1.
  Proof.
    unfold thumb_step. intros H.
    destruct (negb (truthy (dict_get "thumb_path" e))) eqn:Eg; [|injection H as <-; rewrite Eg; reflexivity].
    destruct (gen_val _ _ _) as [[t qp]|] eqn:Eg2; [|discriminate].
    injection H as <-.
    rewrite dict_get_set_other by discriminate. rewrite dict_get_set, String.eqb_refl.
    match goal with |- (if ?c then _ else _) = _ => destruct c end; [|reflexivity].
    rewrite (dict_set_same "thumb_path" t).
    - rewrite (dict_set_same "qr_path" qp); [reflexivity|]. rewrite dict_get_set. reflexivity.
    - rewrite dict_get_set_other by discriminate. rewrite dict_get_set. reflexivity.
  Qed.

Lemma cam_idem b e : cam_step b (cam_step b e) = cam_step b e.
  Proof.
    unfold cam_step at 2 3. destruct (_ || _) eqn:Eg.
    - unfold cam_step. rewrite dict_get_set_other by discriminate.
      rewrite dict_get_set, String.eqb_refl.
      match goal with |- (if ?c then _ else _) = _ => destruct c end; [|reflexivity].
      rewrite (dict_set_same "camera").
      + rewrite (dict_set_same "location"); [reflexivity|]. rewrite dict_get_set. reflexivity.
      + rewrite dict_get_set_other by discriminate. rewrite dict_get_set. reflexivity.
    - unfold cam_step. rewrite Eg. reflexivity.
  Qed.

Lemma thumb_fixed_set_cam q b e :
    thumb_step q b e = Some e -> thumb_step q b (cam_step b e) = Some (cam_step b e).
  Proof.
    intros H. unfold cam_step. destruct (_ || _); auto.
    apply thumb_fixed_set; try discriminate. apply thumb_fixed_set; try discriminate. exact H.
  Qed.

Lemma hd_local_path l q e e1 :
    hd_pure l q e = Some e1 ->
    forall k, k <> "thumb_path" -> k <> "qr_path" -> k <> "camera" -> k <> "location" ->
    dict_get k e1 = dict_get k e.
  Proof.
    unfold hd_pure. intros H k H1 H2 H3 H4.
    destruct (get_or _ _ _) as [|s]; [discriminate|].
    destruct (dict_mem s l); [|congruence].
    destruct (_ || _); [|congruence].
    destruct (dict_get s l) as [b|]; [|congruence].
    destruct (thumb_step q b e) as [e2|] eqn:Et; [|congruence].
    injection H as <-. rewrite cam_reads by auto. eapply thumb_reads; eauto.
  Qed.

Lemma hd_idem l q e e1 : hd_pure l q e = Some e1 -> hd_pure l q e1 = Some e1.
  Proof.
    intros H.
    assert (Hlp : get_or "local_path" (PStr "") e1 = get_or "local_path" (PStr "") e).
    { unfold get_or. rewrite (hd_local_path l q e e1 H); auto; discriminate. }
    revert H. unfold hd_pure at 1. rewrite <- Hlp.
    destruct (get_or _ _ e1) as [|s] eqn:Els; [discriminate|].
    unfold hd_pure. rewrite Els.
    destruct (dict_mem s l) eqn:Em; [|intros [= <-]; reflexivity].
    destruct (negb (truthy (dict_get "thumb_path" e)) || negb (truthy (dict_get "camera" e)))
      eqn:Eg; [|intros [= <-]; rewrite Eg; reflexivity].
    destruct (dict_get s l) as [b|] eqn:Eb; [|intros [= <-]; destruct (_ || _); reflexivity].
    destruct (thumb_step q b e) as [e2|] eqn:Et.
    - intros [= <-].
      match goal with |- (if ?c then _ else _) = _ => destruct c end; [|reflexivity].
      rewrite (thumb_fixed_set_cam q b e2); [rewrite cam_idem; reflexivity|].
      eapply thumb_idem; eauto.
    - intros [= <-]. rewrite Eg, Et. reflexivity.
  Qed.

  (** Setting the creator does not disturb a healed entry. *)
Lemma hd_creator l q e v :
    hd_pure l q e = Some e -> hd_pure l q (dict_set "creator" v e) = Some (dict_set "creator" v e).
  Proof.
    intros H. unfold hd_pure, get_or in *.
    rewrite !(dict_get_set_other _ "creator") by discriminate.
    destruct (match dict_get "local_path" e with Some v => v | None => PStr "" end) as [|s];
      [discriminate|].
    destruct (dict_mem s l); [|reflexivity].
    destruct (negb (truthy (dict_get "thumb_path" e)) || negb (truthy (dict_get "camera" e)));
      [|reflexivity].
    destruct (dict_get s l) as [b|]; [|reflexivity].
    destruct (thumb_step q b e) as [e2|] eqn:Et.
    - injection H as He.
      assert (Ht : thumb_step q b e = Some e).
      { rewrite <- He. apply thumb_fixed_set_cam. eapply thumb_idem; eauto. }
      rewrite Et in Ht. injection Ht as ->.
      rewrite (thumb_fixed_set q b e) by (try exact Et; discriminate).
      rewrite (cam_fixed_set b e) by (try exact He; discriminate). reflexivity.
    - unfold thumb_step in Et |- *. rewrite dict_get_set_other by discriminate.
      destruct (negb (truthy (dict_get "thumb_path" e))); [|discriminate].
      destruct (gen_val _ _ _) as [[t qp]|]; [discriminate|reflexivity].
  Qed.

Lemma hc_reads e k : k <> "creator" -> dict_get k (hc_pure e) = dict_get k e.
  Proof.
    intros Hk. unfold hc_pure. destruct (_ || _); auto.
    destruct (creator_val e); auto. destruct (negb _); auto. apply dict_get_set_other; auto.
  Qed.

Lemma hc_cases e : hc_pure e = e \/ exists v, hc_pure e = dict_set "creator" v e.
  Proof.
    unfold hc_pure. destruct (_ || _); auto.
    destruct (creator_val e); auto. destruct (negb _); eauto.
  Qed.

Lemma creator_val_set e v : creator_val (dict_set "creator" v e) = creator_val e.
  Proof.
    unfold creator_val. rewrite !(dict_get_set_other _ "creator") by discriminate. reflexivity.
  Qed.

Lemma hc_idem e : hc_pure (hc_pure e) = hc_pure e.
  Proof.
    unfold hc_pure at 2 3. destruct (_ || _) eqn:Eg.
    - destruct (creator_val e) as [c|] eqn:Ec.
      + destruct (negb (String.eqb c "Unknown")) eqn:Eu.
        * unfold hc_pure. rewrite creator_val_set, Ec, Eu, dict_get_set, String.eqb_refl.
          match goal with |- (if ?c then _ else _) = _ => destruct c end; [|reflexivity].
          rewrite dict_set_set. reflexivity.
        * unfold hc_pure. rewrite Eg, Ec, Eu. reflexivity.
      + unfold hc_pure. rewrite Eg, Ec. reflexivity.
    - unfold hc_pure. rewrite Eg. reflexivity.
  Qed.

  (** One entry healed once is healed for good. *)
Lemma step_idem l q e e1 :
    hd_pure l q e = Some e1 ->
    hd_pure l q (hc_pure e1) = Some (hc_pure e1) /\ hc_pure (hc_pure e1) = hc_pure e1.
  Proof.
    intros H. split; [|apply hc_idem].
    apply hd_idem in H. destruct (hc_cases e1) as [-> | [v ->]]; auto.
    apply hd_creator. exact H.
  Qed.

Lemma heal_list_other l qs m r m' q :
    heal_list l qs m = (r, m') -> ~ In q qs -> dict_get q m' = dict_get q m.
  Proof.
    revert m. induction qs as [|q1 qs IH]; simpl; intros m H Hn.
    - congruence.
    - destruct (dict_get q1 m) as [e|]; [|congruence].
      destruct (hd_pure l q1 e) as [e1|]; [|congruence].
      rewrite (IH _ H) by tauto. apply dict_get_set_other. intros ->. tauto.
  Qed.

Lemma heal_list_idem l qs m r1 m1 r2 m2 :
    NoDup qs -> heal_list l qs m = (r1, m1) -> heal_list l qs m1 = (r2, m2) -> m2 = m1.
  Proof.
    intros Hn. revert m r1 m1. induction Hn as [|q qs Hq Hn IH]; simpl; intros m r1 m1 H1 H2.
    - congruence.
    - destruct (dict_get q m) as [e|] eqn:Ee;
        [|injection H1 as <- <-; rewrite Ee in H2; congruence].
      destruct (hd_pure l q e) as [e1|] eqn:Eh; [|injection H1 as <- <-; rewrite Ee, Eh in H2; congruence].
      destruct (step_idem l q e e1 Eh) as [Hs1 Hs2].
      assert (Hg : dict_get q m1 = Some (hc_pure e1)).
      { rewrite (heal_list_other _ _ _ _ _ q H1 Hq). rewrite dict_get_set, String.eqb_refl. reflexivity. }
      rewrite Hg, Hs1, Hs2, (dict_set_same _ _ _ Hg) in H2.
      eapply IH; eauto.
  Qed.

  (** *** The monadic code computes the pure functions *)

Lemma dict_get_set_eq {V} (k : string) (v : V) d : dict_get k (dict_set k v d) = Some v.
  Proof. rewrite dict_get_set, String.eqb_refl. reflexivity. Qed.

Ltac wnorm H :=
    repeat progress (cbn [w_mem w_local w_trace w_saved w_remote set_mem add_event fst snd] in H;
                     rewrite ?dict_get_set_eq, ?dict_set_set in H;
                     match goal with He : dict_get _ (w_mem _) = Some _ |- _ => rewrite ?He in H
                                | _ => idtac end).
Ltac wnorm_goal :=
    repeat progress (cbn [w_mem w_local w_trace w_saved w_remote set_mem add_event fst snd];
                     rewrite ?dict_get_set_eq, ?dict_set_set).

Lemma hd_spec q w e r w' :
    dict_get q (w_mem w) = Some e -> hd q w = (r, w') ->
    w_local w' = w_local w /\
    (r, w_mem w') = match hd_pure (w_local w) q e with
                    | None => (Exc, w_mem w)
                    | Some e1 => (Ok tt, dict_set q e1 (w_mem w))
                    end.
  Proof.
    intros He H.
    unfold heal_data, mem_entry, path_exists, read_local, item_set, detect, exif in H.
    cbv beta iota delta [bind ret raise gets modify emit of_opt of_res try_] in H.
    rewrite He in H. unfold hd_pure.
    destruct (get_or "local_path" (PStr "") e) as [|s]; [inj_all; auto|].
    destruct (dict_mem s (w_local w)); [|inj_all; rewrite dict_set_same; auto].
    destruct (negb (truthy (dict_get "thumb_path" e)) || negb (truthy (dict_get "camera" e)));
      [|inj_all; rewrite dict_set_same; auto].
    wnorm H.
    destruct (dict_get s (w_local w)) as [b|]; [|inj_all; rewrite dict_set_same; auto].
    wnorm H. rewrite ?He in H. unfold thumb_step, cam_step.
    destruct (negb (truthy (dict_get "thumb_path" e))).
    - destruct (dqr b) as [x rr] eqn:Ed. cbn [snd].
      match type of H with
      | context [gen q b rr ?W] =>
          destruct (gen_run q b rr W) as (w2 & Eg & Hm & Hl); rewrite Eg in H
      end.
      destruct (gen_val q b rr) as [[t qp]|].
      + rewrite Hm in H. wnorm H. rewrite ?He in H. wnorm H.
        destruct (extract_exif b) as [cam loc]; cbv beta iota in H.
        destruct (_ || _); wnorm H; inj_all; wnorm Hl; wnorm_goal; split; auto.
      + inj_all. rewrite Hm, Hl. wnorm_goal. split; [reflexivity|].
        rewrite dict_set_same; auto.
    - wnorm H. rewrite ?He in H.
      destruct (extract_exif b) as [cam loc]; cbv beta iota in H.
      destruct (_ || _); wnorm H; inj_all; wnorm_goal; split; auto;
        rewrite ?dict_set_same; auto.
  Qed.

Lemma cache_ok_set c z files v :
    cache_ok c -> drive_find_by_name z = Ok files -> zip_owner_of files = Ok v ->
    cache_ok (dict_set z v c).
  Proof.
    intros Hc Ef Ev z' v'. rewrite dict_get_set.
    destruct (String.eqb z' z) eqn:E; [|apply Hc].
    apply String.eqb_eq in E. subst. intros [= <-]. eauto.
  Qed.

Lemma hc_spec q c w e r w' :
    cache_ok c -> dict_get q (w_mem w) = Some e -> hc q c w = (r, w') ->
    w_local w' = w_local w /\
    exists c', r = Ok c' /\ cache_ok c' /\ w_mem w' = dict_set q (hc_pure e) (w_mem w).
  Proof.
    intros Hc He H.
    unfold heal_creator, mem_entry, item_set in H.
    cbv beta iota delta [bind ret raise gets modify emit of_opt of_res try_] in H.
    rewrite He in H. unfold hc_pure, creator_val.
    destruct (negb (truthy (dict_get "creator" e)) || is_unknown (dict_get "creator" e));
      [|inj_all; rewrite dict_set_same; eauto].
    destruct (truthy (dict_get "drive_id" e)).
    - wnorm H. destruct (drive_get_owners (str_of (dict_get "drive_id" e))) as [os|];
        wnorm H; [|inj_all; rewrite dict_set_same; eauto].
      destruct (negb (String.eqb (creator_of os) "Unknown")); wnorm H; inj_all; wnorm_goal;
        [eauto | rewrite dict_set_same; eauto].
    - destruct (truthy (dict_get "source_zip" e)); [|wnorm H; rewrite String.eqb_refl in H; cbn [negb] in H; inj_all;
         rewrite dict_set_same; eauto].
      destruct (dict_get (str_of (dict_get "source_zip" e)) c) as [v|] eqn:Ez.
      + destruct (Hc _ _ Ez) as (files & Ef & Ev). rewrite Ef, Ev.
        destruct (negb (String.eqb v "Unknown")); wnorm H; inj_all; wnorm_goal;
          [eauto | rewrite dict_set_same; eauto].
      + wnorm H.
        destruct (drive_find_by_name (str_of (dict_get "source_zip" e))) as [files|] eqn:Ef;
          wnorm H; [|inj_all; rewrite dict_set_same; eauto].
        destruct (zip_owner_of files) as [v|] eqn:Ev; wnorm H; [|inj_all; rewrite dict_set_same; eauto].
        destruct (negb (String.eqb v "Unknown")); wnorm H; inj_all; wnorm_goal;
          [eauto 6 using cache_ok_set | rewrite (dict_set_same q e); eauto 6 using cache_ok_set].
  Qed.

Lemma hl_spec qs c w r w' :
    cache_ok c -> hl qs c w = (r, w') ->
    w_local w' = w_local w /\ (r, w_mem w') = heal_list (w_local w) qs (w_mem w).
  Proof.
    revert c w. induction qs as [|q qs IH]; simpl; intros c w Hc H.
    - unfold ret in H. inj_all. auto.
    - unfold bind at 1 in H.
      destruct (dict_get q (w_mem w)) as [e|] eqn:He.
      + destruct (hd q w) as [r1 w1] eqn:E1.
        destruct (hd_spec q w e r1 w1 He E1) as [Hl1 Hm1].
        destruct (hd_pure (w_local w) q e) as [e1|]; injection Hm1 as -> Hm1;
          [|inj_all; rewrite Hm1; auto].
        unfold bind in H.
        assert (He1 : dict_get q (w_mem w1) = Some e1) by (rewrite Hm1; apply dict_get_set_eq).
        destruct (hc q c w1) as [r2 w2] eqn:E2.
        destruct (hc_spec q c w1 e1 r2 w2 Hc He1 E2) as (Hl2 & c' & -> & Hc' & Hm2).
        destruct (IH c' w2 Hc' H) as [Hl3 Hm3]. split; [congruence|].
        rewrite Hm3, Hm2, Hl2, Hl1, Hm1, dict_set_set. reflexivity.
      + unfold heal_data, mem_entry in H.
        cbv beta iota delta [bind ret raise gets modify emit of_opt of_res try_] in H.
        rewrite He in H. inj_all. auto.
  Qed.

Lemma heal_list_keys l qs m r m' :
    heal_list l qs m = (r, m') -> map fst m' = map fst m.
  Proof.
    revert m. induction qs as [|q qs IH]; simpl; intros m H.
    - congruence.
    - destruct (dict_get q m) as [e|] eqn:Ee; [|congruence].
      destruct (hd_pure l q e) as [e1|]; [|congruence].
      rewrite (IH _ H). eapply dict_set_keys_present; eauto.
  Qed.

Lemma populated_fields e :
    populated e = true ->
    (exists s, dict_get "local_path" e = Some (PStr s)) /\
    truthy (dict_get "thumb_path" e) = true /\ truthy (dict_get "camera" e) = true /\
    truthy (dict_get "creator" e) = true /\ is_unknown (dict_get "creator" e) = false.
  Proof.
    unfold populated, heal_fields. simpl. rewrite !andb_true_iff, !negb_true_iff.
    intros ((Hl & _) & (Ht & _) & _ & (Hc & _) & _ & (Hr & Hu) & _).
    repeat split; auto.
    destruct (dict_get "local_path" e) as [[|s]|]; try discriminate. eauto.
  Qed.

Lemma populated_hd l q e : populated e = true -> hd_pure l q e = Some e.
  Proof.
    intros H. destruct (populated_fields e H) as ([s Hs] & Ht & Hc & _).
    unfold hd_pure, get_or. rewrite Hs, Ht, Hc. simpl.
    destruct (dict_mem s l); reflexivity.
  Qed.

Lemma populated_hc e : populated e = true -> hc_pure e = e.
  Proof.
    intros H. destruct (populated_fields e H) as (_ & _ & _ & Hr & Hu).
    unfold hc_pure. rewrite Hr, Hu. reflexivity.
  Qed.

Lemma heal_list_populated l qs m r m' q e :
    heal_list l qs m = (r, m') -> dict_get q m = Some e -> populated e = true ->
    dict_get q m' = Some e.
  Proof.
    revert m. induction qs as [|q1 qs IH]; simpl; intros m H He Hp.
    - congruence.
    - destruct (dict_get q1 m) as [e1|] eqn:Ee; [|congruence].
      destruct (hd_pure l q1 e1) as [e2|] eqn:Eh; [|congruence].
      apply (IH _ H); [|exact Hp]. rewrite dict_get_set.
      destruct (String.eqb q q1) eqn:Eq; [|exact He].
      apply String.eqb_eq in Eq. subst q1. rewrite He in Ee. injection Ee as <-.
      rewrite populated_hd in Eh by exact Hp. injection Eh as <-.
      rewrite populated_hc by exact Hp. reflexivity.
  Qed.

  (** C2 (main, step 3): the healing pass is a fixed point.  On a mapping
      with unique identifiers, running the healing pass over the store the
      first pass left (the local image files being those the first pass
      left, which it never changes) gives back exactly that store.  An entry
      whose healed fields (local path, thumbnail and QR paths, camera,
      location, creator) are all present and not "Unknown" comes out of the
      pass as it went in, and its healing steps neither read nor write
      anything: no file read, no QR scan, no thumbnail, no EXIF read, no
      Drive call. *)
Theorem heal_pass_fixed_point w r1 w1 r2 w2 :
    NoDup (map fst (w_mem w)) ->
    hp w = (r1, w1) -> hp w1 = (r2, w2) ->
    w_mem w2 = w_mem w1 /\ w_local w1 = w_local w /\
    (forall q e, dict_get q (w_mem w) = Some e -> populated e = true ->
       dict_get q (w_mem w1) = Some e /\
       (forall c w0, dict_get q (w_mem w0) = Some e ->
          hd q w0 = (Ok tt, w0) /\ hc q c w0 = (Ok c, w0))).
  Proof.
    intros Hn H1 H2. unfold heal_pass in H1, H2. cbv [bind gets] in H1, H2.
    assert (Hc0 : cache_ok []) by (intros z v Hz; discriminate).
    destruct (hl_spec _ _ _ _ _ Hc0 H1) as [Hl1 Hp1].
    destruct (hl_spec _ _ _ _ _ Hc0 H2) as [Hl2 Hp2].
    assert (Hk : map fst (w_mem w1) = map fst (w_mem w)) by (symmetry in Hp1; eapply heal_list_keys; eauto).
    split; [|split; [exact Hl1|]].
    - rewrite Hk, Hl1 in Hp2. symmetry in Hp1, Hp2. eapply heal_list_idem; eauto.
    - intros q e He Hp. split.
      + symmetry in Hp1. eapply heal_list_populated; eauto.
      + intros c w0 He0. destruct (populated_fields e Hp) as ([s Hs] & Ht & Hc & Hr & Hu).
        split.
        * unfold heal_data, mem_entry, path_exists.
          cbv beta iota delta [bind ret raise gets modify emit of_opt of_res try_].
          rewrite He0. unfold get_or. rewrite Hs, Ht, Hc. simpl.
          destruct (dict_mem s (w_local w0)); reflexivity.
        * unfold heal_creator, mem_entry.
          cbv beta iota delta [bind ret raise gets modify emit of_opt of_res try_].
          rewrite He0, Hr, Hu. reflexivity.
  Qed.

Lemma gen_no_exif q b r : stays (trace_grows (fun ev => ev <> EvExif)) (gen q b r).
  Proof.
    unfold generate_thumbnails, imwrite_m, emit. stays_walk; apply tg_event; discriminate.
  Qed.

Lemma app_self_nil {A} (l t : list A) : l = l ++ t -> t = [].
  Proof.
    intros H. apply (f_equal (@length A)) in H. rewrite length_app in H.
    destruct t; [reflexivity | simpl in H; lia].
  Qed.

Ltac exif_close Ht Hin :=
    inj_all; cbn [w_trace w_mem set_mem add_event] in Ht;
    first
      [ apply app_self_nil in Ht; subst; destruct Hin
      | rewrite <- ?app_assoc in Ht; apply app_inv_head in Ht; subst;
        simpl in Hin; intuition discriminate ].

  (** C10 (main, step 3b): when a healing run of an entry recomputes its
      camera (the EXIF of its local image is read), it writes both the camera
      and the location read from that image into the entry, whatever location
      the entry held before. *)
Theorem heal_camera_overwrites_location q w e r w' t :
    dict_get q (w_mem w) = Some e -> hd q w = (r, w') ->
    w_trace w' = w_trace w ++ t -> In EvExif t ->
    exists s b e',
      get_or "local_path" (PStr "") e = PStr s /\ dict_get s (w_local w) = Some b /\
      dict_get q (w_mem w') = Some e' /\
      dict_get "camera" e' = Some (PStr (fst (extract_exif b))) /\
      dict_get "location" e' = Some (PStr (snd (extract_exif b))).
  Proof.
    intros He H Ht Hin.
    unfold heal_data, mem_entry, path_exists, read_local, item_set, detect, exif in H.
    cbv beta iota delta [bind ret raise gets modify emit of_opt of_res try_] in H.
    rewrite He in H.
    destruct (get_or "local_path" (PStr "") e) as [|s] eqn:Els; [exif_close Ht Hin|].
    destruct (dict_mem s (w_local w)); [|exif_close Ht Hin].
    destruct (negb (truthy (dict_get "thumb_path" e)) || negb (truthy (dict_get "camera" e)));
      [|exif_close Ht Hin].
    wnorm H.
    destruct (dict_get s (w_local w)) as [b|] eqn:Eb; [|exif_close Ht Hin].
    wnorm H. rewrite ?He in H.
    destruct (negb (truthy (dict_get "thumb_path" e))).
    - destruct (dqr b) as [x rr] eqn:Ed.
      match type of H with
      | context [gen q b rr ?W] =>
          destruct (gen_run q b rr W) as (w2 & Eg & Hm & Hl);
          destruct (gen_no_exif q b rr W _ _ Eg) as (tg & Htg & Fg); rewrite Eg in H
      end.
      assert (Ng : ~ In EvExif tg) by (intros Hx; exact (proj1 (Forall_forall _ _) Fg _ Hx eq_refl)).
      destruct (gen_val q b rr) as [[tp qp]|].
      + rewrite Hm in H. wnorm H.
        destruct (extract_exif b) as [cam loc] eqn:Ex; cbv beta iota in H.
        destruct (_ || _); wnorm H; inj_all.
        * do 3 eexists. split; [reflexivity|]. split; [exact Eb|].
          wnorm_goal. split; [reflexivity|].
          cbn [fst snd]. rewrite dict_get_set_other by discriminate.
          rewrite !dict_get_set_eq, Ex. auto.
        * exfalso. cbn [w_trace set_mem add_event] in Ht. rewrite Htg in Ht.
          cbn [w_trace add_event] in Ht. rewrite <- !app_assoc in Ht.
          apply app_inv_head in Ht. subst t. simpl in Hin.
          destruct Hin as [Hx|[Hx|Hx]]; [discriminate|discriminate|].
          rewrite ?in_app_iff in Hx. simpl in Hx. intuition discriminate.
      + exfalso. inj_all. rewrite Htg in Ht. cbn [w_trace add_event] in Ht.
        rewrite <- !app_assoc in Ht. apply app_inv_head in Ht. subst t. simpl in Hin.
        destruct Hin as [Hx|[Hx|Hx]]; [discriminate|discriminate|]. exact (Ng Hx).
    - wnorm H. destruct (extract_exif b) as [cam loc] eqn:Ex; cbv beta iota in H.
      destruct (_ || _); wnorm H; inj_all; [|exif_close Ht Hin].
      do 3 eexists. split; [reflexivity|]. split; [exact Eb|].
      wnorm_goal. split; [reflexivity|].
      cbn [fst snd]. rewrite dict_get_set_other by discriminate.
      rewrite !dict_get_set_eq, Ex. auto.
  Qed.
End HealProofs.

(** ** The spreadsheet mirror *)

(** *** String order, as Python compares [str] keys *)

Lemma ltb_lt_iff a b : String.ltb a b = true <-> String.compare a b = Lt.
Proof. unfold String.ltb. destruct (String.compare a b); split; congruence. Qed.


Lemma ltb_trans a b c : String.ltb a b = true -> String.ltb b c = true -> String.ltb a c = true.
Proof.
  rewrite !ltb_lt_iff. intros H1 H2.
  apply OrderedTypeEx.String_as_OT.cmp_lt in H1, H2. apply OrderedTypeEx.String_as_OT.cmp_lt.
  eapply OrderedTypeEx.String_as_OT.lt_trans; eassumption.
Qed.

Lemma ltb_asym a b : String.ltb a b = true -> String.ltb b a = false.
Proof.
  rewrite ltb_lt_iff. intros H. unfold String.ltb.
  rewrite String.compare_antisym, H. reflexivity.
Qed.

Lemma ltb_total a b : String.ltb a b = false -> String.ltb b a = false -> a = b.
Proof.
  unfold String.ltb. rewrite (String.compare_antisym b a).
  destruct (String.compare a b) eqn:E; simpl; try discriminate.
  intros _ _. apply String.compare_eq_iff. exact E.
Qed.

(** [not (c < a)] follows from [not (b < a)] and [not (c < b)]. *)
Lemma nlt_trans a b c :
  String.ltb b a = false -> String.ltb c b = false -> String.ltb c a = false.
Proof.
  intros H1 H2. destruct (String.ltb c a) eqn:H3; [|reflexivity].
  destruct (String.ltb a b) eqn:H4.
  - rewrite (ltb_trans c a b H3 H4) in H2. discriminate.
  - rewrite (ltb_total a b H4 H1) in H3. congruence.
Qed.

(** *** Insertion sort: a permutation, sorted, and the identity on sorted lists *)

Section SortLemmas.
  Context {A : Type} (key : A -> string).

  Local Abbreviation le_key := (fun x y => String.ltb (key y) (key x) = false).

Lemma insert_by_perm x l : Permutation (x :: l) (insert_by key x l).
  Proof.
    induction l as [|y l IH]; simpl; [reflexivity|].
    destruct (String.ltb (key x) (key y)); [reflexivity|].
    eapply perm_trans; [apply perm_swap|]. constructor. exact IH.
  Qed.

Lemma sort_by_perm l : Permutation l (sort_by key l).
  Proof.
    unfold sort_by.
    assert (G : forall acc, Permutation (l ++ acc) (fold_left (fun acc x => insert_by key x acc) l acc)).
    { induction l as [|x l IH]; intros acc; simpl; [reflexivity|].
      eapply perm_trans; [|apply IH].
      eapply perm_trans; [apply Permutation_middle|].
      apply Permutation_app_head. apply insert_by_perm. }
    specialize (G []). rewrite app_nil_r in G. exact G.
  Qed.

Lemma insert_by_sorted x l : StronglySorted le_key l -> StronglySorted le_key (insert_by key x l).
  Proof.
    induction l as [|y l IH]; simpl; intros Hs.
    - constructor; constructor.
    - inversion Hs as [|? ? Hs' Hall]; subst.
      destruct (String.ltb (key x) (key y)) eqn:Hxy.
      + constructor; [exact Hs|]. constructor.
        * apply ltb_asym. exact Hxy.
        * eapply Forall_impl; [|exact Hall]. simpl. intros z Hz.
          eapply nlt_trans; [apply ltb_asym; exact Hxy|exact Hz].
      + constructor; [apply IH; exact Hs'|].
        apply Forall_forall. intros z Hz.
        apply (Permutation_in _ (Permutation_sym (insert_by_perm x l))) in Hz.
        destruct Hz as [<-|Hz]; [exact Hxy|].
        rewrite Forall_forall in Hall. exact (Hall z Hz).
  Qed.

Lemma sort_by_sorted l : StronglySorted le_key (sort_by key l).
  Proof.
    unfold sort_by.
    assert (G : forall acc, StronglySorted le_key acc ->
                 StronglySorted le_key (fold_left (fun acc x => insert_by key x acc) l acc)).
    { induction l as [|x l IH]; intros acc Hacc; simpl; [exact Hacc|].
      apply IH. apply insert_by_sorted. exact Hacc. }
    apply G. constructor.
  Qed.

Lemma insert_by_last x l : Forall (fun y => le_key y x) l -> insert_by key x l = l ++ [x].
  Proof.
    induction l as [|y l IH]; simpl; intros H; [reflexivity|].
    inversion H as [|? ? Hy Hl]; subst. rewrite Hy. f_equal. apply IH. exact Hl.
  Qed.

Lemma sorted_app_forall (l1 l2 : list A) :
    StronglySorted le_key (l1 ++ l2) -> forall y z, In y l1 -> In z l2 -> le_key y z.
  Proof.
    induction l1 as [|a l1 IH]; simpl; intros Hs y z Hy Hz; [contradiction|].
    inversion Hs as [|? ? Hs' Hall]; subst.
    destruct Hy as [<-|Hy].
    - rewrite Forall_forall in Hall. apply Hall. apply in_or_app. right. exact Hz.
    - exact (IH Hs' y z Hy Hz).
  Qed.

Lemma sort_by_sorted_id l : StronglySorted le_key l -> sort_by key l = l.
  Proof.
    unfold sort_by.
    assert (G : forall acc, StronglySorted le_key (acc ++ l) ->
                 fold_left (fun acc x => insert_by key x acc) l acc = acc ++ l).
    { induction l as [|x l IH]; intros acc Hs; simpl; [symmetry; apply app_nil_r|].
      rewrite insert_by_last.
      - rewrite IH; [rewrite <- app_assoc; reflexivity|].
        rewrite <- app_assoc. exact Hs.
      - apply Forall_forall. intros y Hy.
        exact (sorted_app_forall acc (x :: l) Hs y x Hy (or_introl eq_refl)). }
    apply (G []).
  Qed.

Lemma sorted_of_keys (l : list A) :
    StronglySorted (fun a b => String.ltb b a = false) (map key l) -> StronglySorted le_key l.
  Proof.
    induction l as [|x l IH]; simpl; intros Hs; [constructor|].
    inversion Hs as [|? ? Hs' Hall]; subst. constructor; [apply IH; exact Hs'|].
    apply Forall_map in Hall. exact Hall.
  Qed.




End SortLemmas.

(** *** The rows of a mirror run *)

Section SheetProofs.
  Context (minute_of : nat -> string).

  Local Abbreviation rows_of := (rows_of minute_of).
  Local Abbreviation apply_entries := (apply_entries minute_of).
  Local Abbreviation mirror := (mirror_core minute_of).

Lemma new_row_eq q it s :
    new_row hdr0 (row_data q it s) =
    [PStr q; get_or "filename" (PStr "Unknown") it; get_or "timestamp" (PStr "Unknown") it;
     PStr s; get_or "creator" (PStr "Unknown") it; get_or "camera" (PStr "Unknown") it;
     get_or "location" (PStr "Unknown") it; image_formula (dict_get "drive_thumb_id" it);
     image_formula (dict_get "drive_qr_id" it)].
  Proof. reflexivity. Qed.

  (** Every column of a full row is overwritten. *)
Lemma update_row_full r q it s :
    length r = 9 -> update_row hdr0 r (row_data q it s) = new_row hdr0 (row_data q it s).
  Proof.
    intros H. do 9 (destruct r as [|? r]; [discriminate|]).
    destruct r; [|discriminate]. reflexivity.
  Qed.

Lemma rows_of_length m c ks : length (rows_of m c ks) = length ks.
  Proof. revert c; induction ks; intros c; simpl; [reflexivity|]. rewrite IHks. reflexivity. Qed.

Lemma rows_of_full m c ks : Forall (fun r => length r = 9) (rows_of m c ks).
  Proof.
    revert c; induction ks as [|q ks IH]; intros c; simpl; constructor; [|apply IH].
    rewrite new_row_eq. reflexivity.
  Qed.

Lemma rows_of_ids m c ks : map (id_key 0) (rows_of m c ks) = ks.
  Proof.
    revert c; induction ks as [|q ks IH]; intros c; simpl; [reflexivity|].
    rewrite IH, new_row_eq. reflexivity.
  Qed.

Lemma rows_of_nth m c ks i q :
    nth_error ks i = Some q ->
    nth i (rows_of m c ks) [] = new_row hdr0 (row_data q (item_of m q) (minute_of (c + i))).
  Proof.
    revert c i; induction ks as [|k ks IH]; intros c i H; destruct i as [|i]; simpl in H |- *;
      try discriminate.
    - injection H as <-. rewrite Nat.add_0_r. reflexivity.
    - rewrite (IH (S c) i H). do 3 f_equal. lia.
  Qed.

Lemma rows_of_nth_out m c ks i : length ks <= i -> nth i (rows_of m c ks) [] = [].
  Proof. intros H. apply nth_overflow. rewrite rows_of_length. exact H. Qed.

Lemma existing_absent m q ks c i acc :
    ~ In q ks -> existing_aux (rows_of m c ks) 0 q i acc = acc.
  Proof.
    revert c i acc; induction ks as [|k ks IH]; intros c i acc Hn; [reflexivity|].
    cbn [rows_of existing_aux]. rewrite new_row_eq. cbn [nth_error pyval_eqb].
    destruct (String.eqb_spec k q) as [->|_]; [exfalso; apply Hn; left; reflexivity|].
    apply IH. intros Hq. apply Hn. right. exact Hq.
  Qed.

Lemma existing_present m q ks c t i acc :
    NoDup ks -> nth_error ks t = Some q -> existing_aux (rows_of m c ks) 0 q i acc = Some (i + t).
  Proof.
    revert c t i acc; induction ks as [|k ks IH]; intros c t i acc Hd Ht;
      [destruct t; discriminate|].
    inversion Hd as [|? ? Hk Hd']; subst.
    cbn [rows_of existing_aux]. rewrite new_row_eq. cbn [nth_error pyval_eqb].
    destruct t as [|t]; simpl in Ht.
    - injection Ht as ->. rewrite String.eqb_refl, existing_absent by exact Hk.
      rewrite Nat.add_0_r. reflexivity.
    - destruct (String.eqb_spec k q) as [->|_].
      + exfalso. apply Hk. eapply nth_error_In. exact Ht.
      + rewrite (IH (S c) t (S i) _ Hd' Ht). f_equal. lia.
  Qed.

Lemma apply_entries_append ex ks m c rows :
    (forall q, In q ks -> ex q = None) ->
    apply_entries hdr0 ex ks m c rows = rows ++ rows_of m c ks.
  Proof.
    revert c rows; induction ks as [|q ks IH]; intros c rows H; simpl.
    - symmetry. apply app_nil_r.
    - rewrite (H q (or_introl eq_refl)).
      rewrite IH by (intros q' Hq'; apply H; right; exact Hq').
      rewrite <- app_assoc. reflexivity.
  Qed.

Lemma list_update_app {A} (f : A -> A) (P l : list A) x :
    list_update (length P) f (P ++ x :: l) = P ++ f x :: l.
  Proof. induction P as [|y P IH]; simpl; [reflexivity|]. rewrite IH. reflexivity. Qed.

Lemma apply_entries_update ex ks m c P Old :
    (forall t q, nth_error ks t = Some q -> ex q = Some (S (length P + t))) ->
    length Old = length ks -> Forall (fun r => length r = 9) Old ->
    apply_entries hdr0 ex ks m c (hdr0 :: P ++ Old) = hdr0 :: P ++ rows_of m c ks.
  Proof.
    revert c P Old; induction ks as [|q ks IH]; intros c P Old Hex Hlen Hfull.
    - destruct Old; [|discriminate]. reflexivity.
    - destruct Old as [|o Old]; [discriminate|].
      inversion Hfull as [|? ? Ho Hfull']; subst.
      cbn [apply_entries]. rewrite (Hex 0 q eq_refl), Nat.add_0_r.
      cbn [list_update]. rewrite list_update_app, update_row_full by exact Ho.
      replace (P ++ new_row hdr0 (row_data q _ (minute_of c)) :: Old)
        with ((P ++ [new_row hdr0 (row_data q (item_of m q) (minute_of c))]) ++ Old)
        by (rewrite <- app_assoc; reflexivity).
      rewrite IH.
      + rewrite <- app_assoc. reflexivity.
      + intros t q' Ht. rewrite (Hex (S t) q' Ht), length_app. simpl. f_equal. lia.
      + simpl in Hlen. lia.
      + exact Hfull'.
  Qed.

Lemma sort_rows_rows_of m c ks :
    StronglySorted (fun a b => String.ltb b a = false) ks ->
    sort_rows 0 (rows_of m c ks) = Ok (rows_of m c ks).
  Proof.
    intros Hs. unfold sort_rows.
    assert (E1 : forall c, existsb (fun r => Nat.leb (length r) 0) (rows_of m c ks) = false).
    { clear Hs. induction ks as [|q ks IH]; intros c'; [reflexivity|].
      cbn [rows_of existsb]. rewrite new_row_eq. apply IH. }
    assert (E2 : forall c, existsb (fun r => match nth 0 r PNone with PNone => true | _ => false end)
                             (rows_of m c ks) = false).
    { clear Hs E1. induction ks as [|q ks IH]; intros c'; [reflexivity|].
      cbn [rows_of existsb]. rewrite new_row_eq. apply IH. }
    rewrite E1, E2, andb_false_r. f_equal.
    apply sort_by_sorted_id. apply sorted_of_keys. rewrite rows_of_ids. exact Hs.
  Qed.

Lemma keys_sorted (l : list string) :
    StronglySorted (fun a b => String.ltb b a = false) (sort_by (fun s => s) l).
  Proof. exact (sort_by_sorted (fun s => s) l). Qed.

  (** A run on an empty sheet writes the header and one row per entry. *)
Lemma mirror_first m c :
    ~ In "Parchment ID" (map fst m) ->
    mirror [] m c = Ok (hdr0 :: rows_of m c (sort_by (fun s => s) (map fst m))).
  Proof.
    intros Hp. unfold mirror_core. cbv zeta.
    change (init_rows []) with [hdr0]. change (hd [] [hdr0]) with hdr0.
    change (col_index hdr0 "Parchment ID") with (Some 0). cbv iota beta.
    rewrite apply_entries_append.
    - cbn [tl app]. rewrite sort_rows_rows_of by apply keys_sorted. reflexivity.
    - intros q Hq. unfold existing_index. cbn [existing_aux nth_error hdr0 headers map pyval_eqb].
      destruct (String.eqb_spec "Parchment ID" q) as [<-|_]; [|reflexivity].
      exfalso. apply Hp. apply (Permutation_in _ (Permutation_sym (sort_by_perm (fun s => s) _))). exact Hq.
  Qed.

  (** A run on that sheet, for a store with the same identifiers, rewrites
      every row in place. *)
Lemma mirror_rerun m m' c c' :
    NoDup (map fst m) -> map fst m' = map fst m ->
    mirror (hdr0 :: rows_of m c (sort_by (fun s => s) (map fst m))) m' c' =
    Ok (hdr0 :: rows_of m' c' (sort_by (fun s => s) (map fst m))).
  Proof.
    intros Hd Hk. set (K := sort_by (fun s => s) (map fst m)).
    assert (HK : NoDup K) by (eapply Permutation_NoDup; [apply sort_by_perm|exact Hd]).
    unfold mirror_core. cbv zeta.
    change (init_rows (hdr0 :: rows_of m c K)) with (hdr0 :: rows_of m c K).
    change (hd [] (hdr0 :: rows_of m c K)) with hdr0.
    change (col_index hdr0 "Parchment ID") with (Some 0). cbv iota beta.
    rewrite Hk. fold K.
    rewrite (apply_entries_update _ K m' c' [] (rows_of m c K)).
    - cbn [tl app]. rewrite sort_rows_rows_of by apply keys_sorted. reflexivity.
    - intros t q Ht. unfold existing_index. cbn [existing_aux].
      rewrite (existing_present m q K c t 1 _ HK Ht). reflexivity.
    - apply rows_of_length.
    - apply rows_of_full.
  Qed.

End SheetProofs.

Section SheetGeneral.
  Context (minute_of : nat -> string).


  (** *** [set_cell] and [update_row] *)















  (** *** [list_update] *)





  (** *** [extend_headers] *)






  (** *** [existing_ids] *)







  (** *** [apply_entries] *)

  (** *** The last row with a given identifier *)









  (** *** Rows that are re-filled with the same columns *)



  (** *** The rows [apply_entries] writes *)











  (** *** Lists compared row by row *)



Lemma existsb_perm {A} (f : A -> bool) l l' : Permutation l l' -> existsb f l = existsb f l'.
  Proof.
    induction 1; simpl; try congruence.
    rewrite !orb_assoc, (orb_comm (f y)). reflexivity.
  Qed.
  (** *** One run of the mirror on any sheet *)









End SheetGeneral.

(** ** Whole runs: the Drive script and the Photos-album variant *)

Section Runs.
  Context (img : Type) (imdecode : bytes -> res (option img))
    (zbar_decode : img -> res (list symbol)) (utf8_decode : bytes -> option string)
    (img_shape : img -> Z * Z) (img_slice : img -> Z -> Z -> Z -> Z -> img)
    (resize : img -> Z -> Z -> res img) (thumb_height : Z -> Z -> Z)
    (imwrite : string -> img -> res bool) (extract_exif : bytes -> string * string)
    (parse_zip : bytes -> option (list zentry)) (build_zip : list zentry -> bytes)
    (drive_update : string -> bytes -> res unit) (iso_of : nat -> string)
    (images_dir thumbs_dir : string) (folder_pages : string -> list (res (list asset)))
    (drive_get_owners : string -> res (list (option string)))
    (drive_find_by_name : string -> res (list (option (list (option string)))))
    (drive_create_thumb : string -> string -> string -> res string)
    (minute_of : nat -> string) (find_thumbs_folder : res (list string))
    (create_thumbs_folder : res string) (to_gray : img -> res img)
    (http_get : string -> res (option bytes)) (album_pages : string -> list (res (list pitem))).

  Local Abbreviation main :=
    (main_run img imdecode zbar_decode utf8_decode img_shape img_slice resize thumb_height
       imwrite extract_exif parse_zip build_zip drive_update iso_of images_dir thumbs_dir
       folder_pages drive_get_owners drive_find_by_name drive_create_thumb minute_of
       find_thumbs_folder create_thumbs_folder).
  Local Abbreviation album :=
    (sync_album img imdecode zbar_decode utf8_decode img_shape img_slice to_gray http_get
       album_pages images_dir).
  Local Abbreviation pim :=
    (process_image img imdecode zbar_decode utf8_decode img_shape img_slice resize
       thumb_height imwrite extract_exif images_dir thumbs_dir).
  Local Abbreviation zl :=
    (zip_loop img imdecode zbar_decode utf8_decode img_shape img_slice resize thumb_height
       imwrite extract_exif iso_of images_dir thumbs_dir).
  Local Abbreviation ai :=
    (album_item img imdecode zbar_decode utf8_decode img_shape img_slice to_gray http_get
       images_dir).



  (** C3 (amended): the Drive script ([main]) writes the mapping file once
      per run: its events are [t1] then [t2], where [t1] holds every download
      and every match of the run and no save, and [t2] is the single save,
      made when the run gets past the folder scan, the healing pass and the
      upload pass (absent, with the file unchanged, when it raised before).
      The Photos-album variant ([sync_album]) saves right after each match:
      in the events of any run, every [EvMatch] is immediately followed by
      an [EvSave]. *)
Theorem mapping_saved_per_run_or_per_match :
    (forall tfs tf gs w r w',
       main tfs tf gs w = (r, w') ->
       exists t1 t2,
         w_trace w' = w_trace w ++ t1 ++ t2 /\ ~ In EvSave t1 /\
         (t2 = [] \/ t2 = [EvSave]) /\ (r = Ok tt -> t2 = [EvSave]) /\
         (t2 = [] -> w_saved w' = w_saved w)) /\
    (forall album_id arch w r w',
       sync_album img imdecode zbar_decode utf8_decode img_shape img_slice to_gray http_get
         album_pages images_dir album_id arch w = (r, w') ->
       exists t, w_trace w' = w_trace w ++ t /\
         forall i q, nth_error t i = Some (EvMatch q) -> nth_error t (S i) = Some EvSave).
  Proof.
    split.
    - intros tfs tf gs w r w' H. exact (main_run_saves_once _ _ _ _ _ _ _ _ _ _ _ _ _ _ _ _
        _ _ _ _ _ _ _ _ _ _ _ _ _ H).
    - intros album_id arch w r w' H.
      destruct (sync_album_saves _ _ _ _ _ _ _ _ _ _ album_id arch w r w' H) as [t [Et Bt]].
      exists t. split; [exact Et|]. apply saved_blocks_nth. exact Bt.
  Qed.

End Runs.

(** * Further properties of the code *)

Lemma dict_get_in_keys {V} (k : string) (d : list (string * V)) v :
    dict_get k d = Some v -> In k (map fst d).
  Proof.
    induction d as [|[k1 v1] d IH]; simpl; [discriminate|].
    destruct (String.eqb k k1) eqn:E; [apply String.eqb_eq in E; auto | auto].
  Qed.

Lemma dict_get_some_of_in {V} (k : string) (d : list (string * V)) :
    In k (map fst d) -> exists v, dict_get k d = Some v.
  Proof.
    induction d as [|[k1 v1] d IH]; simpl; [tauto|].
    destruct (String.eqb k k1) eqn:E; [eauto|].
    intros [->|H]; [rewrite String.eqb_refl in E; discriminate | auto].
  Qed.

Lemma dict_get_of_in_nodup {V} (k : string) (v : V) d :
    NoDup (map fst d) -> In (k, v) d -> dict_get k d = Some v.
  Proof.
    induction d as [|[k1 v1] d IH]; simpl; [tauto|].
    intros Hn [E|H]; inversion Hn as [|? ? Hnot Hn']; subst.
    - inversion E; subst. rewrite String.eqb_refl. reflexivity.
    - destruct (String.eqb k k1) eqn:E.
      + apply String.eqb_eq in E. subst. exfalso. apply Hnot.
        change k1 with (fst (k1, v)). apply in_map. exact H.
      + auto.
  Qed.

Lemma nodup_set {V} (k : string) (v : V) d : NoDup (map fst d) -> NoDup (map fst (dict_set k v d)).
  Proof.
    intros Hn. destruct (dict_get k d) as [e|] eqn:E.
    - rewrite (dict_set_keys_present _ _ _ _ E). exact Hn.
    - rewrite (dict_set_keys_absent _ _ _ E). apply NoDup_app; auto.
      + constructor; [auto | constructor].
      + intros x Hx [<-|[]]. exact (dict_get_none_notin _ _ E Hx).
  Qed.

Section GapProofs.
  (** The parse of an identifier whose [int(num)] returns. *)
  Variable search : string -> option (string * Z).

  (** The grouping loop when no [int] raises. *)
Definition group_total (ids : list string) : list (string * list Z) :=
    fold_left (fun acc qid => match search qid with
                              | Some (pref, n) => add_num pref n acc
                              | None => acc
                              end) ids [].

  (** The invariant of the grouping loop after the identifiers [done]. *)
Definition groups_inv (done : list string) (acc : list (string * list Z)) : Prop :=
    NoDup (map fst acc) /\
    forall p, match dict_get p acc with
              | Some nums => nums <> [] /\
                  forall n, In n nums <-> exists q, In q done /\ search q = Some (p, n)
              | None => forall q n, In q done -> search q <> Some (p, n)
              end.

Lemma add_num_get p n acc p' :
    dict_get p' (add_num p n acc) =
      if String.eqb p' p
      then Some ((match dict_get p acc with Some l => l | None => [] end) ++ [n])%list
      else dict_get p' acc.
  Proof.
    unfold add_num, dict_mem. destruct (dict_get p acc) as [l|] eqn:E.
    - rewrite dict_get_set. destruct (String.eqb p' p); [rewrite E|]; reflexivity.
    - rewrite dict_get_set. destruct (String.eqb p' p) eqn:E'.
      + rewrite dict_get_set, String.eqb_refl. reflexivity.
      + rewrite dict_get_set, E'. reflexivity.
  Qed.

Lemma add_num_nodup p n acc : NoDup (map fst acc) -> NoDup (map fst (add_num p n acc)).
  Proof.
    intros H. unfold add_num. apply nodup_set.
    destruct (dict_mem p acc); [exact H | apply nodup_set; exact H].
  Qed.

Lemma groups_inv_step done acc qid :
    groups_inv done acc ->
    groups_inv (done ++ [qid])
      (match search qid with Some (pref, n) => add_num pref n acc | None => acc end).
  Proof.
    intros [Hn Hg]. destruct (search qid) as [[pref n]|] eqn:Es.
    - split; [apply add_num_nodup; exact Hn|]. intros p.
      rewrite add_num_get. destruct (String.eqb p pref) eqn:Ep.
      + apply String.eqb_eq in Ep. subst p. specialize (Hg pref).
        split; [destruct (dict_get pref acc); intros C; symmetry in C; exact (app_cons_not_nil _ _ _ C)|].
        intros k. rewrite in_app_iff. simpl.
        destruct (dict_get pref acc) as [l|].
        * destruct Hg as [_ Hg]. rewrite Hg. split.
          -- intros [[q [Hq Hs]]|[<-|[]]].
             ++ exists q. rewrite in_app_iff. auto.
             ++ exists qid. rewrite in_app_iff. simpl. auto.
          -- intros [q [Hq Hs]]. rewrite in_app_iff in Hq. simpl in Hq.
             destruct Hq as [Hq|[<-|[]]]; [left; eauto | right; left; congruence].
        * simpl. split.
          -- intros [[]|[<-|[]]]. exists qid. rewrite in_app_iff. simpl. auto.
          -- intros [q [Hq Hs]]. rewrite in_app_iff in Hq. simpl in Hq.
             destruct Hq as [Hq|[<-|[]]]; [exfalso; exact (Hg q k Hq Hs) | right; left; congruence].
      + specialize (Hg p). destruct (dict_get p acc) as [l|].
        * destruct Hg as [Hne Hg]. split; [exact Hne|]. intros k. rewrite Hg. split.
          -- intros [q [Hq Hs]]. exists q. rewrite in_app_iff. auto.
          -- intros [q [Hq Hs]]. rewrite in_app_iff in Hq. simpl in Hq.
             destruct Hq as [Hq|[<-|[]]]; [eauto|].
             rewrite Es in Hs. injection Hs as -> _. rewrite String.eqb_refl in Ep. discriminate.
        * intros q k Hq Hs. rewrite in_app_iff in Hq. simpl in Hq.
          destruct Hq as [Hq|[<-|[]]]; [exact (Hg q k Hq Hs)|].
          rewrite Es in Hs. injection Hs as -> _. rewrite String.eqb_refl in Ep. discriminate.
    - split; [exact Hn|]. intros p. specialize (Hg p). destruct (dict_get p acc) as [l|].
      + destruct Hg as [Hne Hg]. split; [exact Hne|]. intros k. rewrite Hg. split.
        * intros [q [Hq Hs]]. exists q. rewrite in_app_iff. auto.
        * intros [q [Hq Hs]]. rewrite in_app_iff in Hq. simpl in Hq.
          destruct Hq as [Hq|[<-|[]]]; [eauto | congruence].
      + intros q k Hq Hs. rewrite in_app_iff in Hq. simpl in Hq.
        destruct Hq as [Hq|[<-|[]]]; [exact (Hg q k Hq Hs) | congruence].
  Qed.

Lemma group_total_inv ids : groups_inv ids (group_total ids).
  Proof.
    unfold group_total.
    assert (G : forall done acc, groups_inv done acc ->
              groups_inv (done ++ ids)
                (fold_left (fun acc qid => match search qid with
                                           | Some (pref, n) => add_num pref n acc
                                           | None => acc
                                           end) ids acc)).
    { induction ids as [|qid ids IH]; intros done acc H; simpl.
      - rewrite app_nil_r. exact H.
      - replace ((done ++ qid :: ids)%list) with (((done ++ [qid]) ++ ids)%list)
          by (rewrite <- app_assoc; reflexivity).
        apply IH. apply groups_inv_step. exact H. }
    apply (G []). split; [constructor|]. intros p. simpl. intros q n [].
  Qed.

  (** *** [min], [max] and the range *)

Lemma fold_min_le r x : forall y, In y (x :: r) -> (fold_left Z.min r x <= y)%Z.
  Proof.
    revert x. induction r as [|z r IH]; intros x y Hy; simpl in *.
    - destruct Hy as [E|[]]. lia.
    - pose proof (IH (Z.min x z) (Z.min x z) (or_introl eq_refl)) as H0.
      destruct Hy as [E|[E|Hy]]; [lia | lia | apply IH; right; exact Hy].
  Qed.

Lemma fold_min_in r x : In (fold_left Z.min r x) (x :: r).
  Proof.
    revert x. induction r as [|z r IH]; intros x; simpl; [auto|].
    destruct (IH (Z.min x z)) as [E|H]; [|auto].
    rewrite <- E. destruct (Z.min_spec x z) as [[_ ->]|[_ ->]]; auto.
  Qed.

Lemma fold_max_ge r x : forall y, In y (x :: r) -> (y <= fold_left Z.max r x)%Z.
  Proof.
    revert x. induction r as [|z r IH]; intros x y Hy; simpl in *.
    - destruct Hy as [E|[]]. lia.
    - pose proof (IH (Z.max x z) (Z.max x z) (or_introl eq_refl)) as H0.
      destruct Hy as [E|[E|Hy]]; [lia | lia | apply IH; right; exact Hy].
  Qed.

Lemma fold_max_in r x : In (fold_left Z.max r x) (x :: r).
  Proof.
    revert x. induction r as [|z r IH]; intros x; simpl; [auto|].
    destruct (IH (Z.max x z)) as [E|H]; [|auto].
    rewrite <- E. destruct (Z.max_spec x z) as [[_ ->]|[_ ->]]; auto.
  Qed.

Lemma zrange_in lo hi k : In k (zrange lo hi) <-> (lo <= k <= hi)%Z.
  Proof.
    unfold zrange. rewrite in_map_iff. split.
    - intros [j [<- Hj]]. apply in_seq in Hj. lia.
    - intros H. exists (Z.to_nat (k - lo)). split; [lia|]. apply in_seq. lia.
  Qed.

Lemma seq_sorted_Z lo start len :
    StronglySorted Z.lt (map (fun k => lo + Z.of_nat k)%Z (seq start len)).
  Proof.
    revert start. induction len as [|len IH]; intros start; simpl; constructor; [apply IH|].
    apply Forall_forall. intros x Hx. apply in_map_iff in Hx.
    destruct Hx as [j [<- Hj]]. apply in_seq in Hj. lia.
  Qed.

Lemma filter_sorted {A} (R : A -> A -> Prop) (f : A -> bool) l :
    StronglySorted R l -> StronglySorted R (filter f l).
  Proof.
    induction 1 as [|x l Hs IH Hf]; simpl; [constructor|].
    destruct (f x); [|exact IH]. constructor; [exact IH|].
    rewrite Forall_forall in *. intros y Hy. apply filter_In in Hy. apply Hf. apply Hy.
  Qed.

  (** The line for one group. *)
Lemma gap_line_spec pref nums :
    nums <> [] ->
    exists lo hi,
      (forall y, In y nums -> lo <= y <= hi)%Z /\ In lo nums /\ In hi nums /\
      gap_line pref nums =
        Ok (match filter (fun k => negb (existsb (Z.eqb k) nums)) (zrange lo hi) with
            | [] => NoGaps pref
            | _ :: _ => GapsDetected pref
                          (firstn 10 (filter (fun k => negb (existsb (Z.eqb k) nums)) (zrange lo hi)))
            end).
  Proof.
    destruct nums as [|x r]; [congruence|]. intros _.
    exists (fold_left Z.min r x), (fold_left Z.max r x).
    split; [intros y Hy; split; [apply fold_min_le | apply fold_max_ge]; exact Hy|].
    split; [apply fold_min_in|]. split; [apply fold_max_in|]. reflexivity.
  Qed.

Lemma missing_in nums lo hi k :
    In k (filter (fun k => negb (existsb (Z.eqb k) nums)) (zrange lo hi)) <->
    (lo <= k <= hi)%Z /\ ~ In k nums.
  Proof.
    rewrite filter_In, zrange_in. rewrite negb_true_iff.
    split.
    - intros [H1 H2]. split; [exact H1|]. intros Hin.
      assert (existsb (Z.eqb k) nums = true) by (apply existsb_exists; exists k; split; [exact Hin | apply Z.eqb_refl]).
      congruence.
    - intros [H1 H2]. split; [exact H1|]. destruct (existsb (Z.eqb k) nums) eqn:E; [|reflexivity].
      apply existsb_exists in E. destruct E as [y [Hy Ey]]. apply Z.eqb_eq in Ey. subst. tauto.
  Qed.

  (** The lines logged for the groups: one per group, never the [except] one. *)
Lemma gap_lines_map groups :
    (forall p nums, In (p, nums) groups -> nums <> []) ->
    exists L, gap_lines groups = L /\ map log_prefix L = map (fun g => Some (fst g)) groups /\
      ~ In GapSkipped L /\
      forall l, In l L -> exists p nums, In (p, nums) groups /\ gap_line p nums = Ok l.
  Proof.
    induction groups as [|[p nums] gs IH]; intros H; simpl.
    - exists []. simpl. repeat split; auto. intros l [].
    - destruct (gap_line_spec p nums (H p nums (or_introl eq_refl))) as [lo [hi [_ [_ [_ E]]]]].
      rewrite E.
      destruct IH as [L [EL [ML [NL HL]]]]; [intros p' n' Hi; apply (H p' n'); right; exact Hi|].
      rewrite EL. eexists. split; [reflexivity|]. simpl. rewrite ML.
      split; [f_equal; destruct (filter _ _); reflexivity|].
      split.
      + intros [C|C]; [destruct (filter _ _); discriminate | exact (NL C)].
      + intros l [<-|Hl].
        * exists p, nums. split; [left; reflexivity | exact E].
        * destruct (HL l Hl) as [p' [n' [Hi Ep]]]. exists p', n'. split; [right; exact Hi | exact Ep].
  Qed.

Lemma groups_facts ids :
    let G := group_total ids in
    NoDup (map fst G) /\
    (forall p nums, In (p, nums) G -> nums <> [] /\
        forall n, In n nums <-> exists q, In q ids /\ search q = Some (p, n)) /\
    (forall p, In p (map fst G) <-> exists q n, In q ids /\ search q = Some (p, n)).
  Proof.
    intros G. destruct (group_total_inv ids) as [Hn Hg]. fold G in Hn, Hg.
    split; [exact Hn|]. split.
    - intros p nums Hin. specialize (Hg p). rewrite (dict_get_of_in_nodup _ _ _ Hn Hin) in Hg. exact Hg.
    - intros p. split.
      + intros Hin. destruct (dict_get_some_of_in _ _ Hin) as [nums E].
        specialize (Hg p). rewrite E in Hg. destruct Hg as [Hne Hg].
        destruct nums as [|n r]; [congruence|]. destruct (proj1 (Hg n) (or_introl eq_refl)) as [q Hq].
        exists q, n. exact Hq.
      + intros [q [n [Hq Hs]]]. specialize (Hg p). destruct (dict_get p G) as [nums|] eqn:E.
        * eapply dict_get_in_keys. exact E.
        * exfalso. exact (Hg q n Hq Hs).
  Qed.

Lemma sorted_keys_in (m : store) q : In q (sort_by (fun s => s) (map fst m)) <-> In q (map fst m).
  Proof.
    pose proof (sort_by_perm (fun s : string => s) (map fst m)) as P.
    split; intros H; [apply (Permutation_in _ (Permutation_sym P)) | apply (Permutation_in _ P)]; exact H.
  Qed.
End GapProofs.

Lemma nodup_map_some {A} (l : list A) : NoDup l -> NoDup (map Some l).
Proof.
  induction 1 as [|x l Hx Hn IH]; simpl; constructor; [|exact IH].
  rewrite in_map_iff. intros [y [E Hy]]. injection E as ->. exact (Hx Hy).
Qed.

(** The lines of the loop over the prefixes, for any parse of the identifiers. *)
Lemma body_one_line_per_prefix search (m : store) :
  ~ In GapStart (gap_lines (group_total search (sort_by (fun s => s) (map fst m)))) /\
  ~ In GapSkipped (gap_lines (group_total search (sort_by (fun s => s) (map fst m)))) /\
  NoDup (map log_prefix (gap_lines (group_total search (sort_by (fun s => s) (map fst m))))) /\
  (forall p, In (Some p) (map log_prefix (gap_lines (group_total search (sort_by (fun s => s) (map fst m))))) <->
             exists q n, In q (map fst m) /\ search q = Some (p, n)).
Proof.
  set (ids := sort_by (fun s => s) (map fst m)).
  destruct (groups_facts search ids) as [Hn [Hg Hk]].
  destruct (gap_lines_map (group_total search ids)) as [L [EL [ML [NL _]]]];
    [intros p nums Hi; exact (proj1 (Hg p nums Hi))|].
  rewrite EL, ML. replace (map (fun g => Some (fst g)) (group_total search ids))
    with (map Some (map fst (group_total search ids))) by (rewrite map_map; reflexivity).
  split; [intros C; apply (in_map log_prefix) in C; rewrite ML in C;
          apply in_map_iff in C; destruct C as [g [C _]]; discriminate|].
  split; [exact NL|]. split; [apply nodup_map_some; exact Hn|].
  intros p. rewrite in_map_iff. split.
  - intros [p' [E Hp]]. injection E as E. subst p'. destruct (proj1 (Hk p) Hp) as [q [n [Hq Hs]]].
    exists q, n. split; [apply (sorted_keys_in m q); exact Hq | exact Hs].
  - intros [q [n [Hq Hs]]]. exists p. split; [reflexivity|]. apply Hk.
    exists q, n. split; [apply (sorted_keys_in m q); exact Hq | exact Hs].
Qed.

(** The numbers reported missing for a prefix, for any parse. *)
Lemma body_missing search (m : store) (p : string) (shown : list Z) :
  In (GapsDetected p shown) (gap_lines (group_total search (sort_by (fun s => s) (map fst m)))) ->
  exists missing, shown = firstn 10 missing /\ missing <> [] /\
    StronglySorted Z.lt missing /\
    forall k, In k missing <->
      (exists q a, In q (map fst m) /\ search q = Some (p, a) /\ (a <= k)%Z) /\
      (exists q b, In q (map fst m) /\ search q = Some (p, b) /\ (k <= b)%Z) /\
      ~ (exists q, In q (map fst m) /\ search q = Some (p, k)).
Proof.
  set (ids := sort_by (fun s => s) (map fst m)).
  destruct (groups_facts search ids) as [Hn [Hg Hk]].
  destruct (gap_lines_map (group_total search ids)) as [L [EL [_ [_ HL]]]];
    [intros p' nums Hi; exact (proj1 (Hg p' nums Hi))|].
  rewrite EL. intros Hin. destruct (HL _ Hin) as [p' [nums [Hi E]]].
  destruct (Hg p' nums Hi) as [Hne Hnums].
  destruct (gap_line_spec p' nums Hne) as [lo [hi [Hb [Hlo [Hhi E']]]]].
  rewrite E' in E. injection E as E.
  set (miss := filter (fun k => negb (existsb (Z.eqb k) nums)) (zrange lo hi)) in E.
  assert (Hm : forall k, In k miss <-> (lo <= k <= hi)%Z /\ ~ In k nums) by (intros k; apply missing_in).
  destruct miss as [|x r] eqn:Em; [discriminate|]. injection E as <- <-.
  exists (x :: r). split; [reflexivity|]. split; [discriminate|].
  split; [rewrite <- Em; apply filter_sorted; apply seq_sorted_Z|].
  assert (Hq : forall n, In n nums <-> exists q, In q (map fst m) /\ search q = Some (p', n)).
  { intros n. rewrite Hnums. split; intros [q [H1 H2]]; exists q; split; auto;
      apply (sorted_keys_in m q); exact H1. }
  intros k. rewrite Hm. split.
  - intros [[H1 H2] H3]. split; [|split].
    + destruct (proj1 (Hq lo) Hlo) as [q [H4 H5]]. exists q, lo. auto.
    + destruct (proj1 (Hq hi) Hhi) as [q [H4 H5]]. exists q, hi. auto.
    + rewrite <- Hq. exact H3.
  - intros [[qa [a [Ha1 [Ha2 Ha3]]]] [[qb [b [Hb1 [Hb2 Hb3]]]] Hn']].
    split; [|rewrite Hq; exact Hn'].
    assert (In a nums) by (apply Hq; eauto). assert (In b nums) by (apply Hq; eauto).
    pose proof (Hb a H). pose proof (Hb b H0). lia.
Qed.

(** A line without gaps, for any parse: the numbers of the prefix form a full range. *)
Lemma body_no_gaps search (m : store) (p : string) :
  In (NoGaps p) (gap_lines (group_total search (sort_by (fun s => s) (map fst m)))) ->
  forall qa a qb b k,
    In qa (map fst m) -> search qa = Some (p, a) ->
    In qb (map fst m) -> search qb = Some (p, b) ->
    (a <= k <= b)%Z ->
    exists q, In q (map fst m) /\ search q = Some (p, k).
Proof.
  set (ids := sort_by (fun s => s) (map fst m)).
  destruct (groups_facts search ids) as [Hn [Hg Hk]].
  destruct (gap_lines_map (group_total search ids)) as [L [EL [_ [_ HL]]]];
    [intros p' nums Hi; exact (proj1 (Hg p' nums Hi))|].
  rewrite EL. intros Hin qa a qb b k Ha1 Ha2 Hb1 Hb2 Hk'.
  destruct (HL _ Hin) as [p' [nums [Hi E]]].
  destruct (Hg p' nums Hi) as [Hne Hnums].
  destruct (gap_line_spec p' nums Hne) as [lo [hi [Hb [Hlo [Hhi E']]]]].
  rewrite E' in E. injection E as E.
  assert (Hm : forall k, In k (filter (fun k => negb (existsb (Z.eqb k) nums)) (zrange lo hi)) <->
                        (lo <= k <= hi)%Z /\ ~ In k nums) by (intros; apply missing_in).
  destruct (filter _ (zrange lo hi)) as [|x r] eqn:Em; [|discriminate].
  injection E as <-.
  assert (Hq : forall n, In n nums <-> exists q, In q (map fst m) /\ search q = Some (p', n)).
  { intros n. rewrite Hnums. split; intros [q [H1 H2]]; exists q; split; auto;
      apply (sorted_keys_in m q); exact H1. }
  apply Hq. destruct (In_dec Z.eq_dec k nums) as [H|H]; [exact H|].
  exfalso. pose proof (proj2 (Hm k)) as Hk2. rewrite ?Em in Hk2. apply Hk2.
  assert (In a nums) by (apply Hq; eauto). assert (In b nums) by (apply Hq; eauto).
  pose proof (Hb a H0). pose proof (Hb b H1). split; [lia | exact H].
Qed.

Lemma group_ids_split search ids :
  group_ids search ids =
    if existsb (int_raises search) ids then Exc else Ok (group_total (search_ok search) ids).
Proof.
  unfold group_ids, group_total.
  assert (X : forall l, fold_left (fun acc qid =>
                 match acc with
                 | Exc => Exc
                 | Ok prefixes =>
                     match search qid with
                     | Some (pref, Ok n) => Ok (add_num pref n prefixes)
                     | Some (_, Exc) => Exc
                     | None => Ok prefixes
                     end
                 end) l Exc = Exc)
    by (induction l as [|q l IH]; simpl; [reflexivity | exact IH]).
  generalize (@nil (string * list Z)). induction ids as [|q ids IH]; intros acc; simpl; [reflexivity|].
  unfold int_raises at 1, search_ok at 2.
  destruct (search q) as [[pref [n|]]|]; simpl; [apply IH | apply X | apply IH].
Qed.

Lemma search_ok_iff search q p n : search_ok search q = Some (p, n) <-> search q = Some (p, Ok n).
Proof.
  unfold search_ok. destruct (search q) as [[p' [n'|]]|]; split; intros H; try discriminate;
    injection H as <- <-; reflexivity.
Qed.

Lemma int_raises_iff search q : int_raises search q = true <-> exists p, search q = Some (p, Exc).
Proof.
  unfold int_raises. destruct (search q) as [[p' [n'|]]|]; split; intros H;
    try discriminate; try (destruct H; discriminate); eauto.
Qed.

Lemma gap_analysis_split search m :
  run_gap_analysis search m =
    GapStart ::
    if existsb (int_raises search) (sort_by (fun s => s) (map fst m)) then [GapSkipped]
    else gap_lines (group_total (search_ok search) (sort_by (fun s => s) (map fst m))).
Proof.
  unfold run_gap_analysis. rewrite group_ids_split.
  destruct (existsb _ _); reflexivity.
Qed.

Lemma raises_in_mapping search (m : store) :
  existsb (int_raises search) (sort_by (fun s => s) (map fst m)) = true <->
  exists q p, In q (map fst m) /\ search q = Some (p, Exc).
Proof.
  rewrite existsb_exists. split.
  - intros [q [Hq Hr]]. apply int_raises_iff in Hr. destruct Hr as [p Hr].
    exists q, p. split; [apply (sorted_keys_in m q); exact Hq | exact Hr].
  - intros [q [p [Hq Hr]]]. exists q. split; [apply (sorted_keys_in m q); exact Hq|].
    apply int_raises_iff. eauto.
Qed.

(** The lines of the gap analysis, for any parse of the identifiers: the
    first line, then either the line of the [except] branch, when an
    [int(num)] raises, or one line per prefix. *)
Lemma gap_one_line_per_prefix_gen search (m : store) :
  exists L, run_gap_analysis search m = GapStart :: L /\
  ((L = [GapSkipped] /\ exists q p, In q (map fst m) /\ search q = Some (p, Exc)) \/
   ((forall q p, In q (map fst m) -> search q <> Some (p, Exc)) /\
    ~ In GapStart L /\ ~ In GapSkipped L /\ NoDup (map log_prefix L) /\
    forall p, In (Some p) (map log_prefix L) <->
      exists q n, In q (map fst m) /\ search q = Some (p, Ok n))).
Proof.
  rewrite gap_analysis_split. eexists. split; [reflexivity|].
  destruct (existsb (int_raises search) _) eqn:E.
  - left. split; [reflexivity|]. apply raises_in_mapping. exact E.
  - right. split.
    { intros q p Hq Hs. assert (T : existsb (int_raises search) (sort_by (fun s => s) (map fst m)) = true)
        by (apply raises_in_mapping; eauto). congruence. }
    destruct (body_one_line_per_prefix (search_ok search) m) as [H1 [H2 [H3 H4]]].
    split; [exact H1|]. split; [exact H2|]. split; [exact H3|].
    intros p. rewrite H4. split; intros [q [n [Hq Hs]]]; exists q, n; split; try exact Hq;
      apply search_ok_iff; exact Hs.
Qed.

Lemma gap_body_of_line search m l :
  In l (run_gap_analysis search m) -> l <> GapStart -> l <> GapSkipped ->
  In l (gap_lines (group_total (search_ok search) (sort_by (fun s => s) (map fst m)))).
Proof.
  rewrite gap_analysis_split. intros [C|H] N1 N2; [congruence|].
  destruct (existsb _ _); [destruct H as [C|[]]; congruence | exact H].
Qed.

(** The numbers reported missing for a prefix, for any parse. *)
Lemma gap_missing_gen search (m : store) (p : string) (shown : list Z) :
  In (GapsDetected p shown) (run_gap_analysis search m) ->
  exists missing, shown = firstn 10 missing /\ missing <> [] /\
    StronglySorted Z.lt missing /\
    forall k, In k missing <->
      (exists q a, In q (map fst m) /\ search q = Some (p, Ok a) /\ (a <= k)%Z) /\
      (exists q b, In q (map fst m) /\ search q = Some (p, Ok b) /\ (k <= b)%Z) /\
      ~ (exists q, In q (map fst m) /\ search q = Some (p, Ok k)).
Proof.
  intros H. apply gap_body_of_line in H; [|discriminate|discriminate].
  destruct (body_missing (search_ok search) m p shown H) as [miss [E1 [E2 [E3 E4]]]].
  exists miss. split; [exact E1|]. split; [exact E2|]. split; [exact E3|].
  intros k. rewrite E4. split.
  - intros [[qa [a [A1 [A2 A3]]]] [[qb [b [B1 [B2 B3]]]] N]].
    split; [exists qa, a; rewrite <- search_ok_iff; auto|].
    split; [exists qb, b; rewrite <- search_ok_iff; auto|].
    intros [q [Q1 Q2]]. apply N. exists q. rewrite search_ok_iff. auto.
  - intros [[qa [a [A1 [A2 A3]]]] [[qb [b [B1 [B2 B3]]]] N]].
    split; [exists qa, a; rewrite search_ok_iff; auto|].
    split; [exists qb, b; rewrite search_ok_iff; auto|].
    intros [q [Q1 Q2]]. apply N. exists q. rewrite <- search_ok_iff. auto.
Qed.

(** A line without gaps, for any parse: the numbers of the prefix form a full range. *)
Lemma gap_no_gaps_gen search (m : store) (p : string) :
  In (NoGaps p) (run_gap_analysis search m) ->
  forall qa a qb b k,
    In qa (map fst m) -> search qa = Some (p, Ok a) ->
    In qb (map fst m) -> search qb = Some (p, Ok b) ->
    (a <= k <= b)%Z ->
    exists q, In q (map fst m) /\ search q = Some (p, Ok k).
Proof.
  intros H qa a qb b k A1 A2 B1 B2 K. apply gap_body_of_line in H; [|discriminate|discriminate].
  apply search_ok_iff in A2, B2.
  destruct (body_no_gaps (search_ok search) m p H qa a qb b k A1 A2 B1 B2 K) as [q [Q1 Q2]].
  exists q. rewrite <- search_ok_iff. auto.
Qed.

(** A parse by [id_search] whose [int(num)] raises: the digit group is
    longer than the limit. *)
Lemma id_search_raises q p :
  id_search q = Some (p, Exc) <->
  exists p' d, re_search q = Some (p', d) /\ p = ascii_string p' /\ (int_max_str_digits < length d)%nat.
Proof.
  unfold id_search, py_int. destruct (re_search q) as [[p' d]|]; split.
  - destruct (int_max_str_digits <? length d)%nat eqn:E; intros H; [|discriminate].
    injection H as <-. exists p', d. split; [reflexivity|]. split; [reflexivity|].
    apply Nat.ltb_lt. exact E.
  - intros [p0 [d0 [H1 [H2 H3]]]]. injection H1 as <- <-. subst p.
    apply Nat.ltb_lt in H3. rewrite H3. reflexivity.
  - discriminate.
  - intros [p0 [d0 [H1 _]]]. discriminate.
Qed.

(** X1 (run_gap_analysis): the gap analysis first logs "Running Gap
    Analysis...".  When the digit group of some identifier is longer than
    [int] accepts, its [except] branch logs the only other line; otherwise
    it logs exactly one line per prefix that [re.search] finds in an
    identifier of the mapping, and no other line. *)
Theorem gap_analysis_one_line_per_prefix (m : store) :
  exists L, run_gap_analysis id_search m = GapStart :: L /\
  ((L = [GapSkipped] /\
    exists q p d, In q (map fst m) /\ re_search q = Some (p, d) /\
      (int_max_str_digits < length d)%nat) \/
   ((forall q p d, In q (map fst m) -> re_search q = Some (p, d) ->
      (length d <= int_max_str_digits)%nat) /\
    ~ In GapStart L /\ ~ In GapSkipped L /\ NoDup (map log_prefix L) /\
    forall p, In (Some p) (map log_prefix L) <->
      exists q n, In q (map fst m) /\ id_search q = Some (p, Ok n))).
Proof.
  destruct (gap_one_line_per_prefix_gen id_search m) as [L [E [[H1 [q [p [Hq Hs]]]]|[H1 H2]]]];
    exists L; split; try exact E.
  - left. split; [exact H1|]. apply id_search_raises in Hs. destruct Hs as [p' [d [Hr [_ Hl]]]].
    exists q, p', d. auto.
  - right. split; [|exact H2]. intros q p d Hq Hr.
    destruct (Nat.le_gt_cases (length d) int_max_str_digits) as [Hl|Hl]; [exact Hl|].
    exfalso. apply (H1 q (ascii_string p) Hq). apply id_search_raises. exists p, d. auto.
Qed.

(** X2 (run_gap_analysis): a warning for prefix [p] shows the first ten, in
    increasing order, of the numbers that lie between the least and the
    greatest number found with prefix [p] and that no identifier carries. *)
Theorem gap_analysis_missing (m : store) (p : string) (shown : list Z) :
  In (GapsDetected p shown) (run_gap_analysis id_search m) ->
  exists missing, shown = firstn 10 missing /\ missing <> [] /\
    StronglySorted Z.lt missing /\
    forall k, In k missing <->
      (exists q a, In q (map fst m) /\ id_search q = Some (p, Ok a) /\ (a <= k)%Z) /\
      (exists q b, In q (map fst m) /\ id_search q = Some (p, Ok b) /\ (k <= b)%Z) /\
      ~ (exists q, In q (map fst m) /\ id_search q = Some (p, Ok k)).
Proof. exact (gap_missing_gen id_search m p shown). Qed.

(** X3 (run_gap_analysis): a "No gaps" line for prefix [p] means that every
    number between two numbers found with prefix [p] is carried by an
    identifier of the mapping with that prefix. *)
Theorem gap_analysis_no_gaps (m : store) (p : string) :
  In (NoGaps p) (run_gap_analysis id_search m) ->
  forall qa a qb b k,
    In qa (map fst m) -> id_search qa = Some (p, Ok a) ->
    In qb (map fst m) -> id_search qb = Some (p, Ok b) ->
    (a <= k <= b)%Z ->
    exists q, In q (map fst m) /\ id_search q = Some (p, Ok k).
Proof. exact (gap_no_gaps_gen id_search m p). Qed.

Section ParseProofs.

Section ParseLemmas.

Lemma run_len_lt_firstn f s k : k <= run_len f s -> Forall (fun c => f c = true) (firstn k s).
Proof.
  revert k. induction s as [|c s IH]; intros k Hk; destruct k as [|k]; simpl in *;
    try apply Forall_nil.
  destruct (f c) eqn:E; [|lia]. constructor; [exact E | apply IH; lia].
Qed.

Lemma run_len_le_length f s : run_len f s <= length s.
Proof. induction s as [|c s IH]; simpl; [lia|]. destruct (f c); simpl; lia. Qed.

Lemma skipn_cons_nth {A} k (s : list A) c post : skipn k s = c :: post -> nth_error s k = Some c.
Proof.
  revert k. induction s as [|c0 s IH]; intros k; destruct k as [|k]; simpl; try discriminate.
  - intros H. injection H as -> _. reflexivity.
  - apply IH.
Qed.

Lemma run_len_stop f s c : nth_error s (run_len f s) = Some c -> f c = false.
Proof.
  induction s as [|c0 s IH]; simpl; [destruct (f _); discriminate|].
  destruct (f c0) eqn:E; simpl; [exact IH|]. intros H. injection H as <-. exact E.
Qed.

Lemma run_len_app f a b :
  Forall (fun c => f c = true) a -> run_len f (a ++ b) = length a + run_len f b.
Proof.
  induction 1 as [|c a Hc Ha IH]; simpl; [reflexivity|]. rewrite Hc, IH. reflexivity.
Qed.

Lemma run_len_head_false f c s : f c = false -> run_len f (c :: s) = 0.
Proof. simpl. intros ->. reflexivity. Qed.

Lemma firstn_len_app {A} (a b : list A) : firstn (length a) (a ++ b) = a.
Proof. induction a as [|c a IH]; simpl; [reflexivity | rewrite IH; reflexivity]. Qed.

Lemma skipn_len_app {A} (a b : list A) : skipn (length a) (a ++ b) = b.
Proof. induction a as [|c a IH]; simpl; [reflexivity | exact IH]. Qed.

(** The decimal digits hold no ASCII letter and no dash. *)
Lemma pat_not_digit_table :
  forallb (fun n => negb (is_pat_char (Z.of_nat n) && is_digit (Z.of_nat n))) (seq 0 123) = true.
Proof. vm_compute. reflexivity. Qed.

Lemma digit_not_pat c : is_digit c = true -> is_pat_char c = false.
Proof.
  intros Hd. destruct (is_pat_char c) eqn:Hp; [|reflexivity]. exfalso.
  assert (R : (0 <= c <= 122)%Z).
  { unfold is_pat_char in Hp. repeat rewrite orb_true_iff in Hp. rewrite !andb_true_iff in Hp.
    rewrite !Z.leb_le, Z.eqb_eq in Hp. lia. }
  pose proof pat_not_digit_table as T. rewrite forallb_forall in T.
  specialize (T (Z.to_nat c)). rewrite in_seq, Z2Nat.id in T by lia.
  rewrite Hp, Hd in T. specialize (T ltac:(lia)). discriminate.
Qed.

Lemma backtrack_some k s r : backtrack k s = Some r -> exists j, 1 <= j <= k /\ try_len j s = Some r.
Proof.
  induction k as [|k IH]; simpl; [discriminate|].
  destruct (try_len (S k) s) eqn:E.
  - intros H. injection H as <-. exists (S k). split; [lia | exact E].
  - intros H. destruct (IH H) as [j [Hj Ej]]. exists j. split; [lia | exact Ej].
Qed.

(** The two groups of a match at the start of [s]. *)
Lemma match_at_sound s p d :
  match_at s = Some (p, d) ->
  exists post, s = p ++ d ++ post /\ p <> [] /\
    Forall (fun c => is_pat_char c = true) p /\
    d <> [] /\ Forall (fun c => is_digit c = true) d /\
    (forall c post', post = c :: post' -> is_digit c = false).
Proof.
  unfold match_at. intros H. destruct (backtrack_some _ _ _ H) as [j [Hj E]].
  unfold try_len in E. set (r := skipn j s) in E.
  destruct (run_len is_digit r) as [|nd'] eqn:Ed; [discriminate|].
  assert (Ep : p = firstn j s) by congruence. assert (Ed2 : d = firstn (S nd') r) by congruence.
  subst p d.
  pose proof (run_len_le_length is_pat_char s) as Ls. pose proof (run_len_le_length is_digit r) as Lr.
  exists (skipn (S nd') r). split; [|split; [|split; [|split; [|split]]]].
  - rewrite (firstn_skipn (S nd') r). unfold r. rewrite (firstn_skipn j s). reflexivity.
  - intros C. apply (f_equal (@length Z)) in C. rewrite length_firstn in C. cbn [length] in C. lia.
  - apply run_len_lt_firstn. lia.
  - intros C. apply (f_equal (@length Z)) in C. rewrite length_firstn in C. cbn [length] in C. lia.
  - apply run_len_lt_firstn. lia.
  - intros c post' Hp. apply (run_len_stop is_digit r c). rewrite Ed.
    apply (skipn_cons_nth _ _ _ _ Hp).
Qed.

(** A letter or dash directly followed by a digit at the start of [s]:
    where the first match starts. *)
Lemma match_at_adjacent c1 c2 post :
  is_pat_char c1 = true -> is_digit c2 = true -> match_at (c1 :: c2 :: post) <> None.
Proof.
  intros H1 H2. unfold match_at. simpl. rewrite H1, (digit_not_pat c2 H2). simpl.
  unfold try_len. simpl. rewrite H2. discriminate.
Qed.

Lemma try_len_cons j c s :
  try_len (S j) (c :: s) =
  match try_len j s with Some (a, b) => Some (c :: a, b) | None => None end.
Proof.
  unfold try_len. change (skipn (S j) (c :: s)) with (skipn j s).
  change (firstn (S j) (c :: s)) with (c :: firstn j s).
  destruct (run_len is_digit (skipn j s)); reflexivity.
Qed.

Lemma try_len_adjacent j s :
  1 <= j <= run_len is_pat_char s -> try_len j s <> None ->
  exists pre c1 c2 post, s = pre ++ c1 :: c2 :: post /\
    is_pat_char c1 = true /\ is_digit c2 = true.
Proof.
  revert j. induction s as [|c s IH]; intros j Hj Ht; simpl in Hj; [lia|].
  destruct (is_pat_char c) eqn:Ec; [|lia].
  destruct j as [|[|j]]; [lia| |].
  - unfold try_len in Ht. simpl in Ht.
    destruct s as [|c2 post]; simpl in Ht; [congruence|].
    destruct (is_digit c2) eqn:E2; [|congruence].
    exists [], c, c2, post. auto.
  - destruct (IH (S j)) as [pre [c1 [c2 [post [E [H1 H2]]]]]]; [lia| |].
    + rewrite try_len_cons in Ht. destruct (try_len (S j) s) as [[a b]|]; congruence.
    + exists (c :: pre), c1, c2, post. rewrite E. auto.
Qed.

Lemma search_codepoints_sound l p d :
  search_codepoints l = Some (p, d) ->
  exists pre post, l = pre ++ p ++ d ++ post /\ p <> [] /\
    Forall (fun c => is_pat_char c = true) p /\
    d <> [] /\ Forall (fun c => is_digit c = true) d /\
    (forall c post', post = c :: post' -> is_digit c = false).
Proof.
  induction l as [|c l IH]; simpl.
  - unfold match_at. simpl. discriminate.
  - destruct (match_at (c :: l)) as [[p' d']|] eqn:E.
    + intros H. injection H as -> ->. destruct (match_at_sound _ _ _ E) as [post Hp].
      exists [], post. exact Hp.
    + intros H. destruct (IH H) as [pre [post [Es R]]].
      exists (c :: pre), post. rewrite Es. split; [reflexivity | exact R].
Qed.

Lemma search_codepoints_none_iff l :
  search_codepoints l = None <->
  ~ exists pre c1 c2 post, l = pre ++ c1 :: c2 :: post /\
      is_pat_char c1 = true /\ is_digit c2 = true.
Proof.
  split.
  - intros H [pre [c1 [c2 [post [Es [H1 H2]]]]]]. subst l. revert H.
    induction pre as [|c pre IH]; simpl.
    + pose proof (match_at_adjacent c1 c2 post H1 H2) as A.
      destruct (match_at (c1 :: c2 :: post)); [discriminate | congruence].
    + destruct (match_at (c :: pre ++ c1 :: c2 :: post)); [discriminate | exact IH].
  - intros N. induction l as [|c l IH]; simpl.
    + reflexivity.
    + destruct (match_at (c :: l)) as [r|] eqn:E.
      * exfalso. apply N. unfold match_at in E.
        destruct (backtrack_some _ _ _ E) as [j [Hj Ej]].
        apply (try_len_adjacent j); [exact Hj | congruence].
      * apply IH. intros [pre [c1 [c2 [post [Es R]]]]]. apply N.
        exists (c :: pre), c1, c2, post. rewrite Es. split; [reflexivity | exact R].
Qed.

Lemma search_codepoints_prefix p d post :
  p <> [] -> Forall (fun c => is_pat_char c = true) p ->
  d <> [] -> Forall (fun c => is_digit c = true) d ->
  (forall c post', post = c :: post' -> is_digit c = false) ->
  search_codepoints (p ++ d ++ post) = Some (p, d).
Proof.
  intros Hp Hpc Hd Hdc Hpost.
  assert (T : try_len (length p) (p ++ d ++ post) = Some (p, d)).
  { unfold try_len. rewrite skipn_len_app, firstn_len_app, (run_len_app _ _ _ Hdc).
    assert (R0 : run_len is_digit post = 0)
      by (destruct post as [|c1 post']; [reflexivity | apply run_len_head_false; exact (Hpost c1 post' eq_refl)]).
    rewrite R0, Nat.add_0_r.
    destruct (length d) as [|n] eqn:L; [destruct d; simpl in L; congruence|].
    rewrite <- L, firstn_len_app. reflexivity. }
  assert (M : match_at (p ++ d ++ post) = Some (p, d)).
  { unfold match_at. rewrite (run_len_app _ _ _ Hpc).
    assert (R1 : run_len is_pat_char (d ++ post) = 0).
    { destruct d as [|c d']; [congruence|]. inversion Hdc as [|c0 l0 Hc0 _]; subst.
      apply run_len_head_false. apply digit_not_pat. exact Hc0. }
    rewrite R1, Nat.add_0_r.
    destruct (length p) as [|n] eqn:L; [destruct p; simpl in L; congruence|].
    cbn [backtrack]. rewrite T. reflexivity. }
  destruct (p ++ d ++ post) as [|c s] eqn:E.
  - unfold match_at in M. simpl in M. discriminate.
  - simpl. rewrite M. reflexivity.
Qed.

End ParseLemmas.

(** X4 (run_gap_analysis, [re.search(r'([A-Za-z-]+)(\d+)', qid)]): a match
    gives a non-empty run of ASCII letters and dashes directly followed,
    among the code points of the identifier, by a non-empty run of decimal
    digits (Unicode category Nd) that is not followed by another digit. *)
Theorem re_search_sound s p d :
  re_search s = Some (p, d) ->
  exists pre post, utf8_codepoints s = pre ++ p ++ d ++ post /\ p <> [] /\
    Forall (fun c => is_pat_char c = true) p /\
    d <> [] /\ Forall (fun c => is_digit c = true) d /\
    (forall c post', post = c :: post' -> is_digit c = false).
Proof. unfold re_search. apply search_codepoints_sound. Qed.

(** X5 (run_gap_analysis): the search finds no match exactly when no ASCII
    letter or dash of the identifier is directly followed by a decimal
    digit. *)
Theorem re_search_none_iff s :
  re_search s = None <->
  ~ exists pre c1 c2 post, utf8_codepoints s = pre ++ c1 :: c2 :: post /\
      is_pat_char c1 = true /\ is_digit c2 = true.
Proof. unfold re_search. apply search_codepoints_none_iff. Qed.

(** X6 (run_gap_analysis): an identifier whose code points are a run of
    ASCII letters and dashes, then decimal digits, then anything that does
    not start with a digit, is parsed as that prefix and [int] of those
    digits: ["A-007"] as [("A-", 7)], ["A1٣"] as [("A", 13)]. *)
Theorem id_search_prefix_number s p d post :
  utf8_codepoints s = p ++ d ++ post ->
  p <> [] -> Forall (fun c => is_pat_char c = true) p ->
  d <> [] -> Forall (fun c => is_digit c = true) d ->
  (forall c post', post = c :: post' -> is_digit c = false) ->
  id_search s = Some (ascii_string p, py_int d).
Proof.
  intros Es Hp Hpc Hd Hdc Hpost. unfold id_search, re_search.
  rewrite Es, (search_codepoints_prefix p d post Hp Hpc Hd Hdc Hpost). reflexivity.
Qed.
End ParseProofs.

Section MainExtra.
  Context (img : Type)
    (imdecode : bytes -> res (option img))
    (zbar_decode : img -> res (list symbol))
    (utf8_decode : bytes -> option string)
    (img_shape : img -> Z * Z)
    (img_slice : img -> Z -> Z -> Z -> Z -> img)
    (resize : img -> Z -> Z -> res img)
    (thumb_height : Z -> Z -> Z)
    (imwrite : string -> img -> res bool)
    (extract_exif : bytes -> string * string)
    (parse_zip : bytes -> option (list zentry))
    (build_zip : list zentry -> bytes)
    (drive_update : string -> bytes -> res unit)
    (iso_of : nat -> string)
    (images_dir thumbs_dir : string)
    (folder_pages : string -> list (res (list asset)))
    (drive_get_owners : string -> res (list (option string)))
    (drive_find_by_name : string -> res (list (option (list (option string)))))
    (drive_create_thumb : string -> string -> string -> res string)
    (minute_of : nat -> string)
    (find_thumbs_folder : res (list string))
    (create_thumbs_folder : res string).

  Local Abbreviation main :=
    (main_run img imdecode zbar_decode utf8_decode img_shape img_slice resize thumb_height
       imwrite extract_exif parse_zip build_zip drive_update iso_of images_dir thumbs_dir
       folder_pages drive_get_owners drive_find_by_name drive_create_thumb minute_of
       find_thumbs_folder create_thumbs_folder).
  Local Abbreviation pi :=
    (process_item img imdecode zbar_decode utf8_decode img_shape img_slice resize
       thumb_height imwrite extract_exif parse_zip build_zip drive_update iso_of images_dir
       thumbs_dir).
  Local Abbreviation il :=
    (items_loop img imdecode zbar_decode utf8_decode img_shape img_slice resize
       thumb_height imwrite extract_exif parse_zip build_zip drive_update iso_of images_dir
       thumbs_dir).
  Local Abbreviation pl :=
    (pages_loop img imdecode zbar_decode utf8_decode img_shape img_slice resize
       thumb_height imwrite extract_exif parse_zip build_zip drive_update iso_of images_dir
       thumbs_dir).
  Local Abbreviation pf :=
    (process_folder img imdecode zbar_decode utf8_decode img_shape img_slice resize
       thumb_height imwrite extract_exif parse_zip build_zip drive_update iso_of images_dir
       thumbs_dir folder_pages).
  Local Abbreviation sf :=
    (sync_folders img imdecode zbar_decode utf8_decode img_shape img_slice resize
       thumb_height imwrite extract_exif parse_zip build_zip drive_update iso_of images_dir
       thumbs_dir folder_pages).
  Local Abbreviation setup := (setup_thumbs_folder find_thumbs_folder create_thumbs_folder).

Lemma process_item_ok it c w r w' : pi it c w = (r, w') -> exists n, r = Ok n.
  Proof.
    unfold process_item, process_zip, process_image.
    cbv beta iota delta [bind ret gets try_]. intros H.
    destruct (contains "zip" (a_mime it)).
    - destruct (process_zip_body _ _ _ _ _ _ _ _ _ _ _ _ _ _ _ _ _ _ _ w) as [[a|] w1];
        injection H as <- _; eauto.
    - destruct (recorded_drive_id (w_mem w) (a_id it)); [injection H as <- _; eauto|].
      match type of H with context [match ?x with _ => _ end] => destruct x as [[a|] w1] end;
        injection H as <- _; eauto.
  Qed.

Lemma items_loop_ok items c w r w' : il items c w = (r, w') -> exists n, r = Ok n.
  Proof.
    revert c w. induction items as [|it rest IH]; simpl; intros c w H.
    - injection H as <- _. eauto.
    - unfold bind in H. destruct (pi it c w) as [r1 w1] eqn:E.
      destruct (process_item_ok _ _ _ _ _ E) as [n ->]. exact (IH _ _ H).
  Qed.

Lemma pages_loop_exc f ps c w r w' :
    pl f ps c w = (r, w') ->
    (r = Exc <-> exists pre post, ps = (pre ++ Exc :: post)%list /\
                   Forall (fun p => exists items, p = Ok items /\ items <> []) pre).
  Proof.
    revert c w. induction ps as [|p ps IH]; simpl; intros c w H.
    - injection H as <- _. split; [discriminate|].
      intros (pre & post & E & _). destruct pre; discriminate.
    - unfold emit, modify, bind in H. destruct p as [items|].
      + destruct items as [|it its].
        * injection H as <- _. split; [discriminate|].
          intros (pre & post & E & F). destruct pre as [|p0 pre]; [discriminate|].
          injection E as E1 _. subst p0. inversion F as [|? ? (items & Ei & Ne) _]; subst.
          injection Ei as <-. congruence.
        * destruct (il (it :: its) c _) as [[n|] w1] eqn:E.
          -- rewrite (IH _ _ H). split.
             ++ intros (pre & post & Ep & F). exists (Ok (it :: its) :: pre), post.
                rewrite Ep. split; [reflexivity|]. constructor; [|exact F].
                exists (it :: its). split; [reflexivity | discriminate].
             ++ intros (pre & post & Ep & F). destruct pre as [|p0 pre]; [discriminate|].
                injection Ep as E1 Ep. subst p0. inversion F; subst. eauto.
          -- destruct (items_loop_ok _ _ _ _ _ E) as [n Hn]. discriminate.
      + injection H as <- _. split; [|reflexivity]. intros _. exists [], ps. auto.
  Qed.

  (** X7 (process_folder): [process_folder] raises exactly when a listing
      request fails before any empty page; every error inside the processing
      of a file is caught. *)
Theorem process_folder_raises_iff f w r w' :
    process_folder img imdecode zbar_decode utf8_decode img_shape img_slice resize
       thumb_height imwrite extract_exif parse_zip build_zip drive_update iso_of images_dir
       thumbs_dir folder_pages f w = (r, w') ->
    (r = Exc <-> exists pre post, folder_pages f = (pre ++ Exc :: post)%list /\
                   Forall (fun p => exists items, p = Ok items /\ items <> []) pre).
  Proof. unfold process_folder. apply pages_loop_exc. Qed.

Lemma sync_folders_exc fs f total w r w' :
    In f fs ->
    (exists pre post, folder_pages f = (pre ++ Exc :: post)%list /\
        Forall (fun p => exists items, p = Ok items /\ items <> []) pre) ->
    sf fs total w = (r, w') -> r = Exc.
  Proof.
    revert total w. induction fs as [|f0 fs IH]; simpl; intros total w Hin Hf H; [tauto|].
    unfold bind in H. destruct (pf f0 w) as [[n|] w1] eqn:E; [|congruence].
    destruct Hin as [<-|Hin].
    - apply (pages_loop_exc f0 (folder_pages f0) 0 w (Ok n) w1 E) in Hf. discriminate.
    - exact (IH _ _ Hin Hf H).
  Qed.

  (** The mapping file and the sheet are left as they are. *)
Definition file_sheet_kept (w w' : world) : Prop :=
    w_saved w' = w_saved w /\ w_sheet w' = w_sheet w.

#[local] Instance file_sheet_kept_wrel : WRel file_sheet_kept.
  Proof. split; unfold file_sheet_kept; [auto | intros ? ? ? [] []; split; congruence]. Qed.

  (** X8 (main): a failed listing of a target folder aborts [main] before the
      save: the mapping file and the sheet are left as they were. *)
Theorem main_run_listing_failure tfs tf gs f w r w' :
    In f tfs ->
    (exists pre post, folder_pages f = (pre ++ Exc :: post)%list /\
        Forall (fun p => exists items, p = Ok items /\ items <> []) pre) ->
    main_run img imdecode zbar_decode utf8_decode img_shape img_slice resize thumb_height
       imwrite extract_exif parse_zip build_zip drive_update iso_of images_dir thumbs_dir
       folder_pages drive_get_owners drive_find_by_name drive_create_thumb minute_of
       find_thumbs_folder create_thumbs_folder tfs tf gs w = (r, w') ->
    r = Exc /\ w_saved w' = w_saved w /\ w_sheet w' = w_sheet w.
  Proof.
    intros Hin Hf H.
    assert (Rs : forall tf1, stays file_sheet_kept (setup tf1)).
    { intros. apply setup_R; try typeclasses eauto; intros; split; reflexivity. }
    assert (Rf : forall t0, stays file_sheet_kept (sf tfs t0)).
    { intros. apply sync_folders_R; try typeclasses eauto; intros; split; reflexivity. }
    unfold main_run in H. cbv beta delta [bind] in H.
    set (w1 := set_mem (match w_saved w with Some m => m | None => [] end) w) in H.
    change (modify _ w) with (@Ok unit tt, w1) in H. cbv beta iota in H.
    assert (K1 : file_sheet_kept w w1) by (split; reflexivity).
    destruct (setup tf w1) as [[tf1|] w2] eqn:E2; cbv beta iota in H;
      pose proof (wrel_trans _ _ _ K1 (Rs tf _ _ _ E2)) as K2;
      [| injection H as <- <-; destruct K2; auto].
    destruct (sf tfs 0 w2) as [[n|] w3] eqn:E3.
    - exfalso. pose proof (sync_folders_exc _ _ _ _ _ _ Hin Hf E3). discriminate.
    - cbv beta iota in H. injection H as <- <-.
      destruct (wrel_trans _ _ _ K2 (Rf 0 _ _ _ E3)). auto.
  Qed.
  (** *** The skip check over a whole run *)

  Local Abbreviation gen :=
    (generate_thumbnails img imdecode img_shape img_slice resize thumb_height imwrite thumbs_dir).
  Local Abbreviation pz :=
    (process_zip img imdecode zbar_decode utf8_decode img_shape img_slice resize
       thumb_height imwrite extract_exif parse_zip build_zip drive_update iso_of images_dir thumbs_dir).
  Local Abbreviation hd :=
    (heal_data img imdecode zbar_decode utf8_decode img_shape img_slice resize
       thumb_height imwrite extract_exif thumbs_dir).
  Local Abbreviation hc := (heal_creator drive_get_owners drive_find_by_name).
  Local Abbreviation hl :=
    (heal_loop img imdecode zbar_decode utf8_decode img_shape img_slice resize
       thumb_height imwrite extract_exif thumbs_dir drive_get_owners drive_find_by_name).
  Local Abbreviation hp :=
    (heal_pass img imdecode zbar_decode utf8_decode img_shape img_slice resize
       thumb_height imwrite extract_exif thumbs_dir drive_get_owners drive_find_by_name).
  Local Abbreviation bp := (backfill_pass drive_create_thumb).



















End MainExtra.

Section HealExtra.
  Context (img : Type)
    (imdecode : bytes -> res (option img))
    (zbar_decode : img -> res (list symbol))
    (utf8_decode : bytes -> option string)
    (img_shape : img -> Z * Z)
    (img_slice : img -> Z -> Z -> Z -> Z -> img)
    (resize : img -> Z -> Z -> res img)
    (thumb_height : Z -> Z -> Z)
    (imwrite : string -> img -> res bool)
    (extract_exif : bytes -> string * string)
    (thumbs_dir : string)
    (drive_get_owners : string -> res (list (option string)))
    (drive_find_by_name : string -> res (list (option (list (option string))))).

  Local Abbreviation gen :=
    (generate_thumbnails img imdecode img_shape img_slice resize thumb_height imwrite thumbs_dir).
  Local Abbreviation hd :=
    (heal_data img imdecode zbar_decode utf8_decode img_shape img_slice resize
       thumb_height imwrite extract_exif thumbs_dir).
  Local Abbreviation hc := (heal_creator drive_get_owners drive_find_by_name).
  Local Abbreviation hl :=
    (heal_loop img imdecode zbar_decode utf8_decode img_shape img_slice resize
       thumb_height imwrite extract_exif thumbs_dir drive_get_owners drive_find_by_name).
  Local Abbreviation hp :=
    (heal_pass img imdecode zbar_decode utf8_decode img_shape img_slice resize
       thumb_height imwrite extract_exif thumbs_dir drive_get_owners drive_find_by_name).

  (** *** An entry whose local path is [null] *)

Lemma heal_list_null l qs (m : store) q (e : entry) :
    In q qs -> dict_get q m = Some e -> dict_get "local_path" e = Some PNone ->
    fst (heal_list img imdecode zbar_decode utf8_decode img_shape img_slice resize thumb_height
           imwrite extract_exif thumbs_dir drive_get_owners drive_find_by_name l qs m) = Exc.
  Proof.
    revert m. induction qs as [|q1 qs IH]; intros m Hin He Hl; [destruct Hin|]. cbn [heal_list].
    destruct (dict_get q1 m) as [e1|] eqn:E1; [|reflexivity].
    destruct (String.eqb q1 q) eqn:Eq.
    - apply String.eqb_eq in Eq. subst q1. rewrite He in E1. injection E1 as <-.
      unfold hd_pure, get_or. rewrite Hl. reflexivity.
    - destruct (hd_pure _ _ _ _ _ _ _ _ _ _ _ l q1 e1) as [e2|]; [|reflexivity].
      apply IH; [destruct Hin as [->|Hin]; [rewrite String.eqb_refl in Eq; discriminate | exact Hin]| |exact Hl].
      rewrite dict_get_set_other; [exact He|]. intros ->. rewrite String.eqb_refl in Eq. discriminate.
  Qed.

  (** X9 (main, step 3): an entry of the mapping whose [local_path] is [null]
      makes the healing pass raise ([os.path.exists(None)] raises a TypeError
      outside the [try]). *)
Theorem heal_pass_null_local_path q (e : entry) w r w' :
    dict_get q (w_mem w) = Some e -> dict_get "local_path" e = Some PNone ->
    hp w = (r, w') -> r = Exc.
  Proof.
    intros He Hl H. unfold heal_pass in H. cbv [bind gets] in H.
    assert (Hc0 : cache_ok drive_find_by_name []) by (intros z v Hz; discriminate).
    destruct (hl_spec _ _ _ _ _ _ _ _ _ _ _ _ _ _ _ _ _ _ Hc0 H) as [_ Hp].
    assert (Hin : In q (map fst (w_mem w))) by (eapply dict_get_in_keys; exact He).
    pose proof (heal_list_null (w_local w) (map fst (w_mem w)) (w_mem w) q e Hin He Hl) as Hx.
    rewrite <- Hp in Hx. exact Hx.
  Qed.

  (** *** The [zip_owners] cache *)

Lemma drive_queries_app z t1 t2 : drive_queries z (t1 ++ t2) = drive_queries z t1 + drive_queries z t2.
  Proof. unfold drive_queries. rewrite filter_app, length_app. reflexivity. Qed.

Lemma drive_queries_none z t : Forall (fun ev => forall z', ev <> EvDriveQuery z') t -> drive_queries z t = 0.
  Proof.
    induction 1 as [|ev t Hev _ IH]; [reflexivity|]. unfold drive_queries in *. simpl.
    destruct ev; try exact IH. exfalso. exact (Hev _ eq_refl).
  Qed.

Lemma gen_no_query q b r : stays (trace_grows (fun ev => forall z', ev <> EvDriveQuery z')) (gen q b r).
  Proof.
    unfold generate_thumbnails, imwrite_m, emit. stays_walk; apply tg_event; intros ? ?; discriminate.
  Qed.

Lemma hd_no_query q : stays (trace_grows (fun ev => forall z', ev <> EvDriveQuery z')) (hd q).
  Proof.
    unfold heal_data, mem_entry, path_exists, read_local, item_set, detect, exif, emit.
    stays_walk; first [ apply tg_event; intros ? ?; discriminate | apply tg_same; reflexivity
                      | apply gen_no_query ].
  Qed.

Lemma dict_mem_set {V} z k (v : V) c : dict_mem z c = true -> dict_mem z (dict_set k v c) = true.
  Proof.
    unfold dict_mem. rewrite dict_get_set. destruct (String.eqb z k); [reflexivity|]. exact (fun H => H).
  Qed.

Lemma hc_queries z files v q c w r w' :
    drive_find_by_name z = Ok files -> zip_owner_of files = Ok v ->
    hc q c w = (r, w') ->
    exists t, w_trace w' = w_trace w ++ t /\
      drive_queries z t <= (if dict_mem z c then 0 else 1) /\
      (forall c', r = Ok c' ->
         (dict_mem z c = true -> dict_mem z c' = true) /\
         (drive_queries z t = 1 -> dict_mem z c' = true)).
  Proof.
    intros Ef Ev H.
    unfold heal_creator, mem_entry, item_set in H.
    cbv beta iota zeta delta [bind ret raise gets modify emit of_opt of_res try_] in H.
    assert (Nil : forall c', (r, w') = (Ok c', w) \/ (r, w') = (@Exc (list (string * string)), w) ->
                  r = Ok c' \/ r = Exc -> (forall c'', r = Ok c'' -> c'' = c) ->
                  exists t, w_trace w' = w_trace w ++ t /\
                    drive_queries z t <= (if dict_mem z c then 0 else 1) /\
                    (forall c', r = Ok c' -> (dict_mem z c = true -> dict_mem z c' = true) /\
                                           (drive_queries z t = 1 -> dict_mem z c' = true))).
    { intros c' Hw _ Hc. exists []. destruct Hw as [Hw|Hw]; injection Hw as -> ->;
        (split; [rewrite app_nil_r; reflexivity|]); (split; [destruct (dict_mem z c); unfold drive_queries; simpl; lia|]);
        intros c'' Hc''; (split; [intros Hm; rewrite (Hc c'' Hc''); exact Hm | unfold drive_queries; simpl; discriminate]). }
    destruct (dict_get q (w_mem w)) as [e|] eqn:He;
      [|apply (Nil c); [right; congruence | right; congruence | congruence]].
    destruct (negb (truthy (dict_get "creator" e)) || is_unknown (dict_get "creator" e));
      [|apply (Nil c); [left; congruence | left; congruence | congruence]].
    destruct (truthy (dict_get "drive_id" e)).
    - exists [EvDriveMeta (str_of (dict_get "drive_id" e))].
      destruct (drive_get_owners _) as [os|];
        [destruct (negb (String.eqb (creator_of os) "Unknown"))|];
        injection H as <- <-; cbn [w_trace set_mem add_event];
        (split; [reflexivity|]); (split; [unfold drive_queries; simpl; lia|]);
        intros c'' Hc''; injection Hc'' as <-; (split; [auto | unfold drive_queries; simpl; discriminate]).
    - destruct (truthy (dict_get "source_zip" e)).
      + destruct (dict_get (str_of (dict_get "source_zip" e)) c) as [v0|] eqn:Ez.
        * exists [].
          destruct (negb (String.eqb v0 "Unknown")); injection H as <- <-; cbn [w_trace set_mem];
            (split; [rewrite app_nil_r; reflexivity|]); (split; [destruct (dict_mem z c); unfold drive_queries; simpl; lia|]);
            intros c'' Hc''; injection Hc'' as <-; (split; [auto | unfold drive_queries; simpl; discriminate]).
        * remember (str_of (dict_get "source_zip" e)) as zn eqn:Ezn.
          exists [EvDriveQuery zn].
          assert (Cnt : drive_queries z [EvDriveQuery zn] = if String.eqb zn z then 1 else 0)
            by (unfold drive_queries; simpl; destruct (String.eqb zn z); reflexivity).
          destruct (String.eqb zn z) eqn:Ez'.
          -- apply String.eqb_eq in Ez'. rewrite Ez' in *.
             assert (Hm : dict_mem z c = false) by (unfold dict_mem; rewrite Ez; reflexivity).
             rewrite Hm. rewrite Ef, Ev in H.
             destruct (negb (String.eqb v "Unknown")); injection H as <- <-;
               cbn [w_trace set_mem add_event]; rewrite Cnt;
               (split; [reflexivity|]); (split; [lia|]);
               intros c'' Hc''; injection Hc'' as <-;
               (split; [discriminate | intros _; unfold dict_mem; rewrite dict_get_set, String.eqb_refl; reflexivity]).
          -- rewrite Cnt.
             assert (Keep : forall c'', c'' = c \/ (exists k v', c'' = dict_set k v' c) ->
                       (dict_mem z c = true -> dict_mem z c'' = true)).
             { intros c'' [->|(k & v' & ->)] Hm; [exact Hm | apply dict_mem_set; exact Hm]. }
             destruct (drive_find_by_name zn) as [fs|];
               [destruct (zip_owner_of fs) as [v1|];
                [destruct (negb (String.eqb v1 "Unknown"))|]|];
               injection H as <- <-; cbn [w_trace set_mem add_event];
               (split; [reflexivity|]); (split; [destruct (dict_mem z c); lia|]);
               intros c'' Hc''; injection Hc'' as <-;
               (split; [apply Keep; eauto | discriminate]).
      + exists [].
        rewrite String.eqb_refl in H. cbn [negb] in H. injection H as <- <-.
        (split; [rewrite app_nil_r; reflexivity|]); (split; [destruct (dict_mem z c); unfold drive_queries; simpl; lia|]).
        intros c'' Hc''; injection Hc'' as <-; (split; [auto | unfold drive_queries; simpl; discriminate]).
  Qed.

Lemma hl_queries z files v qs c w r w' :
    drive_find_by_name z = Ok files -> zip_owner_of files = Ok v ->
    hl qs c w = (r, w') ->
    exists t, w_trace w' = w_trace w ++ t /\ drive_queries z t <= (if dict_mem z c then 0 else 1).
  Proof.
    intros Ef Ev. revert c w. induction qs as [|q qs IH]; intros c w H; cbn [heal_loop] in H.
    - injection H as <- <-. exists []. rewrite app_nil_r. split; [reflexivity | destruct (dict_mem z c); unfold drive_queries; simpl; lia].
    - unfold bind at 1 in H.
      destruct (hd q w) as [r1 w1] eqn:E1.
      destruct (hd_no_query q w r1 w1 E1) as (t1 & Et1 & Ft1).
      pose proof (drive_queries_none z t1 Ft1) as Z1.
      destruct r1 as [u|]; [|injection H as <- <-; exists t1; split; [exact Et1 | rewrite Z1; lia]].
      unfold bind in H. destruct (hc q c w1) as [r2 w2] eqn:E2.
      destruct (hc_queries z files v q c w1 r2 w2 Ef Ev E2) as (t2 & Et2 & B2 & K2).
      destruct r2 as [c'|]; [|injection H as <- <-; exists (t1 ++ t2);
        rewrite Et2, Et1, app_assoc; split; [reflexivity|]; rewrite drive_queries_app; lia].
      destruct (K2 c' eq_refl) as [K2a K2b].
      destruct (IH c' w2 H) as (t3 & Et3 & B3).
      exists (t1 ++ t2 ++ t3). rewrite Et3, Et2, Et1, !app_assoc. split; [reflexivity|].
      rewrite !drive_queries_app, Z1.
      destruct (dict_mem z c) eqn:Hm.
      + rewrite (K2a eq_refl) in B3. lia.
      + destruct (drive_queries z t2) as [|[|k]] eqn:Q2.
        * destruct (dict_mem z c'); lia.
        * rewrite (K2b eq_refl) in B3. lia.
        * lia.
  Qed.

  (** X10 (main, step 3c): within one healing pass, the Drive is searched at
      most once for an archive name whose search succeeds: the owner found is
      cached in [zip_owners] and reused for every later entry of that archive. *)
Theorem heal_pass_zip_owner_cached z files v w r w' :
    drive_find_by_name z = Ok files -> zip_owner_of files = Ok v ->
    hp w = (r, w') ->
    exists t, w_trace w' = w_trace w ++ t /\ drive_queries z t <= 1.
  Proof.
    intros Ef Ev H. unfold heal_pass in H. cbv [bind gets] in H.
    exact (hl_queries z files v _ [] w r w' Ef Ev H).
  Qed.
End HealExtra.

Section BackfillExtra.
  Context (drive_create_thumb : string -> string -> string -> res string).

  Local Abbreviation up := (upload_thumbnail drive_create_thumb).
  Local Abbreviation be := (backfill_entry drive_create_thumb).
  Local Abbreviation bl := (backfill_loop drive_create_thumb).
  Local Abbreviation bp := (backfill_pass drive_create_thumb).

Lemma upload_spec f lp q t w r w' :
    up f lp q t w = (r, w') ->
    exists v, r = Ok v /\ w_mem w' = w_mem w /\ (truthy_str f = false -> v = PNone /\ w' = w).
  Proof.
    unfold upload_thumbnail. destruct (truthy_str f) eqn:F.
    - cbv [try_ bind emit modify of_res ret raise]. destruct (drive_create_thumb _ _ _);
        intros H; injection H as <- <-; eexists; (split; [reflexivity|]);
        (split; [reflexivity | discriminate]).
    - cbv [ret]. intros H; injection H as <- <-. exists PNone. auto.
  Qed.

Lemma backfilled_trans f p k e0 e1 e2 :
    dict_get p e1 = dict_get p e0 ->
    backfilled f p k e0 e1 -> backfilled f p k e1 e2 -> backfilled f p k e0 e2.
  Proof.
    unfold backfilled. intros Hp. rewrite Hp.
    destruct (truthy (dict_get p e0)) eqn:P; cbn [andb].
    - destruct (negb (truthy (dict_get k e0))) eqn:K.
      + intros (v1 & E1 & N1). rewrite E1.
        destruct (truthy (Some v1)) eqn:T; cbn [negb].
        * intros E2. rewrite E2. eauto.
        * tauto.
      + intros E1. rewrite E1, K. tauto.
    - intros E1 E2. rewrite E2. exact E1.
  Qed.

Lemma backfill_rel_trans f e0 e1 e2 :
    backfill_rel f e0 e1 -> backfill_rel f e1 e2 -> backfill_rel f e0 e2.
  Proof.
    intros (O1 & T1 & Q1) (O2 & T2 & Q2). split; [|split].
    - intros k H1 H2. rewrite O2, O1; auto.
    - apply (backfilled_trans f _ _ e0 e1 e2); [apply O1; discriminate | exact T1 | exact T2].
    - apply (backfilled_trans f _ _ e0 e1 e2); [apply O1; discriminate | exact Q1 | exact Q2].
  Qed.

Lemma backfill_entry_spec f q e0 w r w' :
    dict_get q (w_mem w) = Some e0 -> be f q w = (r, w') ->
    r = Ok tt /\ map fst (w_mem w') = map fst (w_mem w) /\
    (forall q', q' <> q -> dict_get q' (w_mem w') = dict_get q' (w_mem w)) /\
    (exists e, dict_get q (w_mem w') = Some e /\ backfill_rel f e0 e) /\
    (truthy_str f = false -> w_trace w' = w_trace w).
  Proof.
    intros He H. unfold backfill_entry in H.
    assert (Me : forall w1 e1, dict_get q (w_mem w1) = Some e1 -> mem_entry q w1 = (Ok e1, w1))
      by (intros w1 e1 H1; unfold mem_entry, bind, gets; cbv beta iota; rewrite H1; reflexivity).
    unfold bind at 1 in H. rewrite (Me w e0 He) in H. cbv beta iota in H.
    set (c1 := truthy (dict_get "thumb_path" e0) && negb (truthy (dict_get "drive_thumb_id" e0))) in H.
    assert (S1 : forall r1 w1,
      (if c1 then bind (up f (str_of (dict_get "thumb_path" e0)) q "thumb")
                     (fun v => item_set q "drive_thumb_id" v) else ret tt) w = (r1, w1) ->
      r1 = Ok tt /\ exists e1, w_mem w1 = dict_set q e1 (w_mem w) /\
        (forall k, k <> "drive_thumb_id" -> dict_get k e1 = dict_get k e0) /\
        backfilled f "thumb_path" "drive_thumb_id" e0 e1 /\
        (truthy_str f = false -> w_trace w1 = w_trace w)).
    { intros r1 w1 H1. unfold backfilled. fold c1. destruct c1.
      - unfold bind in H1. destruct (up _ _ _ _ w) as [ru wu] eqn:U.
        destruct (upload_spec _ _ _ _ _ _ _ U) as (v & -> & Mu & Nu).
        unfold item_set, modify in H1. rewrite Mu, He in H1. injection H1 as <- <-.
        split; [reflexivity|]. exists (dict_set "drive_thumb_id" v e0). cbn [w_mem set_mem w_trace].
        split; [reflexivity|]. split; [|split].
        + intros k Hk. apply dict_get_set_other. exact Hk.
        + exists v. rewrite dict_get_set_eq. split; [reflexivity|]. intros F. apply Nu, F.
        + intros F. destruct (Nu F) as [_ ->]. reflexivity.
      - unfold ret in H1. injection H1 as <- <-. split; [reflexivity|].
        exists e0. rewrite dict_set_same by exact He. auto. }
    unfold bind at 1 in H.
    match type of H with context [(if ?b then ?x else ?y) w] =>
      destruct ((if b then x else y) w) as [r1 w1] eqn:E1 in H end.
    destruct (S1 r1 w1 E1) as (-> & e1 & M1 & O1 & B1 & T1).
    assert (He1 : dict_get q (w_mem w1) = Some e1) by (rewrite M1; apply dict_get_set_eq).
    unfold bind at 1 in H. rewrite (Me w1 e1 He1) in H. cbv beta iota in H.
    set (c2 := truthy (dict_get "qr_path" e1) && negb (truthy (dict_get "drive_qr_id" e1))) in H.
    assert (Qp : dict_get "qr_path" e1 = dict_get "qr_path" e0) by (apply O1; discriminate).
    assert (Qi : dict_get "drive_qr_id" e1 = dict_get "drive_qr_id" e0) by (apply O1; discriminate).
    assert (K1 : map fst (w_mem w1) = map fst (w_mem w))
      by (rewrite M1; exact (dict_set_keys_present _ _ _ _ He)).
    assert (F1 : forall q', q' <> q -> dict_get q' (w_mem w1) = dict_get q' (w_mem w))
      by (intros q' Hq; rewrite M1; apply dict_get_set_other; exact Hq).
    destruct c2 eqn:C2.
    - unfold bind in H. destruct (up _ _ _ _ w1) as [ru wu] eqn:U.
      destruct (upload_spec _ _ _ _ _ _ _ U) as (v & -> & Mu & Nu).
      unfold item_set, modify in H. rewrite Mu, He1 in H. injection H as <- <-.
      cbn [w_mem set_mem w_trace].
      split; [reflexivity|]. split; [rewrite (dict_set_keys_present _ _ _ _ He1); exact K1|].
      split; [intros q' Hq; rewrite dict_get_set_other by exact Hq; apply F1, Hq|].
      split.
      + exists (dict_set "drive_qr_id" v e1). rewrite dict_get_set_eq. split; [reflexivity|].
        split; [|split].
        * intros k H1 H2. rewrite dict_get_set_other by exact H2. apply O1, H1.
        * unfold backfilled in *. rewrite !dict_get_set_other by discriminate. exact B1.
        * unfold backfilled. rewrite <- Qp, <- Qi. fold c2. rewrite C2.
          exists v. rewrite dict_get_set_eq. split; [reflexivity|]. intros F. apply Nu, F.
      + intros F. destruct (Nu F) as [_ ->]. apply T1, F.
    - unfold ret in H. injection H as <- <-.
      split; [reflexivity|]. split; [exact K1|]. split; [exact F1|]. split; [|exact T1].
      exists e1. split; [exact He1|]. split; [|split].
      + intros k H1 _. apply O1, H1.
      + exact B1.
      + unfold backfilled. rewrite <- Qp, <- Qi. fold c2. rewrite C2. reflexivity.
  Qed.

Lemma backfill_loop_spec f qs w r w' :
    (forall q, In q qs -> In q (map fst (w_mem w))) -> bl f qs w = (r, w') ->
    r = Ok tt /\ map fst (w_mem w') = map fst (w_mem w) /\
    (truthy_str f = false -> w_trace w' = w_trace w) /\
    forall q e0, dict_get q (w_mem w) = Some e0 ->
      exists e, dict_get q (w_mem w') = Some e /\
        (In q qs -> backfill_rel f e0 e) /\ (~ In q qs -> e = e0).
  Proof.
    revert w. induction qs as [|q qs IH]; intros w Hin H; cbn [backfill_loop] in H.
    - unfold ret in H. injection H as <- <-. split; [reflexivity|]. split; [reflexivity|].
      split; [reflexivity|]. intros q e0 He. exists e0. split; [exact He|]. split; [intros []|auto].
    - unfold bind in H. destruct (be f q w) as [r1 w1] eqn:E1.
      destruct (dict_get_some_of_in q (w_mem w) (Hin q (or_introl eq_refl))) as [e0 He0].
      destruct (backfill_entry_spec f q e0 w r1 w1 He0 E1) as (-> & K1 & F1 & (e1 & He1 & R1) & T1).
      assert (Hin1 : forall q', In q' qs -> In q' (map fst (w_mem w1)))
        by (intros q' Hq; rewrite K1; apply Hin; right; exact Hq).
      destruct (IH w1 Hin1 H) as (-> & K2 & T2 & G2).
      split; [reflexivity|]. split; [rewrite K2; exact K1|].
      split; [intros F; rewrite (T2 F); apply T1, F|].
      intros q' e0' He'. destruct (String.eqb q' q) eqn:Eq.
      + apply String.eqb_eq in Eq. subst q'. rewrite He0 in He'. injection He' as <-.
        destruct (G2 q e1 He1) as (e2 & He2 & In2 & Out2). exists e2. split; [exact He2|].
        split; [|intros C; exfalso; apply C; left; reflexivity].
        intros _. destruct (in_dec string_dec q qs) as [I|I].
        * exact (backfill_rel_trans f e0 e1 e2 R1 (In2 I)).
        * rewrite (Out2 I). exact R1.
      + assert (Hq : q' <> q) by (intros ->; rewrite String.eqb_refl in Eq; discriminate).
        rewrite <- (F1 q' Hq) in He'.
        destruct (G2 q' e0' He') as (e2 & He2 & In2 & Out2). exists e2. split; [exact He2|].
        split.
        * intros [C|I]; [congruence | exact (In2 I)].
        * intros C. apply Out2. intros I. apply C. right. exact I.
  Qed.

  (** X11 (main, step 4, and upload_thumbnail): the upload backfill never
      raises and keeps the keys of the mapping.  It changes an entry only in
      its two Drive id fields.  A truthy id, and an id whose file path is
      falsy, are kept.  Every other id is set, to [None] when there is no
      thumbnails folder, and with no folder nothing is uploaded. *)
Theorem backfill_pass_spec f w r w' :
    bp f w = (r, w') ->
    r = Ok tt /\ map fst (w_mem w') = map fst (w_mem w) /\
    (truthy_str f = false -> w_trace w' = w_trace w) /\
    forall q e0, dict_get q (w_mem w) = Some e0 ->
      exists e, dict_get q (w_mem w') = Some e /\ backfill_rel f e0 e.
  Proof.
    intros H. unfold backfill_pass in H. cbv [bind gets] in H.
    destruct (backfill_loop_spec f (map fst (w_mem w)) w r w' (fun q Hq => Hq) H)
      as (Hr & K & T & G).
    split; [exact Hr|]. split; [exact K|]. split; [exact T|].
    intros q e0 He. destruct (G q e0 He) as (e & He' & In1 & _). exists e. split; [exact He'|].
    apply In1. eapply dict_get_in_keys. exact He.
  Qed.
End BackfillExtra.

Lemma existing_aux_cases rows id_col qid i acc j :
  existing_aux rows id_col qid i acc = Some j ->
  acc = Some j \/ (i <= j /\ exists r, nth_error rows (j - i) = Some r /\ nth_error r id_col <> None).
Proof.
  revert i acc. induction rows as [|r rs IH]; intros i acc H; cbn [existing_aux] in H; [left; exact H|].
  destruct (IH _ _ H) as [Ha|(Hle & r' & Hr' & Hn)].
  - destruct (nth_error r id_col) as [v|] eqn:Ev; [|left; exact Ha].
    destruct (pyval_eqb v (PStr qid)); [|left; exact Ha].
    injection Ha as <-. right. split; [lia|]. exists r. rewrite Nat.sub_diag. split; [reflexivity|].
    rewrite Ev. discriminate.
  - right. split; [lia|]. exists r'. replace (j - i) with (S (j - S i)) by lia. auto.
Qed.

Lemma list_update_nth_other {A} (f : A -> A) j i (l : list A) :
  i <> j -> nth_error (list_update j f l) i = nth_error l i.
Proof.
  revert i j. induction l as [|x l IH]; intros i j H; [destruct j; reflexivity|].
  destruct j as [|j], i as [|i]; cbn; try reflexivity; [congruence|]. apply IH. lia.
Qed.

Section SheetExtra.
  Context (minute_of : nat -> string).

Lemma apply_entries_keeps hdr ex ks m c rows i r :
    nth_error rows i = Some r -> (forall q, ex q <> Some i) ->
    nth_error (apply_entries minute_of hdr ex ks m c rows) i = Some r.
  Proof.
    revert c rows. induction ks as [|q ks IH]; intros c rows Hr Hex; cbn [apply_entries]; [exact Hr|].
    apply IH; [|exact Hex]. destruct (ex q) as [j|] eqn:Ej.
    - rewrite list_update_nth_other; [exact Hr|]. intros ->. exact (Hex q Ej).
    - rewrite nth_error_app1; [exact Hr|]. apply nth_error_Some. congruence.
  Qed.

Lemma mirror_core_short_row h rest m c row :
    In row rest ->
    length row <= (match col_index (extend_headers h) "Parchment ID" with Some j => j | None => 0 end) ->
    mirror_core minute_of (h :: rest) m c = Exc.
  Proof.
    intros Hin Hlen. unfold mirror_core. cbn [init_rows hd].
    set (id_col := match col_index (extend_headers h) "Parchment ID" with Some j => j | None => 0 end) in *.
    destruct (In_nth_error _ _ Hin) as [k Hk].
    assert (Hn : nth_error row id_col = None) by (apply nth_error_None; exact Hlen).
    assert (Keep : nth_error
        (apply_entries minute_of (extend_headers h) (existing_index (extend_headers h :: rest) id_col)
           (sort_by (fun s => s) (map fst m)) m c (extend_headers h :: rest)) (S k) = Some row).
    { apply apply_entries_keeps; [exact Hk|]. intros q Hq. unfold existing_index in Hq.
      destruct (existing_aux_cases _ _ _ _ _ _ Hq) as [D|(_ & r & Hr & Hr')]; [discriminate|].
      rewrite Nat.sub_0_r in Hr. cbn in Hr. rewrite Hk in Hr. injection Hr as <-. exact (Hr' Hn). }
    destruct (apply_entries _ _ _ _ _ _ _) as [|hd0 data] eqn:E; [discriminate|].
    cbn [tl] in *. cbn in Keep. unfold sort_rows.
    assert (Ex : existsb (fun r => Nat.leb (length r) id_col) data = true).
    { apply existsb_exists. exists row. split; [exact (nth_error_In _ _ Keep)|].
      apply Nat.leb_le. exact Hlen. }
    rewrite Ex. reflexivity.
  Qed.

  (** X12 (log_to_gsheet): when a data row of a non-empty sheet has no cell in
      the identifier column (a blank row, for one), the mirror writes nothing:
      sorting the rows raises an IndexError, which is caught, and the sheet
      keeps its contents. *)
Theorem log_to_gsheet_short_row sid h rest row w r w' :
    w_sheet w = h :: rest -> In row rest ->
    length row <= (match col_index (extend_headers h) "Parchment ID" with Some j => j | None => 0 end) ->
    log_to_gsheet minute_of sid w = (r, w') ->
    r = Ok tt /\ w_sheet w' = h :: rest.
  Proof.
    intros Hs Hin Hlen H. unfold log_to_gsheet in H.
    destruct (String.eqb sid "" || contains "PASTE" sid).
    - unfold ret in H. injection H as <- <-. auto.
    - cbv [try_ bind gets modify of_res ret raise] in H. rewrite Hs in H.
      rewrite (mirror_core_short_row h rest _ _ row Hin Hlen) in H.
      injection H as <- <-. split; [reflexivity|]. exact Hs.
  Qed.
End SheetExtra.

Section BatchProofs.
  Context (minute_key : json -> res string).

  (** X13 (update_batch_report): the call raises exactly when the item is not a
      dict or its [mediaMetadata] is present and not a dict; every error
      inside the [try] is caught. *)
Theorem update_batch_report_raises item b :
    update_batch_report minute_key item b = Exc <->
    is_obj item = false \/
    exists o md, item = JObj o /\ dict_get "mediaMetadata" o = Some md /\ is_obj md = false.
  Proof.
    unfold update_batch_report, rbind, jget. split.
    - destruct item as [| | | | | |o]; try (intros _; left; reflexivity).
      intros H. right. exists o.
      destruct (dict_get "mediaMetadata" o) as [md|] eqn:E.
      + exists md. split; [reflexivity|]. split; [reflexivity|].
        destruct md; try reflexivity.
        destruct (jtruthy _); discriminate.
      + destruct (jtruthy _); discriminate.
    - intros [H|(o & md & -> & E & H)].
      + destruct item; try reflexivity; discriminate.
      + rewrite E. destruct md; try reflexivity; discriminate.
  Qed.

Lemma batch_try_shapes item ct b :
    let b' := batch_try minute_key item ct b in
    b' = b \/
    exists k v, b' = dict_set k v b /\ minute_key ct = Ok k /\
      ((exists l r, dict_get k b = Some (JList l) /\ v = JList (l ++ [r])) \/
       (dict_get k b = None /\ exists l, v = JList l /\ length l <= 1)).
  Proof.
    unfold batch_try. destruct (minute_key ct) as [k|] eqn:Ek; [|left; reflexivity].
    unfold dict_mem. destruct (dict_get k b) as [v0|] eqn:Ev.
    - rewrite Ev. destruct v0 as [| | | | |l|]; try (left; reflexivity).
      destruct (batch_record item ct) as [r|]; [|left; reflexivity].
      right. exists k, (JList (l ++ [r])). split; [reflexivity|]. split; [reflexivity|].
      left. exists l, r. auto.
    - rewrite dict_get_set_eq. destruct (batch_record item ct) as [r|].
      + right. exists k, (JList ([] ++ [r])). rewrite dict_set_set.
        split; [reflexivity|]. split; [reflexivity|]. right. split; [exact Ev|].
        exists [r]. auto.
      + right. exists k, (JList []). split; [reflexivity|]. split; [reflexivity|].
        right. split; [exact Ev|]. exists []. simpl. auto.
  Qed.

  (** X14 (update_batch_report): a call that returns changes the batch report
      at one key at most, a minute of a [creationTime].  A new minute is added
      last with a list of at most one record, an existing list gains at most
      one record at its end, and every other value is kept. *)
Theorem update_batch_report_extends item b b' :
    update_batch_report minute_key item b = Ok b' ->
    (forall k, dict_get k b' <> dict_get k b ->
       (exists ct, minute_key ct = Ok k) /\
       forall k', k' <> k -> dict_get k' b' = dict_get k' b) /\
    (map fst b' = map fst b \/ exists k, map fst b' = map fst b ++ [k]) /\
    (forall k, dict_get k b = None ->
       dict_get k b' = None \/ exists l, dict_get k b' = Some (JList l) /\ length l <= 1) /\
    (forall k v, dict_get k b = Some v ->
       dict_get k b' = Some v \/ exists l r, v = JList l /\ dict_get k b' = Some (JList (l ++ [r]))).
  Proof.
    unfold update_batch_report, rbind.
    destruct (jget "mediaMetadata" (JObj []) item) as [md|]; [|discriminate].
    destruct (jget "creationTime" JNull md) as [ct|]; [|discriminate].
    assert (Same : forall b', b' = b ->
      (forall k, dict_get k b' <> dict_get k b ->
         (exists ct, minute_key ct = Ok k) /\ forall k', k' <> k -> dict_get k' b' = dict_get k' b) /\
      (map fst b' = map fst b \/ exists k, map fst b' = map fst b ++ [k]) /\
      (forall k, dict_get k b = None ->
         dict_get k b' = None \/ exists l, dict_get k b' = Some (JList l) /\ length l <= 1) /\
      (forall k v, dict_get k b = Some v ->
         dict_get k b' = Some v \/ exists l r, v = JList l /\ dict_get k b' = Some (JList (l ++ [r])))).
    { intros b1 ->. split; [intros k C; exfalso; apply C; reflexivity|].
      split; [left; reflexivity|]. split; [left; exact H|]. intros k v H. left. exact H. }
    destruct (negb (jtruthy ct)); intros H; injection H as <-; [apply Same; reflexivity|].
    destruct (batch_try_shapes item ct b) as [E|(k & v & E & Ek & Hv)]; [apply Same; exact E|].
    rewrite E.
    assert (Oth : forall k', k' <> k -> dict_get k' (dict_set k v b) = dict_get k' b)
      by (intros k' Hk; apply dict_get_set_other; exact Hk).
    split; [|split; [|split]].
    - intros k1 C. destruct (String.eqb k1 k) eqn:Eq.
      + apply String.eqb_eq in Eq. subst k1. split; [exists ct; exact Ek | exact Oth].
      + exfalso. apply C, Oth. intros ->. rewrite String.eqb_refl in Eq. discriminate.
    - destruct Hv as [(l & r & Hk & _)|(Hk & _)].
      + left. exact (dict_set_keys_present _ _ _ _ Hk).
      + right. exists k. exact (dict_set_keys_absent _ _ _ Hk).
    - intros k1 H1. destruct (String.eqb k1 k) eqn:Eq.
      + apply String.eqb_eq in Eq. subst k1. rewrite dict_get_set_eq.
        destruct Hv as [(l & r & Hk & _)|(_ & l & -> & Hl)]; [congruence|].
        right. exists l. auto.
      + left. rewrite Oth; [exact H1|]. intros ->. rewrite String.eqb_refl in Eq. discriminate.
    - intros k1 v1 H1. destruct (String.eqb k1 k) eqn:Eq.
      + apply String.eqb_eq in Eq. subst k1. rewrite dict_get_set_eq.
        destruct Hv as [(l & r & Hk & ->)|(Hk & _)]; [|congruence].
        rewrite Hk in H1. injection H1 as <-. right. exists l, r. auto.
      + left. rewrite Oth; [exact H1|]. intros ->. rewrite String.eqb_refl in Eq. discriminate.
  Qed.

  (** X15 (update_batch_report): an item whose [mediaMetadata] is a dict with a
      truthy [creationTime] that parses, and whose [photo] (if any) is a dict,
      is appended as one record to the list of its minute, created empty when
      missing; the rest of the report is kept. *)
Theorem update_batch_report_appends o md ct k l b :
    dict_get "mediaMetadata" o = Some (JObj md) ->
    dict_get "creationTime" md = Some ct -> jtruthy ct = true ->
    minute_key ct = Ok k ->
    (forall ph, dict_get "photo" md = Some ph -> is_obj ph = true) ->
    (dict_get k b = None /\ l = []) \/ dict_get k b = Some (JList l) ->
    exists r, batch_record (JObj o) ct = Ok r /\
      update_batch_report minute_key (JObj o) b = Ok (dict_set k (JList (l ++ [r])) b).
  Proof.
    intros Hmd Hct Ht Hk Hph Hb.
    assert (R : exists r, batch_record (JObj o) ct = Ok r).
    { unfold batch_record, rbind. cbn [jget]. rewrite Hmd. cbn [jget].
      destruct (dict_get "photo" md) as [ph|] eqn:Ep.
      - specialize (Hph ph eq_refl). destruct ph; try discriminate. cbn [jget]. eauto.
      - cbn [jget]. eauto. }
    destruct R as [r Hr]. exists r. split; [exact Hr|].
    unfold update_batch_report, rbind. cbn [jget]. rewrite Hmd. cbn [jget]. rewrite Hct, Ht.
    cbn [negb]. f_equal. unfold batch_try. rewrite Hk. unfold dict_mem.
    destruct Hb as [(Hn & ->)|Hs].
    - rewrite Hn, dict_get_set_eq, Hr, dict_set_set. reflexivity.
    - rewrite Hs, Hs, Hr. reflexivity.
  Qed.
End BatchProofs.

(** *** [find_target_albums] *)

Lemma scan_albums_titles albums found :
  (forall t, In t (map fst found) -> In t TARGET_TITLES) -> NoDup (map fst found) ->
  let f' := snd (scan_albums albums found) in
  (forall t, In t (map fst f') -> In t TARGET_TITLES) /\ NoDup (map fst f').
Proof.
  revert found. induction albums as [|a rest IH]; intros found Ht Hn; cbn [scan_albums]; [simpl; auto|].
  destruct a as [| | | | | |o]; try (simpl; auto).
  apply IH.
  - destruct (target_title _) as [s|] eqn:Es; [|exact Ht].
    intros t Hin. destruct (dict_get s found) as [e|] eqn:E.
    + rewrite (dict_set_keys_present _ _ _ _ E) in Hin. apply Ht, Hin.
    + rewrite (dict_set_keys_absent _ _ _ E) in Hin. apply in_app_or in Hin.
      destruct Hin as [Hin|[<-|[]]]; [apply Ht, Hin|].
      unfold target_title in Es. destruct (match dict_get "title" o with Some t => t | None => JNull end);
        try discriminate.
      destruct (existsb (String.eqb s0) TARGET_TITLES) eqn:Ex; [|discriminate].
      injection Es as <-. apply existsb_exists in Ex. destruct Ex as (x & Hx & Eq).
      apply String.eqb_eq in Eq. subst. exact Hx.
  - destruct (target_title _); [apply nodup_set; exact Hn | exact Hn].
Qed.

Lemma scan_listing_titles results key found :
  (forall t, In t (map fst found) -> In t TARGET_TITLES) -> NoDup (map fst found) ->
  let f' := scan_listing results key found in
  (forall t, In t (map fst f') -> In t TARGET_TITLES) /\ NoDup (map fst f').
Proof.
  intros Ht Hn. unfold scan_listing. destruct results as [resp|]; [|auto].
  destruct (rbind _ _) as [albums|]; [|auto]. apply scan_albums_titles; assumption.
Qed.

(** X16 (find_target_albums): the albums found are keyed by titles of
    [TARGET_TITLES] only, each at most once. *)
Theorem find_target_albums_titles owned shared :
  (forall t, In t (map fst (find_target_albums owned shared)) -> In t TARGET_TITLES) /\
  NoDup (map fst (find_target_albums owned shared)).
Proof.
  unfold find_target_albums. apply scan_listing_titles; apply scan_listing_titles.
  - intros t [].
  - constructor.
  - intros t [].
  - constructor.
Qed.

Lemma scan_albums_last pre o post t found :
  Forall (fun a => is_obj a = true) pre ->
  dict_get "title" o = Some (JStr t) -> In t TARGET_TITLES ->
  Forall (fun a => forall o', a = JObj o' -> dict_get "title" o' <> Some (JStr t)) post ->
  dict_get t (snd (scan_albums (pre ++ JObj o :: post) found)) =
    Some (match dict_get "id" o with Some v => v | None => JNull end).
Proof.
  intros Hpre Ho Ht Hpost. revert found. induction pre as [|a pre IH]; intros found.
  - cbn [app scan_albums]. rewrite Ho.
    assert (Tt : target_title (JStr t) = Some t).
    { unfold target_title. replace (existsb (String.eqb t) TARGET_TITLES) with true; [reflexivity|].
      symmetry. apply existsb_exists. exists t. split; [exact Ht | apply String.eqb_refl]. }
    rewrite Tt. set (idv := match dict_get "id" o with Some v => v | None => JNull end).
    assert (G : forall f, dict_get t f = Some idv -> dict_get t (snd (scan_albums post f)) = Some idv).
    2:{ apply G. apply dict_get_set_eq. }
    clear Hpre Tt. induction Hpost as [|a post Ha _ IHp]; intros f Hf.
    + exact Hf.
    + destruct a as [| | | | | |o']; cbn [scan_albums snd]; try exact Hf.
      specialize (Ha o' eq_refl) as Ho'. apply IHp. cbv zeta.
      destruct (target_title _) as [s|] eqn:Es; [|exact Hf].
      rewrite dict_get_set_other; [exact Hf|]. intros ->. apply Ho'.
      unfold target_title in Es. destruct (dict_get "title" o') as [[| | | |s'| |]|]; try discriminate.
      destruct (existsb _ _); [|discriminate]. injection Es as ->. reflexivity.
  - inversion Hpre as [|a' pre' Ha Hpre']; subst. destruct a; try discriminate.
    cbn [app scan_albums]. apply IH. exact Hpre'.
Qed.

(** X17 (find_target_albums): when the shared listing holds only dicts up to
    the last dict album titled [t] (a target title), [t] maps to that
    album's [id], whatever the owned listing holds: the shared albums are
    scanned last and the last one listed wins.  An entry after it that is
    not a dict ends the scan in the [except] branch, which keeps [t]. *)
Theorem find_target_albums_shared_last owned resp pre o post t :
  jget "sharedAlbums" (JList []) resp = Ok (JList (pre ++ JObj o :: post)) ->
  Forall (fun a => is_obj a = true) pre ->
  dict_get "title" o = Some (JStr t) -> In t TARGET_TITLES ->
  Forall (fun a => forall o', a = JObj o' -> dict_get "title" o' <> Some (JStr t)) post ->
  dict_get t (find_target_albums owned (Ok resp)) =
    Some (match dict_get "id" o with Some v => v | None => JNull end).
Proof.
  intros Hr Hpre Ho Ht Hpost. unfold find_target_albums at 1, scan_listing at 1.
  rewrite Hr. cbn [rbind jiter]. apply scan_albums_last; assumption.
Qed.

(** ** Witnesses on concrete inputs *)

Lemma gap_analysis_missing_witness :
  exists missing, [3%Z] = firstn 10 missing /\ missing <> [] /\
    StronglySorted Z.lt missing /\
    forall k, In k missing <->
      (exists q a, In q (map fst ExtraScenarios.gap_store) /\ id_search q = Some ("A-", Ok a) /\ (a <= k)%Z) /\
      (exists q b, In q (map fst ExtraScenarios.gap_store) /\ id_search q = Some ("A-", Ok b) /\ (k <= b)%Z) /\
      ~ (exists q, In q (map fst ExtraScenarios.gap_store) /\ id_search q = Some ("A-", Ok k)).
Proof.
  apply gap_analysis_missing. vm_compute. right. left. reflexivity.
Defined.

Lemma gap_analysis_no_gaps_witness :
  exists q, In q (map fst ExtraScenarios.nogap_store) /\ id_search q = Some ("A-", Ok 2%Z).
Proof.
  apply (gap_analysis_no_gaps ExtraScenarios.nogap_store "A-") with "A-1" 1%Z "A-2" 2%Z;
    [vm_compute; right; left; reflexivity | vm_compute; auto | vm_compute; reflexivity
    | vm_compute; auto | vm_compute; reflexivity | lia].
Defined.

Lemma re_search_sound_witness :
  exists pre post : list Z, utf8_codepoints "12-A-٣٤ b" = pre ++ [45; 65; 45]%Z ++ [1635; 1636]%Z ++ post /\
    [45; 65; 45]%Z <> [] /\ Forall (fun c => is_pat_char c = true) [45; 65; 45]%Z /\
    [1635; 1636]%Z <> [] /\ Forall (fun c => is_digit c = true) [1635; 1636]%Z /\
    (forall c post', post = c :: post' -> is_digit c = false).
Proof.
  apply re_search_sound. vm_compute. reflexivity.
Defined.

Lemma id_search_prefix_number_witness :
  id_search "A1٣" = Some ("A", Ok 13%Z) /\ id_search "A-007" = Some ("A-", Ok 7%Z).
Proof.
  split.
  - rewrite (id_search_prefix_number "A1٣" [65]%Z [49; 1635]%Z []%Z);
      [vm_compute; reflexivity | vm_compute; reflexivity | discriminate
      | repeat constructor | discriminate | repeat constructor | discriminate].
  - rewrite (id_search_prefix_number "A-007" [65; 45]%Z [48; 48; 55]%Z []%Z);
      [vm_compute; reflexivity | vm_compute; reflexivity | discriminate
      | repeat constructor | discriminate | repeat constructor | discriminate].
Defined.

Lemma process_folder_raises_iff_witness :
  fst ExtraScenarios.folder_run = Exc <->
  exists pre post, ExtraScenarios.fail_pages "F" = (pre ++ Exc :: post)%list /\
    Forall (fun p => exists items, p = Ok items /\ items <> []) pre.
Proof.
  eapply process_folder_raises_iff. apply surjective_pairing.
Defined.

Lemma main_run_listing_failure_witness :
  fst ExtraScenarios.main_fail = Exc /\
  w_saved (snd ExtraScenarios.main_fail) = w_saved ExtraScenarios.main_world /\
  w_sheet (snd ExtraScenarios.main_fail) = w_sheet ExtraScenarios.main_world.
Proof.
  eapply (main_run_listing_failure _ _ _ _ _ _ _ _ _ _ _ _ _ _ _ _ _ _ _ _ _ _ _
    ["F"] None "sheet" "F").
  3: apply surjective_pairing.
  - left. reflexivity.
  - exists [Ok [Scenarios.image "i1" "1.jpg"]], []. split; [reflexivity|].
    constructor; [|constructor]. eexists. split; [reflexivity | discriminate].
Defined.

Lemma heal_pass_null_local_path_witness :
  fst ExtraScenarios.null_run = Exc.
Proof.
  eapply (heal_pass_null_local_path _ _ _ _ _ _ _ _ _ _ _ _ _ "Q1" [("local_path", PNone)]).
  3: apply surjective_pairing.
  - reflexivity.
  - reflexivity.
Defined.

Lemma heal_pass_zip_owner_cached_witness :
  exists t, w_trace (snd ExtraScenarios.zip_run) = (w_trace ExtraScenarios.zip_world ++ t)%list /\
    drive_queries "b.zip" t <= 1.
Proof.
  eapply (heal_pass_zip_owner_cached _ _ _ _ _ _ _ _ _ _ _ _ _ "b.zip" [Some [Some "Bob"]] "Bob").
  3: apply surjective_pairing.
  - reflexivity.
  - reflexivity.
Defined.

Lemma backfill_pass_spec_witness :
  fst ExtraScenarios.backfill_run = Ok tt /\
  map fst (w_mem (snd ExtraScenarios.backfill_run)) = map fst (w_mem ExtraScenarios.backfill_world) /\
  (truthy_str None = false ->
     w_trace (snd ExtraScenarios.backfill_run) = w_trace ExtraScenarios.backfill_world) /\
  forall q e0, dict_get q (w_mem ExtraScenarios.backfill_world) = Some e0 ->
    exists e, dict_get q (w_mem (snd ExtraScenarios.backfill_run)) = Some e /\ backfill_rel None e0 e.
Proof.
  apply (backfill_pass_spec Demo.drive_create_thumb None ExtraScenarios.backfill_world).
  apply surjective_pairing.
Defined.

Lemma log_to_gsheet_short_row_witness :
  fst ExtraScenarios.blank_row_run = Ok tt /\
  w_sheet (snd ExtraScenarios.blank_row_run) = [map PStr headers; []].
Proof.
  eapply (log_to_gsheet_short_row _ _ (map PStr headers) [[]] []).
  4: apply surjective_pairing.
  - reflexivity.
  - left. reflexivity.
  - vm_compute. lia.
Defined.

Lemma update_batch_report_extends_witness :
  let b' := match update_batch_report ExtraScenarios.minute_key ExtraScenarios.photo_item
                    ExtraScenarios.photo_report with Ok b => b | Exc => [] end in
  (forall k, dict_get k b' <> dict_get k ExtraScenarios.photo_report ->
     (exists ct, ExtraScenarios.minute_key ct = Ok k) /\
     forall k', k' <> k -> dict_get k' b' = dict_get k' ExtraScenarios.photo_report) /\
  (map fst b' = map fst ExtraScenarios.photo_report \/
   exists k, map fst b' = (map fst ExtraScenarios.photo_report ++ [k])%list) /\
  (forall k, dict_get k ExtraScenarios.photo_report = None ->
     dict_get k b' = None \/ exists l, dict_get k b' = Some (JList l) /\ length l <= 1) /\
  (forall k v, dict_get k ExtraScenarios.photo_report = Some v ->
     dict_get k b' = Some v \/
     exists l r, v = JList l /\ dict_get k b' = Some (JList (l ++ [r])%list)).
Proof.
  intros b'. apply (update_batch_report_extends ExtraScenarios.minute_key ExtraScenarios.photo_item).
  vm_compute. reflexivity.
Defined.

Lemma update_batch_report_appends_witness :
  exists r, batch_record (JObj [("filename", JStr "a.jpg"); ("id", JStr "g1");
          ("mediaMetadata", JObj [("creationTime", JStr "2024-01-01T10:00:00Z")])])
            (JStr "2024-01-01T10:00:00Z") = Ok r /\
    update_batch_report ExtraScenarios.minute_key
      (JObj [("filename", JStr "a.jpg"); ("id", JStr "g1");
             ("mediaMetadata", JObj [("creationTime", JStr "2024-01-01T10:00:00Z")])])
      ExtraScenarios.photo_report =
    Ok (dict_set "2024-01-01T10:00" (JList ([] ++ [r])%list) ExtraScenarios.photo_report).
Proof.
  apply (update_batch_report_appends ExtraScenarios.minute_key _
           [("creationTime", JStr "2024-01-01T10:00:00Z")]).
  - reflexivity.
  - reflexivity.
  - reflexivity.
  - vm_compute. reflexivity.
  - intros ph H. discriminate.
  - left. split; reflexivity.
Defined.

Lemma find_target_albums_shared_last_witness :
  dict_get "CODICUM FA" (find_target_albums (Ok ExtraScenarios.owned_resp) (Ok ExtraScenarios.shared_resp)) =
    Some (JStr "s1").
Proof.
  apply (find_target_albums_shared_last _ _ [] [("title", JStr "CODICUM FA"); ("id", JStr "s1")]
    [JInt 7]).
  - reflexivity.
  - constructor.
  - reflexivity.
  - right. left. reflexivity.
  - constructor; [intros o' H; discriminate | constructor].
Defined.


(** C4 (process_zip): an archive with two members named [a.txt], holding
    ["x"] and ["y"], and an image already recorded by its file name.  The
    recorded image is dropped, so the archive is rewritten, but both [a.txt]
    members are written with the data ["y"]: [z_old.read(name)] reads the
    last member of that name, and the first non-image member is not copied
    through unchanged. *)
Theorem process_zip_duplicate_member_names :
  Scenarios.dup_names_run =
  (Ok 0, mk_world
           [("zid", Demo.build_zip [mk_zentry "a.txt" (Demo.bs "y");
                                    mk_zentry "a.txt" (Demo.bs "y")])]
           [] [("P", [("filename", PStr "p.jpg")])] None [] 0
           [EvDownload "zid"; EvUpload "zid"]).
Proof. vm_compute. reflexivity. Qed.

(** ** Counterexamples on concrete runs *)


(** A run of the Drive script over two images with codes: both matches
    happen, with no save in between or before. *)
Lemma two_matches_before_any_save :
  nth_error (w_trace (snd Scenarios.two_run)) 7 = Some (EvMatch "Q1") /\
  nth_error (w_trace (snd Scenarios.two_run)) 14 = Some (EvMatch "Q2") /\
  existsb (fun e => match e with EvSave => true | _ => false end)
    (firstn 15 (w_trace (snd Scenarios.two_run))) = false.
Proof. vm_compute. split; [reflexivity|]. split; reflexivity. Qed.




(** ** The claims' theorems on concrete inputs *)


Lemma heal_pass_fixed_point_witness :
  w_mem Scenarios.heal_second = w_mem Scenarios.heal_first /\
  w_local Scenarios.heal_first = w_local Scenarios.heal_world /\
  (forall q e, dict_get q (w_mem Scenarios.heal_world) = Some e -> populated e = true ->
     dict_get q (w_mem Scenarios.heal_first) = Some e /\
     (forall c w0, dict_get q (w_mem w0) = Some e ->
        Demo.run_heal_data q w0 = (Ok tt, w0) /\
        heal_creator Demo.drive_get_owners Demo.drive_find_by_name q c w0 = (Ok c, w0))).
Proof.
  apply (heal_pass_fixed_point Demo.img Demo.imdecode Demo.zbar_decode Demo.utf8_decode
    Demo.img_shape Demo.img_slice Demo.resize Demo.thumb_height Demo.imwrite Demo.extract_exif
    Demo.thumbs_dir Demo.drive_get_owners Demo.drive_find_by_name Scenarios.heal_world
    (fst (Demo.run_heal_pass Scenarios.heal_world)) Scenarios.heal_first
    (fst (Demo.run_heal_pass Scenarios.heal_first)) Scenarios.heal_second).
  - vm_compute. constructor; [intros [H|[]]; discriminate|constructor; [intros []|constructor]].
  - vm_compute. reflexivity.
  - vm_compute. reflexivity.
Defined.

Lemma mapping_saved_per_run_or_per_match_witness :
  (exists t1 t2,
     w_trace (snd Scenarios.two_run) = w_trace (Demo.start Scenarios.two_drive None) ++ t1 ++ t2 /\
     ~ In EvSave t1 /\ (t2 = [] \/ t2 = [EvSave]) /\
     (fst Scenarios.two_run = Ok tt -> t2 = [EvSave]) /\
     (t2 = [] -> w_saved (snd Scenarios.two_run) = w_saved (Demo.start Scenarios.two_drive None))) /\
  (exists t,
     w_trace (snd (Demo.run_album "al" "arch" (Demo.start [] None))) =
       w_trace (Demo.start [] None) ++ t /\
     forall i q, nth_error t i = Some (EvMatch q) -> nth_error t (S i) = Some EvSave).
Proof.
  pose proof (mapping_saved_per_run_or_per_match Demo.img Demo.imdecode Demo.zbar_decode
    Demo.utf8_decode Demo.img_shape Demo.img_slice Demo.resize Demo.thumb_height Demo.imwrite
    Demo.extract_exif Demo.parse_zip Demo.build_zip Demo.drive_update Demo.iso_of
    Demo.images_dir Demo.thumbs_dir Scenarios.two_folder Demo.drive_get_owners
    Demo.drive_find_by_name Demo.drive_create_thumb Demo.minute_of Demo.find_thumbs_folder
    Demo.create_thumbs_folder Demo.to_gray Demo.http_get Demo.album_pages) as [HM HA].
  split.
  - apply (HM ["F"] None "" (Demo.start Scenarios.two_drive None) (fst Scenarios.two_run)
      (snd Scenarios.two_run)).
    vm_compute. reflexivity.
  - apply (HA "al" "arch" (Demo.start [] None)
      (fst (Demo.run_album "al" "arch" (Demo.start [] None)))
      (snd (Demo.run_album "al" "arch" (Demo.start [] None)))).
    vm_compute. reflexivity.
Defined.


Lemma gen_no_rect_drops_thumb_witness :
  generate_thumbnails Demo.img Demo.imdecode Demo.img_shape Demo.img_slice Demo.resize
    Demo.thumb_height Demo.imwrite Demo.thumbs_dir "Q1" (Demo.bs "IQ1") None
    (Demo.start [] None) =
  (Ok (Some (PNone, PNone)), add_event (EvImwrite "th/Q1_thumb.jpg") (Demo.start [] None)).
Proof.
  apply (gen_no_rect_drops_thumb Demo.img Demo.imdecode Demo.img_shape Demo.img_slice
    Demo.resize Demo.thumb_height Demo.imwrite Demo.thumbs_dir "Q1" (Demo.bs "IQ1")
    (Demo.bs "Q1") (Demo.bs "Q1") (Demo.start [] None)); reflexivity.
Defined.


Lemma process_zip_atomic_witness :
  (exists n, fst Scenarios.dup_names_run = Ok n) /\
  (w_remote (snd Scenarios.dup_names_run) = w_remote Scenarios.dup_names_world \/
   exists data arch z_new n w1,
     dict_get "zid" (w_remote Scenarios.dup_names_world) = Some data /\
     Demo.parse_zip data = Some arch /\
     zip_loop Demo.img Demo.imdecode Demo.zbar_decode Demo.utf8_decode Demo.img_shape
       Demo.img_slice Demo.resize Demo.thumb_height Demo.imwrite Demo.extract_exif Demo.iso_of
       Demo.images_dir Demo.thumbs_dir arch "batch.zip" "Ann" arch [] 0 false
       (add_event (EvDownload "zid") Scenarios.dup_names_world) = (Ok (z_new, n, true), w1) /\
     length z_new < length arch /\
     w_remote (snd Scenarios.dup_names_run) =
       dict_set "zid" (Demo.build_zip z_new) (w_remote Scenarios.dup_names_world)) /\
  (forall w1,
     process_zip_body Demo.img Demo.imdecode Demo.zbar_decode Demo.utf8_decode Demo.img_shape
       Demo.img_slice Demo.resize Demo.thumb_height Demo.imwrite Demo.extract_exif
       Demo.parse_zip Demo.build_zip Demo.drive_update Demo.iso_of Demo.images_dir
       Demo.thumbs_dir "zid" "batch.zip" "Ann" Scenarios.dup_names_world = (Exc, w1) ->
     fst Scenarios.dup_names_run = Ok 0 /\ snd Scenarios.dup_names_run = w1 /\
     w_remote w1 = w_remote Scenarios.dup_names_world).
Proof.
  apply (process_zip_atomic Demo.img Demo.imdecode Demo.zbar_decode Demo.utf8_decode
    Demo.img_shape Demo.img_slice Demo.resize Demo.thumb_height Demo.imwrite Demo.extract_exif
    Demo.parse_zip Demo.build_zip Demo.drive_update Demo.iso_of Demo.images_dir
    Demo.thumbs_dir "zid" "batch.zip" "Ann" Scenarios.dup_names_world
    (fst Scenarios.dup_names_run) (snd Scenarios.dup_names_run)).
  vm_compute. reflexivity.
Defined.

Lemma heal_camera_overwrites_location_witness :
  exists s b e',
    get_or "local_path" (PStr "")
      [("local_path", PStr "img/Q1.jpg"); ("source_zip", PStr "b.zip")] = PStr s /\
    dict_get s (w_local Scenarios.heal_world) = Some b /\
    dict_get "Q1" (w_mem (snd (Demo.run_heal_data "Q1" Scenarios.heal_world))) = Some e' /\
    dict_get "camera" e' = Some (PStr (fst (Demo.extract_exif b))) /\
    dict_get "location" e' = Some (PStr (snd (Demo.extract_exif b))).
Proof.
  apply (heal_camera_overwrites_location Demo.img Demo.imdecode Demo.zbar_decode
    Demo.utf8_decode Demo.img_shape Demo.img_slice Demo.resize Demo.thumb_height Demo.imwrite
    Demo.extract_exif Demo.thumbs_dir Demo.drive_get_owners Demo.drive_find_by_name "Q1"
    Scenarios.heal_world [("local_path", PStr "img/Q1.jpg"); ("source_zip", PStr "b.zip")]
    (fst (Demo.run_heal_data "Q1" Scenarios.heal_world))
    (snd (Demo.run_heal_data "Q1" Scenarios.heal_world))
    (w_trace (snd (Demo.run_heal_data "Q1" Scenarios.heal_world)))).
  - reflexivity.
  - vm_compute. reflexivity.
  - vm_compute. reflexivity.
  - vm_compute. repeat (first [left; reflexivity | right]).
Defined.

